(** * claude-relay-service: account scheduling and relay engine

  A shallow embedding of the parts of the relay core that the
  specification makes claims about:

  - [NetworkError]: the mapping of transport errors to a status
    ([_mapNetworkErrorStatus] of src/services/droidRelayService.js);
  - [Usage]: usage normalisation, the SSE usage parser and usage
    recording of the same service, with a streaming fixture in [Fixture];
  - [RequestBody]: its request-body processing;
  - [Health]: its handler of upstream 401 and 403 answers;
  - [Selector]: the usage-band account selector
    (class IntelligentAccountSelector);
  - [Lock]: the Redis-backed lease (src/services/distributedLockService.js).

  JavaScript values are modelled by [Js.jsval], strings by [JsString];
  strings are ASCII strings (the case conversions of [JsString] are exact
  on ASCII text); finite numbers are rationals, so that comparisons and
  [Math.max] are exact. Each module of definitions is followed, in the
  second half of the file, by a module of facts about it. *)

From Stdlib Require Import ZArith QArith Qminmax Qround Lia Lqa Bool List Ascii String.
From stdpp Require Import base option list strings pretty gmap.

Local Open Scope Z_scope.


(** ** JavaScript strings *)

Module JsString.

(** [s.startsWith(p)] *)
Definition startsWith (s p : string) : bool := String.prefix p s.

(** [s.includes(p)] *)
Fixpoint includes (s p : string) : bool :=
  String.prefix p s ||
  match s with
  | EmptyString => false
  | String _ s' => includes s' p
  end.

Definition is_upper (c : ascii) : bool :=
  let n := nat_of_ascii c in (65 <=? n)%nat && (n <=? 90)%nat.

Definition is_lower (c : ascii) : bool :=
  let n := nat_of_ascii c in (97 <=? n)%nat && (n <=? 122)%nat.

Definition lower_char (c : ascii) : ascii :=
  if is_upper c then ascii_of_nat (nat_of_ascii c + 32) else c.

Definition upper_char (c : ascii) : ascii :=
  if is_lower c then ascii_of_nat (nat_of_ascii c - 32) else c.

Fixpoint map_chars (f : ascii -> ascii) (s : string) : string :=
  match s with
  | EmptyString => EmptyString
  | String c s' => String (f c) (map_chars f s')
  end.

(** [s.toLowerCase()] and [s.toUpperCase()] *)
Definition toLowerCase : string -> string := map_chars lower_char.
Definition toUpperCase : string -> string := map_chars upper_char.

(** [s.slice(n)] for [0 <= n] *)
Fixpoint slice (n : nat) (s : string) : string :=
  match n, s with
  | O, _ => s
  | S n', String _ s' => slice n' s'
  | S _, EmptyString => EmptyString
  end.

(** [s.split('\n')]: the pieces between line feeds; never empty. *)
Definition LF : ascii := ascii_of_nat 10.

Fixpoint split_lines (s : string) : list string :=
  match s with
  | EmptyString => [EmptyString]
  | String c s' =>
      if Ascii.eqb c LF then EmptyString :: split_lines s'
      else match split_lines s' with
           | [] => [String c EmptyString]
           | l :: ls => String c l :: ls
           end
  end.

End JsString.

(** ** Network error mapping (droidRelayService.js, [_mapNetworkErrorStatus]) *)

Module NetworkError.
Import JsString.

(** A thrown value as the mapping sees it: either something that is not
    an object ([null], [undefined], a thrown string), or an object with an
    optional [code] and an optional [message], both strings. *)
Inductive jserror :=
| ErrPrimitive
| ErrObject (code : option string) (message : option string).

(** [(error && error.code ? String(error.code) : '').toUpperCase()] *)
Definition error_code (error : jserror) : string :=
  toUpperCase
    match error with
    | ErrObject (Some c) _ => if String.eqb c "" then "" else c
    | _ => ""
    end.

(** [(error.message || '').toLowerCase()] *)
Definition error_message (message : option string) : string :=
  toLowerCase (default "" message).

Definition _mapNetworkErrorStatus (error : jserror) : Z :=
  let code := error_code error in
  if String.eqb code "ECONNABORTED" || String.eqb code "ETIMEDOUT" then 408
  else if String.eqb code "ECONNRESET" || String.eqb code "EPIPE" then 503
  else if String.eqb code "ENOTFOUND" || String.eqb code "EAI_AGAIN" then 502
  else if String.eqb code "ECONNREFUSED" then 503
  else if String.eqb code "CERT_HAS_EXPIRED"
          || String.eqb code "UNABLE_TO_VERIFY_LEAF_SIGNATURE" then 502
  else if String.eqb code "ENETUNREACH" || String.eqb code "EHOSTUNREACH" then 503
  else
    match error with
    | ErrObject _ m =>
        let message := error_message m in
        if includes message "timeout" then
          if includes message "gateway" || includes message "upstream"
          then 504 else 408
        else if includes message "certificate" || includes message "ssl"
                || includes message "tls" then 502
        else if includes message "refused" || includes message "unavailable" then 503
        else if includes message "dependency" || includes message "upstream failed"
        then 424
        else 502
    | ErrPrimitive => 502
    end.

(** The categories the specification names, and the status it gives each. *)
Inductive category :=
| RequestTimeout | GatewayTimeout | ConnectionFailure | DnsOrCertificate
| FailedDependency | Unclassified.

Definition code_category (code : string) : option category :=
  if bool_decide (code ∈ ["ECONNABORTED"; "ETIMEDOUT"]) then Some RequestTimeout
  else if bool_decide (code ∈ ["ECONNRESET"; "EPIPE"; "ECONNREFUSED";
                                "ENETUNREACH"; "EHOSTUNREACH"])
  then Some ConnectionFailure
  else if bool_decide (code ∈ ["ENOTFOUND"; "EAI_AGAIN"; "CERT_HAS_EXPIRED";
                                "UNABLE_TO_VERIFY_LEAF_SIGNATURE"])
  then Some DnsOrCertificate
  else None.

Definition message_category (message : string) : category :=
  if includes message "timeout" then
    if includes message "gateway" || includes message "upstream"
    then GatewayTimeout else RequestTimeout
  else if includes message "certificate" || includes message "ssl"
          || includes message "tls" then DnsOrCertificate
  else if includes message "refused" || includes message "unavailable"
  then ConnectionFailure
  else if includes message "dependency" || includes message "upstream failed"
  then FailedDependency
  else Unclassified.

(** The error code decides first; the message is consulted only for
    objects whose code is not one of the known ones. *)
Definition classify (error : jserror) : category :=
  match code_category (error_code error), error with
  | Some c, _ => c
  | None, ErrObject _ m => message_category (error_message m)
  | None, ErrPrimitive => Unclassified
  end.

(** The status table as the specification words it: four categories and
    502 for everything else. *)
Definition spec_status (c : category) : Z :=
  match c with
  | RequestTimeout => 408
  | GatewayTimeout => 504
  | ConnectionFailure => 503
  | DnsOrCertificate => 502
  | FailedDependency | Unclassified => 502
  end.

(** The table the code implements: the same, with 424 for a failed
    dependency. *)
Definition code_status (c : category) : Z :=
  match c with
  | FailedDependency => 424
  | _ => spec_status c
  end.

End NetworkError.

(** ** JavaScript values *)

Module Js.

(** A JavaScript number: a finite value, [NaN], or an infinity. Finite
    values are rationals; comparisons, [Math.max] and [===] are exact on
    them. *)
Inductive number :=
| Finite (q : Q)
| NaN
| Infinity (negative : bool).

#[local] Set Warnings "-register-all".

(** Values as [JSON.parse] and property reads produce them. An object is
    the list of its own properties in insertion order. *)
Inductive jsval :=
| VUndefined
| VNull
| VBool (b : bool)
| VNum (n : number)
| VStr (s : string)
| VArr (items : list jsval)
| VObj (fields : list (string * jsval)).

Abbreviation object := (list (string * jsval)).

Definition num (q : Q) : jsval := VNum (Finite q).
Definition zero : jsval := num 0.

(** [Number.isFinite] followed by the value *)
Definition finite_part (n : number) : option Q :=
  match n with Finite q => Some q | _ => None end.

(** ToBoolean *)
Definition truthy (v : jsval) : bool :=
  match v with
  | VUndefined | VNull => false
  | VBool b => b
  | VNum (Finite q) => negb (Qeq_bool q 0)
  | VNum NaN => false
  | VNum (Infinity _) => true
  | VStr s => negb (String.eqb s "")
  | VArr _ | VObj _ => true
  end.

(** [a || b] *)
Definition or_else (a b : jsval) : jsval := if truthy a then a else b.

(** [v === undefined || v === null] *)
Definition nullish (v : jsval) : bool :=
  match v with VUndefined | VNull => true | _ => false end.

(** [a ?? b] *)
Definition coalesce (a b : jsval) : jsval := if nullish a then b else a.

(** [v === 'text'] for a string literal *)
Definition is_str (v : jsval) (s : string) : bool :=
  match v with VStr s' => String.eqb s' s | _ => false end.

(** Own-property read [o[k]]; [undefined] when the key is absent. *)
Fixpoint obj_get (k : string) (o : object) : jsval :=
  match o with
  | [] => VUndefined
  | (k', v) :: o' => if String.eqb k' k then v else obj_get k o'
  end.

(** [Object.prototype.hasOwnProperty.call(o, k)] *)
Fixpoint obj_has (k : string) (o : object) : bool :=
  match o with
  | [] => false
  | (k', _) :: o' => String.eqb k' k || obj_has k o'
  end.

(** [o[k] = v]: an existing key keeps its place, a new key goes last. *)
Fixpoint obj_set (k : string) (v : jsval) (o : object) : object :=
  match o with
  | [] => [(k, v)]
  | (k', v') :: o' =>
      if String.eqb k' k then (k', v) :: o' else (k', v') :: obj_set k v o'
  end.

(** [delete o[k]] *)
Fixpoint obj_delete (k : string) (o : object) : object :=
  match o with
  | [] => []
  | (k', v') :: o' =>
      if String.eqb k' k then obj_delete k o' else (k', v') :: obj_delete k o'
  end.

(** [v.k] on a value that is neither [null] nor [undefined]: the names the
    relay reads are not defined on the prototypes of primitives and arrays,
    so only objects answer. *)
Definition get (v : jsval) (k : string) : jsval :=
  match v with
  | VObj o => obj_get k o
  | _ => VUndefined
  end.

(** [v?.k] *)
Definition opt_get (v : jsval) (k : string) : jsval :=
  if nullish v then VUndefined else get v k.

End Js.

(** ** Usage extraction (droidRelayService.js) *)

Module Usage.
Import Js JsString.
Local Open Scope Q_scope.

Definition Qgtb (a b : Q) : bool := negb (Qle_bool a b).

Section Normalize.

(** The built-in conversions [Number(string)] and [Number(object)]
    (ToPrimitive, then the string conversion) are parameters. *)
Variable StringToNumber : string -> number.
Variable ObjectToNumber : jsval -> number.

(** [Number(value)] *)
Definition Number (value : jsval) : number :=
  match value with
  | VUndefined => NaN
  | VNull => Finite 0
  | VBool b => Finite (if b then 1 else 0)
  | VNum n => n
  | VStr s => StringToNumber s
  | VArr _ | VObj _ => ObjectToNumber value
  end.

(** The local helper [toNumber] of [_normalizeUsageSnapshot] and of
    [_getTotalTokens]. *)
Definition toNumber (value : jsval) : Q :=
  match value with
  | VUndefined | VNull => 0
  | _ =>
      if is_str value "" then 0
      else match finite_part (Number value) with
           | None => 0
           | Some n => Qmax 0 n
           end
  end.

Definition _normalizeUsageSnapshot (usageData : object) : object :=
  let field k := obj_get k usageData in
  let inputTokens :=
    toNumber (coalesce (field "input_tokens")
               (coalesce (field "prompt_tokens")
                 (coalesce (field "inputTokens") (field "total_input_tokens")))) in
  let outputTokens :=
    toNumber (coalesce (field "output_tokens")
               (coalesce (field "completion_tokens") (field "outputTokens"))) in
  let cacheReadTokens :=
    toNumber (coalesce (field "cache_read_input_tokens")
               (coalesce (field "cacheReadTokens")
                 (opt_get (field "input_tokens_details") "cached_tokens"))) in
  let rawCacheCreateTokens :=
    coalesce (field "cache_creation_input_tokens")
      (coalesce (field "cacheCreateTokens")
        (coalesce (field "cache_tokens") zero)) in
  let cacheCreateTokens := toNumber rawCacheCreateTokens in
  let ephemeral5m :=
    toNumber (coalesce (opt_get (field "cache_creation") "ephemeral_5m_input_tokens")
               (field "ephemeral_5m_input_tokens")) in
  let ephemeral1h :=
    toNumber (coalesce (opt_get (field "cache_creation") "ephemeral_1h_input_tokens")
               (field "ephemeral_1h_input_tokens")) in
  let cacheCreateTokens :=
    if Qeq_bool cacheCreateTokens 0 && (Qgtb ephemeral5m 0 || Qgtb ephemeral1h 0)
    then ephemeral5m + ephemeral1h
    else cacheCreateTokens in
  let normalized :=
    [ ("input_tokens", num inputTokens);
      ("output_tokens", num outputTokens);
      ("cache_creation_input_tokens", num cacheCreateTokens);
      ("cache_read_input_tokens", num cacheReadTokens) ] in
  if Qgtb ephemeral5m 0 || Qgtb ephemeral1h 0
  then obj_set "cache_creation"
         (VObj [ ("ephemeral_5m_input_tokens", num ephemeral5m);
                 ("ephemeral_1h_input_tokens", num ephemeral1h) ])
         normalized
  else normalized.

Definition _getTotalTokens (usageObject : object) : Q :=
  toNumber (obj_get "input_tokens" usageObject)
  + toNumber (obj_get "output_tokens" usageObject)
  + toNumber (obj_get "cache_creation_input_tokens" usageObject)
  + toNumber (obj_get "cache_read_input_tokens" usageObject).

(** The raw values the four counts and the two cache tiers are read from. *)
Definition raw_input (u : object) : jsval :=
  coalesce (obj_get "input_tokens" u)
    (coalesce (obj_get "prompt_tokens" u)
      (coalesce (obj_get "inputTokens" u) (obj_get "total_input_tokens" u))).

Definition raw_output (u : object) : jsval :=
  coalesce (obj_get "output_tokens" u)
    (coalesce (obj_get "completion_tokens" u) (obj_get "outputTokens" u)).

Definition raw_cache_read (u : object) : jsval :=
  coalesce (obj_get "cache_read_input_tokens" u)
    (coalesce (obj_get "cacheReadTokens" u)
      (opt_get (obj_get "input_tokens_details" u) "cached_tokens")).

Definition raw_cache_create (u : object) : jsval :=
  coalesce (obj_get "cache_creation_input_tokens" u)
    (coalesce (obj_get "cacheCreateTokens" u)
      (coalesce (obj_get "cache_tokens" u) zero)).

Definition raw_ephemeral_5m (u : object) : jsval :=
  coalesce (opt_get (obj_get "cache_creation" u) "ephemeral_5m_input_tokens")
    (obj_get "ephemeral_5m_input_tokens" u).

Definition raw_ephemeral_1h (u : object) : jsval :=
  coalesce (opt_get (obj_get "cache_creation" u) "ephemeral_1h_input_tokens")
    (obj_get "ephemeral_1h_input_tokens" u).

(** The cache-creation count: the sum of the two tiers when the coerced
    top-level total is zero and a tier is positive, the coerced top-level
    total otherwise. *)
Definition folded_cache_create (u : object) : Q :=
  let top := toNumber (raw_cache_create u) in
  let e5 := toNumber (raw_ephemeral_5m u) in
  let e1 := toNumber (raw_ephemeral_1h u) in
  if Qeq_bool top 0 && (Qgtb e5 0 || Qgtb e1 0) then e5 + e1 else top.

(** [_extractAccountId]: [typeof account === 'object'] holds of objects and
    arrays ([null] is excluded by [!account]). *)
Definition _extractAccountId (account : jsval) : jsval :=
  match account with
  | VObj _ | VArr _ =>
      or_else (get account "id")
        (or_else (get account "accountId")
          (or_else (get account "account_id") VNull))
  | _ => VNull
  end.

(** The two usage sinks are collaborators outside the relay; each is
    modelled by the list of calls it has received, oldest first. *)
Record key_usage_call := {
  ku_keyId : jsval;
  ku_usage : object;
  ku_model : jsval;
  ku_accountId : jsval
}.

Record account_usage_call := {
  au_accountId : jsval;
  au_totalTokens : Q;
  au_input : jsval;
  au_output : jsval;
  au_cacheCreate : jsval;
  au_cacheRead : jsval;
  au_model : jsval
}.

Record sinks := {
  recordUsageWithDetails : list key_usage_call;   (* apiKeyService *)
  incrementAccountUsage : list account_usage_call (* redis *)
}.

Definition _recordUsage (s : sinks) (apiKeyData account model : jsval)
    (usageObject : object) : sinks :=
  let totalTokens := _getTotalTokens usageObject in
  if Qle_bool totalTokens 0 then s
  else
    let keyId := opt_get apiKeyData "id" in
    let accountId := _extractAccountId account in
    if truthy keyId then
      {| recordUsageWithDetails :=
           recordUsageWithDetails s ++
           [ {| ku_keyId := keyId; ku_usage := usageObject;
                ku_model := model; ku_accountId := accountId |} ];
         incrementAccountUsage := incrementAccountUsage s |}
    else if truthy accountId then
      {| recordUsageWithDetails := recordUsageWithDetails s;
         incrementAccountUsage :=
           incrementAccountUsage s ++
           [ {| au_accountId := accountId;
                au_totalTokens := totalTokens;
                au_input := or_else (obj_get "input_tokens" usageObject) zero;
                au_output := or_else (obj_get "output_tokens" usageObject) zero;
                au_cacheCreate :=
                  or_else (obj_get "cache_creation_input_tokens" usageObject) zero;
                au_cacheRead :=
                  or_else (obj_get "cache_read_input_tokens" usageObject) zero;
                au_model := model |} ] |}
    else s.

(** A snapshot whose four token counts are all the number zero. *)
Definition count_is_zero (v : jsval) : bool :=
  match v with
  | VNum (Finite q) => Qeq_bool q 0
  | _ => false
  end.

Definition empty_snapshot (usageObject : object) : bool :=
  forallb (fun k => count_is_zero (obj_get k usageObject))
    [ "input_tokens"; "output_tokens";
      "cache_creation_input_tokens"; "cache_read_input_tokens" ].

Definition no_calls : sinks :=
  {| recordUsageWithDetails := []; incrementAccountUsage := [] |}.

(** [_recordUsageFromStreamData]: the end of a streamed response. *)
Definition _recordUsageFromStreamData (s : sinks) (usageData : object)
    (apiKeyData account model : jsval) : sinks * object :=
  let normalizedUsage := _normalizeUsageSnapshot usageData in
  (_recordUsage s apiKeyData account model normalizedUsage, normalizedUsage).

(** The property reads [usage.k] of a value [usage = data.usage || {}]:
    a truthy value that is not an object has none of the fields. *)
Definition usage_fields (data : jsval) : object :=
  match or_else (get data "usage") (VObj []) with
  | VObj o => o
  | _ => []
  end.

(** [_handleNonStreamResponse], as far as usage is concerned: the snapshot
    of the buffered response and the state of the sinks afterwards. *)
Definition _handleNonStreamResponse (s : sinks) (data account apiKeyData model : jsval)
    (skipUsageRecord : bool) : sinks * object :=
  let normalizedUsage := _normalizeUsageSnapshot (usage_fields data) in
  if skipUsageRecord then (s, normalizedUsage)
  else (_recordUsage s apiKeyData account model normalizedUsage, normalizedUsage).

End Normalize.

Section Stream.

(** [JSON.parse]; [None] when it throws. *)
Variable JSON_parse : string -> option jsval.

(** The body of the loop of [_parseAnthropicUsageFromSSE] for one line. A
    payload that does not parse, or that parses to [null] (on which
    [data.type] throws), leaves the usage data as it is. *)
Definition parse_line (currentUsageData : object) (line : string) : object :=
  if startsWith line "data: " && (6 <? String.length line)%nat then
    match JSON_parse (slice 6 line) with
    | None | Some VNull | Some VUndefined => currentUsageData
    | Some data =>
        let cur :=
          if is_str (get data "type") "message_start"
             && truthy (get data "message")
             && truthy (get (get data "message") "usage")
          then
            let usage := get (get data "message") "usage" in
            let cur := obj_set "input_tokens"
                         (or_else (get usage "input_tokens") zero) currentUsageData in
            let cur := obj_set "cache_creation_input_tokens"
                         (or_else (get usage "cache_creation_input_tokens") zero) cur in
            let cur := obj_set "cache_read_input_tokens"
                         (or_else (get usage "cache_read_input_tokens") zero) cur in
            if truthy (get usage "cache_creation") then
              obj_set "cache_creation"
                (VObj [ ("ephemeral_5m_input_tokens",
                          or_else (get (get usage "cache_creation")
                                     "ephemeral_5m_input_tokens") zero);
                        ("ephemeral_1h_input_tokens",
                          or_else (get (get usage "cache_creation")
                                     "ephemeral_1h_input_tokens") zero) ])
                cur
            else cur
          else currentUsageData in
        if is_str (get data "type") "message_delta" && truthy (get data "usage")
        then obj_set "output_tokens"
               (or_else (get (get data "usage") "output_tokens") zero) cur
        else cur
    end
  else currentUsageData.

Definition _parseAnthropicUsageFromSSE (chunkStr buffer : string)
    (currentUsageData : object) : object :=
  fold_left parse_line (split_lines (buffer +:+ chunkStr)) currentUsageData.

(** The state of the ['data'] handler of a streamed response: the text
    received so far and the usage collected so far. *)
Record stream_state := {
  buffer : string;
  currentUsageData : object
}.

Definition stream_start : stream_state :=
  {| buffer := ""; currentUsageData := [] |}.

Definition on_data (st : stream_state) (chunkStr : string) : stream_state :=
  {| buffer := buffer st +:+ chunkStr;
     currentUsageData :=
       _parseAnthropicUsageFromSSE chunkStr (buffer st) (currentUsageData st) |}.

(** The usage data at the ['end'] event, after the chunks have arrived. *)
Definition stream_usage (chunks : list string) : object :=
  currentUsageData (fold_left on_data chunks stream_start).

(** *** The fixture of a streamed response and its buffered equivalent *)

(** All the text of a response that arrived in [chunks]. *)
Definition joined (chunks : list string) : string :=
  fold_right String.append "" chunks.

(** The prefixes of a line, shortest first. *)
Fixpoint prefixes (s : string) : list string :=
  match s with
  | EmptyString => [EmptyString]
  | String c s' => EmptyString :: map (String c) (prefixes s')
  end.

(** A text is framed when cutting a [data: ] line short never yields a
    payload that parses to something else than the whole line does. Of
    [JSON.parse] this holds for every text whose payloads are JSON objects:
    a proper prefix of an object text parses only if what is cut off is
    white space. *)
Definition framed_line (line : string) : Prop :=
  Forall (fun p =>
            startsWith p "data: " = false
            ∨ JSON_parse (slice 6 p) = None
            ∨ JSON_parse (slice 6 p) = JSON_parse (slice 6 line))
         (prefixes line).

Definition framed (text : string) : Prop :=
  Forall framed_line (split_lines text).

(** A sufficient test: no line has a proper prefix whose payload parses. *)
Definition framed_check (text : string) : bool :=
  forallb
    (fun line =>
       forallb
         (fun p =>
            negb (startsWith p "data: ")
            || match JSON_parse (slice 6 p) with None => true | Some _ => false end
            || String.eqb p line)
         (prefixes line))
    (split_lines text).

(** The payload of a line, as the parser sees it. *)
Definition line_event (line : string) : option jsval :=
  if startsWith line "data: " && (6 <? String.length line)%nat
  then JSON_parse (slice 6 line) else None.

(** The usage carried by a [message_start] event, and by a
    [message_delta] event. *)
Definition message_start_usage (data : jsval) : option jsval :=
  if is_str (get data "type") "message_start"
     && truthy (get data "message")
     && truthy (get (get data "message") "usage")
  then Some (get (get data "message") "usage") else None.

Definition message_delta_usage (data : jsval) : option jsval :=
  if is_str (get data "type") "message_delta" && truthy (get data "usage")
  then Some (get data "usage") else None.

Definition start_usages (text : string) : list jsval :=
  omap (fun l => line_event l ≫= message_start_usage) (split_lines text).

Definition delta_usages (text : string) : list jsval :=
  omap (fun l => line_event l ≫= message_delta_usage) (split_lines text).

(** The output total of a stream: [usage.output_tokens] of its last
    [message_delta]. *)
Definition final_output_tokens (text : string) : option jsval :=
  (fun usage => get usage "output_tokens") <$> last (delta_usages text).

(** The names under which [_normalizeUsageSnapshot] accepts a count besides
    the ones the provider uses. *)
Definition alias_names : list string :=
  [ "prompt_tokens"; "inputTokens"; "total_input_tokens";
    "completion_tokens"; "outputTokens";
    "cacheReadTokens"; "input_tokens_details";
    "cacheCreateTokens"; "cache_tokens";
    "ephemeral_5m_input_tokens"; "ephemeral_1h_input_tokens" ].

Definition canonical_usage (usage : object) : bool :=
  forallb (fun k => negb (obj_has k usage)) alias_names.

(** The body of the single buffered response for the same totals: the
    usage object that [message_start] announced, with the final output
    count. *)
Definition buffered_response (usage : object) (output_tokens : jsval) : jsval :=
  VObj [ ("usage", VObj (obj_set "output_tokens" output_tokens usage)) ].

(** *** The parser as a sequence of assignments *)

(** The copy of [usage.cache_creation] that [message_start] stores, when
    the event has one. *)
Definition cache_creation_copy (usage : jsval) : option jsval :=
  if truthy (get usage "cache_creation") then
    Some (VObj [ ("ephemeral_5m_input_tokens",
                   or_else (get (get usage "cache_creation")
                              "ephemeral_5m_input_tokens") zero);
                 ("ephemeral_1h_input_tokens",
                   or_else (get (get usage "cache_creation")
                              "ephemeral_1h_input_tokens") zero) ])
  else None.

Definition start_assignments (usage : jsval) : object :=
  [ ("input_tokens", or_else (get usage "input_tokens") zero);
    ("cache_creation_input_tokens",
      or_else (get usage "cache_creation_input_tokens") zero);
    ("cache_read_input_tokens",
      or_else (get usage "cache_read_input_tokens") zero) ]
  ++ (if truthy (get usage "cache_creation") then
        [ ("cache_creation",
            VObj [ ("ephemeral_5m_input_tokens",
                     or_else (get (get usage "cache_creation")
                                "ephemeral_5m_input_tokens") zero);
                   ("ephemeral_1h_input_tokens",
                     or_else (get (get usage "cache_creation")
                                "ephemeral_1h_input_tokens") zero) ]) ]
      else []).

Definition delta_assignments (usage : jsval) : object :=
  [ ("output_tokens", or_else (get usage "output_tokens") zero) ].

Definition event_assignments (data : jsval) : object :=
  from_option start_assignments [] (message_start_usage data)
  ++ from_option delta_assignments [] (message_delta_usage data).

Definition line_assignments (line : string) : object :=
  from_option event_assignments [] (line_event line).

(** [assign a o]: the assignments [o[k] = v] of [a], in order. *)
Definition assign (a : object) (o : object) : object :=
  fold_left (fun o kv => obj_set kv.1 kv.2 o) a o.

(** The value the last assignment to [k] in [a] gives it. *)
Definition last_assign (k : string) (a : object) : option jsval :=
  last (omap (fun kv => if String.eqb kv.1 k then Some kv.2 else None) a).

End Stream.

End Usage.

(** ** Fixtures: the text of a server-sent event stream *)

Module Fixture.
Import Js JsString.

Definition quote : string := String (ascii_of_nat 34) EmptyString.

Definition quoted (s : string) : string := quote +:+ s +:+ quote.

(** The decimal text of a number; fixtures carry integers only. *)
Definition number_text (n : number) : string :=
  match n with
  | Finite q => pretty (Qnum q)
  | _ => "null"
  end.

(** The compact JSON text of a value. *)
Fixpoint JSON_stringify (v : jsval) : string :=
  match v with
  | VUndefined | VNull => "null"
  | VBool true => "true"
  | VBool false => "false"
  | VNum n => number_text n
  | VStr s => quoted s
  | VArr items =>
      "[" +:+
      (fix go (l : list jsval) : string :=
         match l with
         | [] => ""
         | [x] => JSON_stringify x
         | x :: l' => JSON_stringify x +:+ "," +:+ go l'
         end) items
      +:+ "]"
  | VObj fields =>
      "{" +:+
      (fix go (l : list (string * jsval)) : string :=
         match l with
         | [] => ""
         | [(k, x)] => quoted k +:+ ":" +:+ JSON_stringify x
         | (k, x) :: l' => quoted k +:+ ":" +:+ JSON_stringify x +:+ "," +:+ go l'
         end) fields
      +:+ "}"
  end.

(** One record of the stream: [event: name], [data: json], blank line. *)
Definition sse_record (name : string) (data : jsval) : string :=
  "event: " +:+ name +:+ String LF ("data: " +:+ JSON_stringify data)
  +:+ String LF (String LF "").

(** A parser that knows the texts of the listed values and rejects every
    other text. *)
Definition table_parse (known : list jsval) (text : string) : option jsval :=
  find (fun v => String.eqb (JSON_stringify v) text) known.

(** A response of 25 input tokens, 10 of them read from the cache, and 42
    output tokens. *)
Definition start_usage : object :=
  [ ("input_tokens", num 25);
    ("cache_creation_input_tokens", num 0);
    ("cache_read_input_tokens", num 10);
    ("output_tokens", num 1) ].

Definition message_start : jsval :=
  VObj [ ("type", VStr "message_start");
         ("message", VObj [ ("id", VStr "msg_1"); ("usage", VObj start_usage) ]) ].

Definition message_delta : jsval :=
  VObj [ ("type", VStr "message_delta");
         ("usage", VObj [ ("output_tokens", num 42) ]) ].

Definition message_stop : jsval :=
  VObj [ ("type", VStr "message_stop") ].

Definition events : list jsval := [message_start; message_delta; message_stop].

Definition stream_text : string :=
  sse_record "message_start" message_start
  +:+ sse_record "message_delta" message_delta
  +:+ sse_record "message_stop" message_stop.

(** The same text in three chunks, cut inside the first payload and inside
    the second one. *)
Definition stream_chunks : list string :=
  [ String.substring 0 60 stream_text;
    String.substring 60 180 stream_text;
    String.substring 240 (String.length stream_text - 240) stream_text ].

End Fixture.

(** ** Request-body processing (droidRelayService.js, [_processRequestBody]) *)

Module RequestBody.
Import Js JsString.

Definition SYSTEM_PROMPT : string :=
  "You are Droid, an AI software engineering agent built by Factory.".

Record options := {
  disableStreaming : bool;
  streamRequested : bool
}.

(** [_isStreamRequested] on a body that is an object. *)
Definition _isStreamRequested (requestBody : object) : bool :=
  match obj_get "stream" requestBody with
  | VBool true => true
  | VStr s => String.eqb (toLowerCase s) "true"
  | _ => false
  end.

(** The options [relayRequest] passes for a body. *)
Definition relay_options (disableStreaming : bool) (requestBody : object) : options :=
  {| disableStreaming := disableStreaming;
     streamRequested := negb disableStreaming && _isStreamRequested requestBody |}.

(** The function works on a copy [{ ...requestBody }] and goes through five
    steps in order; each is given a name here. *)

(** [delete processedBody.metadata] when the property is there *)
Definition strip_metadata (processedBody : object) : object :=
  if obj_has "metadata" processedBody then obj_delete "metadata" processedBody
  else processedBody.

(** The [stream] flag. On a copy of the request, ['stream' in processedBody]
    is [hasStreamField]. *)
Definition set_stream (opts : options) (hasStreamField : bool)
    (processedBody : object) : object :=
  if disableStreaming opts || negb (streamRequested opts) then
    if hasStreamField then obj_set "stream" (VBool false) processedBody
    else if obj_has "stream" processedBody then obj_delete "stream" processedBody
    else processedBody
  else obj_set "stream" (VBool true) processedBody.

Definition promptBlock : jsval :=
  VObj [ ("type", VStr "text"); ("text", VStr SYSTEM_PROMPT) ].

(** [item && item.type === 'text' && item.text === this.systemPrompt] *)
Definition is_prompt_block (item : jsval) : bool :=
  truthy item && is_str (get item "type") "text"
  && is_str (get item "text") SYSTEM_PROMPT.

(** The Anthropic endpoint: the prompt block goes first in [system]. *)
Definition inject_system (endpointType : string) (processedBody : object) : object :=
  if String.eqb endpointType "anthropic" then
    match obj_get "system" processedBody with
    | VArr items =>
        if existsb is_prompt_block items then processedBody
        else obj_set "system" (VArr (promptBlock :: items)) processedBody
    | _ => obj_set "system" (VArr [promptBlock]) processedBody
    end
  else processedBody.

(** The OpenAI endpoint: the prompt is put in front of [instructions].
    [None] is the TypeError of calling [startsWith] on a truthy value that
    is not a string. *)
Definition inject_instructions (endpointType : string) (processedBody : object)
    : option object :=
  if String.eqb endpointType "openai" then
    let instructions := obj_get "instructions" processedBody in
    if truthy instructions then
      match instructions with
      | VStr s =>
          if startsWith s SYSTEM_PROMPT then Some processedBody
          else Some (obj_set "instructions" (VStr (SYSTEM_PROMPT +:+ s)) processedBody)
      | _ => None
      end
    else Some (obj_set "instructions" (VStr SYSTEM_PROMPT) processedBody)
  else Some processedBody.

(** Only one of [temperature] and [top_p] is kept, [temperature] first. *)
Definition drop_top_p (processedBody : object) : object :=
  let hasValidTemperature := negb (nullish (obj_get "temperature" processedBody)) in
  let hasValidTopP := negb (nullish (obj_get "top_p" processedBody)) in
  if hasValidTemperature && hasValidTopP then obj_delete "top_p" processedBody
  else processedBody.

Definition _processRequestBody (requestBody : object) (endpointType : string)
    (opts : options) : option object :=
  let hasStreamField := obj_has "stream" requestBody in
  let processedBody := strip_metadata requestBody in
  let processedBody := set_stream opts hasStreamField processedBody in
  let processedBody := inject_system endpointType processedBody in
  processedBody ← inject_instructions endpointType processedBody;
  Some (drop_top_p processedBody).

(** *** What each step leaves behind *)

Definition stream_settled (opts : options) (o : object) : Prop :=
  if disableStreaming opts || negb (streamRequested opts)
  then obj_has "stream" o = false
       ∨ (obj_has "stream" o = true ∧ obj_get "stream" o = VBool false)
  else obj_has "stream" o = true ∧ obj_get "stream" o = VBool true.

Definition system_settled (endpointType : string) (o : object) : Prop :=
  endpointType = "anthropic" →
  ∃ items, obj_get "system" o = VArr items ∧ existsb is_prompt_block items = true.

Definition instructions_settled (endpointType : string) (o : object) : Prop :=
  endpointType = "openai" →
  ∃ s, obj_get "instructions" o = VStr s ∧ truthy (VStr s) = true
       ∧ startsWith s SYSTEM_PROMPT = true.

Definition top_p_settled (o : object) : Prop :=
  nullish (obj_get "temperature" o) || nullish (obj_get "top_p" o) = true.

End RequestBody.

(** ** The usage-band account selector (class IntelligentAccountSelector) *)

Module Selector.
Import JsString.

(** *** [parseInt] *)

Definition is_space (c : ascii) : bool :=
  let n := nat_of_ascii c in (n =? 32)%nat || ((9 <=? n)%nat && (n <=? 13)%nat).

Fixpoint skip_spaces (s : string) : string :=
  match s with
  | String c s' => if is_space c then skip_spaces s' else s
  | EmptyString => s
  end.

Definition digit_value (radix : Z) (c : ascii) : option Z :=
  let n := Z.of_nat (nat_of_ascii c) in
  let d := if (48 <=? n) && (n <=? 57) then Some (n - 48)
           else if (97 <=? n) && (n <=? 122) then Some (n - 87)
           else if (65 <=? n) && (n <=? 90) then Some (n - 55)
           else None in
  match d with
  | Some v => if v <? radix then Some v else None
  | None => None
  end.

Fixpoint read_digits (radix : Z) (s : string) (acc : option Z) : option Z :=
  match s with
  | String c s' =>
      match digit_value radix c with
      | Some d => read_digits radix s' (Some (radix * default 0 acc + d))
      | None => acc
      end
  | EmptyString => acc
  end.

(** [parseInt(s)] without a radix: leading white space, a sign, an optional
    [0x], then the longest run of digits; [None] is [NaN]. *)
Definition parseInt_string (s : string) : option Z :=
  let s := skip_spaces s in
  let '(negative, s) :=
    match s with
    | String "-" s' => (true, s')
    | String "+" s' => (false, s')
    | _ => (false, s)
    end in
  let '(radix, s) :=
    match s with
    | String "0" (String "x" s') | String "0" (String "X" s') => (16, s')
    | _ => (10, s)
    end in
  (fun v => if negative then - v else v) <$> read_digits radix s None.

(** *** Accounts *)

(** The [priority] of an account as the selector may find it: absent, a
    number, or a string, the case the [parseInt] calls of the selector
    provide for. The numbers are integers, of a size that [parseInt] reads
    back as they are (below 10^21 in absolute value). *)
Inductive priority_value :=
| PUndefined
| PNumber (z : Z)
| PString (s : string).

Record account := {
  accountId : string;
  priority : priority_value;
  lastUsedAt : option Z;          (* [new Date(lastUsedAt).getTime()], when set *)
  usagePercentage : option Q      (* the ratio the enrichment step added *)
}.

(** [parseInt(priority)] *)
Definition parseInt (p : priority_value) : option Z :=
  match p with
  | PUndefined => None
  | PNumber z => Some z
  | PString s => parseInt_string s
  end.

(** [parseInt(a.priority) || 50] *)
Definition effective_priority (a : account) : Z :=
  match parseInt (priority a) with
  | Some z => if z =? 0 then 50 else z
  | None => 50
  end.

(** [a.priority || 50] *)
Definition priority_or_50 (a : account) : priority_value :=
  match priority a with
  | PUndefined => PNumber 50
  | PNumber z => if z =? 0 then PNumber 50 else PNumber z
  | PString s => if String.eqb s "" then PNumber 50 else PString s
  end.

(** [n === v] for a number [n] *)
Definition strict_eq_number (n : Z) (v : priority_value) : bool :=
  match v with
  | PNumber z => n =? z
  | _ => false
  end.

(** [a.lastUsedAt ? new Date(a.lastUsedAt).getTime() : 0] *)
Definition last_used (a : account) : Z := default 0 (lastUsedAt a).

(** [Array.prototype.sort] is stable; for a comparator that compares keys
    every stable sort gives the same array, insertion sort among them. *)
Fixpoint insert_by {A} (cmp : A → A → Z) (x : A) (l : list A) : list A :=
  match l with
  | [] => [x]
  | y :: l' => if cmp x y <=? 0 then x :: l else y :: insert_by cmp x l'
  end.

Definition sort_by {A} (cmp : A → A → Z) (l : list A) : list A :=
  fold_right (insert_by cmp) [] l.

(** [_selectFromSameGroup]; [None] is [undefined]. *)
Definition _selectFromSameGroup (accounts : list account) : option account :=
  let sortedByPriority :=
    sort_by (fun a b => effective_priority b - effective_priority a) accounts in
  match sortedByPriority with
  | [] => None
  | first :: _ =>
      let highestPriority := priority_or_50 first in
      let highestPriorityAccounts :=
        List.filter (fun a => strict_eq_number (effective_priority a) highestPriority)
          sortedByPriority in
      match highestPriorityAccounts with
      | [a] => Some a
      | _ =>
          let sortedByLastUsed :=
            sort_by (fun a b => last_used a - last_used b) highestPriorityAccounts in
          head sortedByLastUsed
      end
  end.

(** *** Bands *)

Record groups := {
  low : list account;
  medium : list account;
  high : list account;
  critical : list account
}.

Definition Qltb (a b : Q) : bool := negb (Qle_bool b a).

Definition threshold_low : Q := 3 # 10.
Definition threshold_medium : Q := 1 # 2.
Definition threshold_high : Q := 4 # 5.

(** [account.usagePercentage || 0] *)
Definition usage (a : account) : Q := default 0%Q (usagePercentage a).

Definition push_account (g : groups) (a : account) : groups :=
  if Qltb (usage a) threshold_low then
    {| low := low g ++ [a]; medium := medium g; high := high g; critical := critical g |}
  else if Qltb (usage a) threshold_medium then
    {| low := low g; medium := medium g ++ [a]; high := high g; critical := critical g |}
  else if Qltb (usage a) threshold_high then
    {| low := low g; medium := medium g; high := high g ++ [a]; critical := critical g |}
  else
    {| low := low g; medium := medium g; high := high g; critical := critical g ++ [a] |}.

Definition _groupAccountsByUsage (accounts : list account) : groups :=
  fold_left push_account accounts
    {| low := []; medium := []; high := []; critical := [] |}.

(** The loop of [_selectFromGroups] over the bands in order. *)
Fixpoint select_from (priorityGroups : list (list account)) : option account :=
  match priorityGroups with
  | [] => None
  | group :: rest =>
      match group with
      | [] => select_from rest
      | [a] => Some a
      | _ =>
          match _selectFromSameGroup group with
          | Some a => Some a
          | None => select_from rest
          end
      end
  end.

Definition _selectFromGroups (g : groups) : option account :=
  select_from [low g; medium g; high g; critical g].

(** The selection made among enriched candidates. *)
Definition select (accounts : list account) : option account :=
  _selectFromGroups (_groupAccountsByUsage accounts).

(** The band of an account, and the first band that has a candidate. *)
Inductive band := Low | Medium | High | Critical.

Definition band_of (a : account) : band :=
  if Qltb (usage a) threshold_low then Low
  else if Qltb (usage a) threshold_medium then Medium
  else if Qltb (usage a) threshold_high then High
  else Critical.

Definition band_eqb (x y : band) : bool :=
  match x, y with
  | Low, Low | Medium, Medium | High, High | Critical, Critical => true
  | _, _ => false
  end.

Definition in_band (b : band) (accounts : list account) : list account :=
  List.filter (fun a => band_eqb (band_of a) b) accounts.

Definition first_band (accounts : list account) : option band :=
  List.find (fun b => negb (Nat.eqb (length (in_band b accounts)) 0))
    [Low; Medium; High; Critical].

(** Priorities stored as numbers. *)
Definition numeric_priority (a : account) : bool :=
  match priority a with
  | PString _ => false
  | _ => true
  end.

(** The priority as configured, for a priority stored as a number. *)
Definition configured_priority (a : account) : Z :=
  match priority a with
  | PNumber z => z
  | _ => 50
  end.

End Selector.

(** ** The distributed lock (distributedLockService.js) *)

Module Lock.

(** *** The coordination store *)

(** A key of the store: its value and the time, in milliseconds, at which
    it expires. The store answers every command. *)
Record entry := {
  stored : string;
  expires : Z
}.

(** [GET key] at time [now]: a key that has expired is gone. *)
Definition live (now : Z) (db : gmap string entry) (key : string) : option entry :=
  match db !! key with
  | Some e => if now <? expires e then Some e else None
  | None => None
  end.

(** [SET key value PX ttl NX] at time [now]: [Some true] is [OK],
    [Some false] is the nil reply for a key that exists, [None] is the
    error reply for a time to live that is not positive. *)
Definition set_px_nx (now : Z) (key value : string) (ttl : Z) (db : gmap string entry)
    : gmap string entry * option bool :=
  if ttl <=? 0 then (db, None)
  else match live now db key with
       | Some _ => (db, Some false)
       | None => (<[key := {| stored := value; expires := now + ttl |}]> db, Some true)
       end.

(** [PEXPIRE key ttl] at time [now] on a key that exists: a time to live
    that is not positive deletes the key. The reply is 1 either way. *)
Definition pexpire (now : Z) (key : string) (ttl : Z) (db : gmap string entry)
    : gmap string entry :=
  if ttl <=? 0 then delete key db
  else alter (fun e => {| stored := stored e; expires := now + ttl |}) key db.

(** The script of [releaseLock]:
    [if redis.call("get", KEYS[1]) == ARGV[1] then return redis.call("del", KEYS[1]) else return 0 end] *)
Definition release_script (now : Z) (key value : string) (db : gmap string entry)
    : gmap string entry * Z :=
  match live now db key with
  | Some e => if String.eqb (stored e) value then (delete key db, 1) else (db, 0)
  | None => (db, 0)
  end.

(** The script of [extendLock]:
    [if redis.call("get", KEYS[1]) == ARGV[1] then return redis.call("pexpire", KEYS[1], ARGV[2]) else return 0 end] *)
Definition extend_script (now : Z) (key value : string) (ttl : Z)
    (db : gmap string entry) : gmap string entry * Z :=
  match live now db key with
  | Some e =>
      if String.eqb (stored e) value then (pexpire now key ttl db, 1) else (db, 0)
  | None => (db, 0)
  end.

(** *** The service *)

Definition defaultTTL : Z := 30000.
Definition defaultRetryDelay : Z := 50.
Definition defaultRetries : nat := 10.
Definition lockPrefix : string := "lock:".

Record lock := {
  resource : string;
  key : string;
  value : string;
  ttl : Z;
  acquiredAt : Z;
  expiresAt : Z
}.

#[global] Instance entry_eq_dec : EqDecision entry.
Proof. solve_decision. Defined.

#[global] Instance lock_eq_dec : EqDecision lock.
Proof. solve_decision. Defined.

(** The store and the bookkeeping map [activeLocks] of the service. A lock
    object is identified with its record. *)
Record state := {
  redis : gmap string entry;
  activeLocks : gmap string lock
}.

(** The options of [acquireLock] after the defaults are filled in. The
    default of [value], [crypto.randomBytes(16).toString('hex')], is
    evaluated once, when the options are destructured: [random] is that
    draw. *)
Record options := {
  opt_ttl : option Z;
  opt_retries : option nat;
  opt_retryDelay : option Z;
  opt_value : option string
}.

Record resolved := {
  r_ttl : Z;
  r_retries : nat;
  r_retryDelay : Z;
  r_value : string
}.

Definition resolve (o : options) (random : string) : resolved :=
  {| r_ttl := default defaultTTL (opt_ttl o);
     r_retries := default defaultRetries (opt_retries o);
     r_retryDelay := default defaultRetryDelay (opt_retryDelay o);
     r_value := default random (opt_value o) |}.

(** Where a call of [acquireLock] stands: about to make attempt [i] of the
    loop, or returned with a lock, with [null], or by throwing. *)
Inductive phase :=
| Attempt (i : nat)
| Acquired (l : lock)
| ReturnedNull
| Threw.

(** A call in progress, with what it has done so far: the values of the
    [SET] commands it sent and the delays it slept, oldest first. *)
Record call := {
  call_resource : string;
  call_options : resolved;
  call_phase : phase;
  sent : list string;
  slept : list Z
}.

Definition start_call (resource : string) (o : options) (random : string) : call :=
  {| call_resource := resource;
     call_options := resolve o random;
     call_phase := Attempt 0;
     sent := [];
     slept := [] |}.

(** One iteration of the loop [for (let i = 0; i <= retries; i++)], run at
    time [now]: one [SET], then the return, the sleep or the rethrow. The
    sleep itself is the time until the call is scheduled again. *)
Definition attempt (now : Z) (st : state) (c : call) : state * call :=
  match call_phase c with
  | Attempt i =>
      let o := call_options c in
      let key := lockPrefix +:+ call_resource c in
      let '(db, result) := set_px_nx now key (r_value o) (r_ttl o) (redis st) in
      let sent' := sent c ++ [r_value o] in
      let continue (ph : phase) (delays : list Z) :=
        {| call_resource := call_resource c; call_options := o;
           call_phase := ph; sent := sent'; slept := delays |} in
      match result with
      | Some true =>
          let l := {| resource := call_resource c; key := key;
                      value := r_value o; ttl := r_ttl o;
                      acquiredAt := now; expiresAt := now + r_ttl o |} in
          ({| redis := db;
              activeLocks := <[call_resource c := l]> (activeLocks st) |},
           continue (Acquired l) (slept c))
      | Some false =>
          if (i <? r_retries o)%nat
          then ({| redis := db; activeLocks := activeLocks st |},
                continue (Attempt (S i))
                  (slept c ++ [r_retryDelay o * (Z.of_nat i + 1)]))
          else ({| redis := db; activeLocks := activeLocks st |},
                continue ReturnedNull (slept c))
      | None =>
          if (i =? r_retries o)%nat
          then ({| redis := db; activeLocks := activeLocks st |},
                continue Threw (slept c))
          else ({| redis := db; activeLocks := activeLocks st |},
                continue (Attempt (S i)) (slept c))
      end
  | _ => (st, c)
  end.

(** [acquireLock] run to its end with nothing else touching the store. *)
Fixpoint run_alone (fuel : nat) (now : Z) (st : state) (c : call) : state * call :=
  match fuel with
  | O => (st, c)
  | S fuel' => let '(st', c') := attempt now st c in run_alone fuel' now st' c'
  end.

Definition acquireLock (now : Z) (st : state) (resource : string) (o : options)
    (random : string) : state * option lock :=
  let c := start_call resource o random in
  let '(st', c') := run_alone (S (r_retries (call_options c))) now st c in
  (st', match call_phase c' with Acquired l => Some l | _ => None end).

(** [releaseLock] at time [now]; a lock that is [null] is [None]. *)
Definition releaseLock (now : Z) (st : state) (l : option lock) : state * bool :=
  match l with
  | None => (st, false)
  | Some l =>
      if String.eqb (key l) "" || String.eqb (value l) "" then (st, false)
      else
        let '(db, result) := release_script now (key l) (value l) (redis st) in
        if result =? 1
        then ({| redis := db; activeLocks := delete (resource l) (activeLocks st) |},
              true)
        else ({| redis := db; activeLocks := activeLocks st |}, false)
  end.

(** [ttl || lock.ttl || this.defaultTTL] *)
Definition new_ttl (ttl : option Z) (l : lock) : Z :=
  match ttl with
  | Some t => if t =? 0 then (if Lock.ttl l =? 0 then defaultTTL else Lock.ttl l) else t
  | None => if Lock.ttl l =? 0 then defaultTTL else Lock.ttl l
  end.

(** [extendLock] at time [now]: the state, the lock as it is afterwards
    and the answer. The lock that [activeLocks] holds for the resource is
    the same object when it is this lock, and moves with it. *)
Definition extendLock (now : Z) (st : state) (l : option lock) (ttl : option Z)
    : state * option lock * bool :=
  match l with
  | None => (st, l, false)
  | Some l0 =>
      if String.eqb (key l0) "" || String.eqb (value l0) "" then (st, l, false)
      else
        let newTTL := new_ttl ttl l0 in
        let '(db, result) := extend_script now (key l0) (value l0) newTTL (redis st) in
        if result =? 1
        then
          let l1 := {| resource := resource l0; key := key l0; value := value l0;
                       ttl := Lock.ttl l0; acquiredAt := acquiredAt l0;
                       expiresAt := now + newTTL |} in
          ({| redis := db;
              activeLocks :=
                if decide (activeLocks st !! resource l0 = Some l0)
                then <[resource l0 := l1]> (activeLocks st)
                else activeLocks st |},
           Some l1, true)
        else ({| redis := db; activeLocks := activeLocks st |}, l, false)
  end.

(** At time [now] the store holds the key of the lock with the token of
    the lock. *)
Definition holds_token (now : Z) (db : gmap string entry) (l : lock) : Prop :=
  ∃ e, live now db (key l) = Some e ∧ stored e = value l.

(** *** Two calls at once *)

(** Two calls of [acquireLock] share the store; a schedule says which of
    them runs its next iteration, and when. *)
Record system := {
  shared : state;
  first : call;
  second : call
}.

Definition step (sys : system) (turn : bool * Z) : system :=
  let '(who, now) := turn in
  if who then
    let '(st, c) := attempt now (shared sys) (first sys) in
    {| shared := st; first := c; second := second sys |}
  else
    let '(st, c) := attempt now (shared sys) (second sys) in
    {| shared := st; first := first sys; second := c |}.

Definition run (schedule : list (bool * Z)) (sys : system) : system :=
  fold_left step schedule sys.

Definition has_lock (c : call) : bool :=
  match call_phase c with Acquired _ => true | _ => false end.

Definition returned_null (c : call) : bool :=
  match call_phase c with ReturnedNull => true | _ => false end.

Definition finished (c : call) : bool :=
  match call_phase c with Attempt _ => false | _ => true end.

(** The turns of one of the two calls in a schedule. *)
Definition turns (who : bool) (schedule : list (bool * Z)) : nat :=
  length (List.filter (fun t => Bool.eqb (fst t) who) schedule).

(** The delays of a call that failed [n] times: [delay], [2 * delay], ... *)
Definition linear_backoff (delay : Z) (n : nat) : list Z :=
  map (fun i => delay * (Z.of_nat i + 1)) (seq 0 n).

(** What the specification asks of one call after [n] turns: every [SET]
    carried the one token of the call, there were at most [retries + 1] of
    them, the call is over once it has had [retries + 1] turns, a call that
    returned [null] made all its attempts with linearly growing delays in
    between, and it did not throw. *)
Definition call_bounded (c : call) (n : nat) : Prop :=
  let o := call_options c in
  Forall (fun v => v = r_value o) (sent c)
  ∧ (length (sent c) <= S (r_retries o))%nat
  ∧ ((S (r_retries o) <= n)%nat → finished c = true)
  ∧ (returned_null c = true →
       length (sent c) = S (r_retries o)
       ∧ slept c = linear_backoff (r_retryDelay o) (r_retries o))
  ∧ call_phase c ≠ Threw.

(** The invariant of a call of [acquireLock] on [resource] with options
    [o], after [n] turns. *)
Definition call_inv (resource : string) (o : resolved) (c : call) (n : nat) : Prop :=
  call_resource c = resource ∧ call_options c = o
  ∧ Forall (fun v => v = r_value o) (sent c)
  ∧ match call_phase c with
    | Attempt i =>
        i = n ∧ (i <= r_retries o)%nat ∧ length (sent c) = i
        ∧ slept c = linear_backoff (r_retryDelay o) i
    | Acquired l =>
        (length (sent c) <= S (r_retries o))%nat
        ∧ key l = lockPrefix +:+ resource ∧ value l = r_value o
    | ReturnedNull =>
        length (sent c) = S (r_retries o)
        ∧ slept c = linear_backoff (r_retryDelay o) (r_retries o)
    | Threw => False
    end.

(** A schedule stays within the leases when there is a time [horizon]
    that every turn precedes and that a lease taken at any turn outlasts. *)
Definition within_leases (o1 o2 : resolved) (horizon : Z)
    (schedule : list (bool * Z)) : Prop :=
  Forall (fun t : bool * Z =>
            snd t < horizon
            ∧ horizon <= snd t + r_ttl (if fst t then o1 else o2))
         schedule.

(** The invariant of two calls on the same resource: a lock that was
    handed out is in the store until the horizon, and only one was handed
    out. *)
Definition system_inv (resource : string) (o1 o2 : resolved) (horizon : Z)
    (sys : system) (n1 n2 : nat) : Prop :=
  call_inv resource o1 (first sys) n1
  ∧ call_inv resource o2 (second sys) n2
  ∧ (has_lock (first sys) = true ∨ has_lock (second sys) = true →
     ∃ e, redis (shared sys) !! (lockPrefix +:+ resource) = Some e
          ∧ horizon <= expires e)
  ∧ ¬ (has_lock (first sys) = true ∧ has_lock (second sys) = true).

(** Two callers contending for the resource [job]: an empty store, the
    default options but for three retries, and a schedule in which the
    first caller comes first. *)
Definition contended : system :=
  let o := {| opt_ttl := None; opt_retries := Some 3%nat;
              opt_retryDelay := None; opt_value := None |} in
  {| shared := {| redis := ∅; activeLocks := ∅ |};
     first := start_call "job" o "9f86d081884c7d65";
     second := start_call "job" o "2c26b46b68ffc68f" |}.

Definition contended_schedule : list (bool * Z) :=
  [ (true, 0); (false, 1); (false, 51); (false, 151); (false, 301) ].

(** The same callers with leases of 10 milliseconds. *)
Definition short_leases : system :=
  let o := {| opt_ttl := Some 10; opt_retries := Some 3%nat;
              opt_retryDelay := None; opt_value := None |} in
  {| shared := {| redis := ∅; activeLocks := ∅ |};
     first := start_call "job" o "9f86d081884c7d65";
     second := start_call "job" o "2c26b46b68ffc68f" |}.

(** A store in which another holder has the key of [job] until time
    30000. *)
Definition held_elsewhere : state :=
  {| redis := {[ "lock:job" := {| stored := "60303ae22b998861"; expires := 30000 |} ]};
     activeLocks := ∅ |}.

End Lock.

(** ** The upstream 4xx handler (droidRelayService.js) *)

Module Health.
Import JsString.

(** [s.trim()], for the white space of ASCII *)
Fixpoint trim_end (s : string) : string :=
  match s with
  | EmptyString => EmptyString
  | String c s' =>
      match trim_end s' with
      | EmptyString => if Selector.is_space c then EmptyString else String c EmptyString
      | t => String c t
      end
  end.

Definition trim (s : string) : string := trim_end (Selector.skip_spaces s).

(** *** The collaborators *)

Record api_key_entry := {
  entry_id : string;
  entry_status : string;
  entry_error : string
}.

Record account_data := {
  schedulable : string;
  status : string;
  errorMessage : string
}.

(** What the handler can change: the accounts and the key pools of the
    account service, the sticky mappings and the rate-limit marks of the
    store (a mark is the number of seconds it was set for). *)
Record world := {
  accounts : gmap string account_data;
  apiKeys : gmap string (list api_key_entry);
  sticky : gmap string string;
  rateLimits : gmap string Z
}.

(** Modelled from the spec: [droidAccountService.updateAccount] is not part
    of the sources at hand. It is the collaborator
    [UpdateAccountStatus(accountId, status, reason)]: the named fields of
    the account are replaced; an account that does not exist is rejected
    and nothing changes. *)
Definition updateAccount (accountId : string) (fields : account_data) (w : world)
    : world :=
  {| accounts := alter (fun _ => fields) accountId (accounts w);
     apiKeys := apiKeys w; sticky := sticky w; rateLimits := rateLimits w |}.

(** Modelled from the spec: [droidAccountService.markApiKeyAsError] is not
    part of the sources at hand. Per ApiKeyEntry the status goes from
    active to error and never recovers: the entry with the given id gets
    status [error] and the message; the answer says whether there was such
    an entry. *)
Definition markApiKeyAsError (accountId keyId errorMessage : string) (w : world)
    : world * bool :=
  let entries := default [] (apiKeys w !! accountId) in
  let mark e :=
    if String.eqb (entry_id e) keyId
    then {| entry_id := entry_id e; entry_status := "error";
            entry_error := errorMessage |}
    else e in
  ({| accounts := accounts w;
      apiKeys := alter (map mark) accountId (apiKeys w);
      sticky := sticky w; rateLimits := rateLimits w |},
   existsb (fun e => String.eqb (entry_id e) keyId) entries).

(** Modelled from the spec: [droidAccountService.getDecryptedApiKeyEntries]
    is not part of the sources at hand. It is the collaborator
    [GetApiKeyEntries(accountId)]: the entries of the pool of the account. *)
Definition getDecryptedApiKeyEntries (accountId : string) (w : world)
    : list api_key_entry :=
  default [] (apiKeys w !! accountId).

(** Modelled from the spec: [redis.deleteSessionAccountMapping] is not part
    of the sources at hand. A StickySessionMapping is deleted by its key. *)
Definition deleteSessionAccountMapping (stickyKey : string) (w : world) : world :=
  {| accounts := accounts w; apiKeys := apiKeys w;
     sticky := delete stickyKey (sticky w); rateLimits := rateLimits w |}.

(** [redis.getClient().setex(key, seconds, '1')] *)
Definition setex (key : string) (seconds : Z) (w : world) : world :=
  {| accounts := accounts w; apiKeys := apiKeys w; sticky := sticky w;
     rateLimits := <[key := seconds]> (rateLimits w) |}.

(** *** The relay *)

Definition API_KEY_STICKY_PREFIX : string := "droid_api_key".

(** The account as the relay holds it; ids are strings, and an account
    may carry its id under any of three names. *)
Record droid_account := {
  id : option string;
  accountId : option string;
  account_id : option string;
  name : string;
  authenticationMethod : option string;
  account_endpointType : option string
}.

Record context := {
  account : option droid_account;
  selectedAccountApiKey : option string;   (* [selectedAccountApiKey.id] *)
  endpointType : option string;
  sessionHash : option string;
  clientApiKeyId : option string
}.

(** A string that is present and not empty. *)
Definition truthy_string (s : option string) : option string :=
  match s with
  | Some t => if String.eqb t "" then None else Some t
  | None => None
  end.

Definition _normalizeEndpointType (endpointType : option string) : string :=
  match truthy_string endpointType with
  | None => "anthropic"
  | Some e =>
      let normalized := toLowerCase e in
      if String.eqb normalized "openai" || String.eqb normalized "common"
      then "openai" else "anthropic"
  end.

(** [account.id || account.accountId || account.account_id || null] *)
Definition _extractAccountId (account : option droid_account) : option string :=
  match account with
  | Some a =>
      match truthy_string (id a) with
      | Some i => Some i
      | None =>
          match truthy_string (accountId a) with
          | Some i => Some i
          | None => truthy_string (account_id a)
          end
      end
  | None => None
  end.

Definition _composeApiKeyStickyKey (accountId : option string)
    (endpointType : option string) (sessionHash : option string) : option string :=
  match truthy_string accountId, truthy_string sessionHash with
  | Some a, Some s =>
      Some (API_KEY_STICKY_PREFIX +:+ ":" +:+ a +:+ ":"
            +:+ _normalizeEndpointType endpointType +:+ ":" +:+ s)
  | _, _ => None
  end.

Definition _clearApiKeyStickyMapping (accountId : option string)
    (endpointType : option string) (sessionHash : option string) (w : world) : world :=
  match _composeApiKeyStickyKey accountId endpointType sessionHash with
  | Some stickyKey => deleteSessionAccountMapping stickyKey w
  | None => w
  end.

(** The key of the account-level mapping of a session. *)
Definition account_sticky_key (endpointType : option string) (sessionHash : string)
    (clientApiKeyId : option string) : string :=
  "droid:" +:+ _normalizeEndpointType endpointType +:+ ":"
  +:+ default "default" (truthy_string clientApiKeyId) +:+ ":" +:+ sessionHash.

Definition _clearAccountStickyMapping (endpointType : option string)
    (sessionHash : option string) (clientApiKeyId : option string) (w : world) : world :=
  match truthy_string sessionHash with
  | Some s =>
      deleteSessionAccountMapping (account_sticky_key endpointType s clientApiKeyId) w
  | None => w
  end.

(** The text of a status code in a message. *)
Definition status_text (statusCode : Z) : string := pretty statusCode.

Definition _stopDroidAccountScheduling (accountId : option string) (statusCode : Z)
    (reason : string) (w : world) : world :=
  match truthy_string accountId with
  | None => w
  | Some a =>
      let message := if String.eqb reason "" then "上游返回 4xx 错误" else reason in
      updateAccount a
        {| schedulable := "false"; status := "error";
           errorMessage := "上游返回 " +:+ status_text statusCode +:+ "：" +:+ message |}
        w
  end.

(** [_normalizeEndpointType(endpointType || account?.endpointType || 'anthropic')] *)
Definition normalized_endpoint (ctx : context) : string :=
  _normalizeEndpointType
    (Some (default
             (default "anthropic"
                (truthy_string (account ctx ≫= account_endpointType)))
             (truthy_string (endpointType ctx)))).

(** [authMethod]: the authentication method in lower case, trimmed, or
    the empty string when the account has none. *)
Definition auth_method (ctx : context) : string :=
  match account ctx ≫= authenticationMethod with
  | Some m => trim (toLowerCase m)
  | None => ""
  end.

(** The branch of [_handleUpstreamClientError] for 401 and 403. *)
Definition on_auth_error (statusCode : Z) (ctx : context) (accountId : string)
    (w : world) : world :=
  let aid := Some accountId in
  let ep := Some (normalized_endpoint ctx) in
  if String.eqb (auth_method ctx) "api_key" then
    match truthy_string (selectedAccountApiKey ctx) with
    | Some keyId =>
        let '(w, markResult) :=
          markApiKeyAsError accountId keyId
            ("认证失败: " +:+ status_text statusCode) w in
        let w := _clearApiKeyStickyMapping aid ep (sessionHash ctx) w in
        let availableEntries := getDecryptedApiKeyEntries accountId w in
        let activeEntries :=
          List.filter (fun entry => negb (String.eqb (entry_status entry) "error"))
            availableEntries in
        if (length activeEntries =? 0)%nat then
          _clearAccountStickyMapping ep (sessionHash ctx) (clientApiKeyId ctx)
            (_stopDroidAccountScheduling aid statusCode "所有API Key均已异常" w)
        else w
    | None =>
        _clearAccountStickyMapping ep (sessionHash ctx) (clientApiKeyId ctx)
          (_stopDroidAccountScheduling aid statusCode "缺少可用 API Key" w)
    end
  else
    _clearAccountStickyMapping ep (sessionHash ctx) (clientApiKeyId ctx)
      (_stopDroidAccountScheduling aid statusCode "凭证认证失败" w).

Definition _handleUpstreamClientError (statusCode : Z) (ctx : context) (w : world)
    : world :=
  if (statusCode =? 0) || (statusCode <? 400) || (500 <=? statusCode) then w
  else
    match _extractAccountId (account ctx) with
    | None => w
    | Some accountId =>
        let aid := Some accountId in
        let ep := Some (normalized_endpoint ctx) in
        let clear_both (w : world) :=
          _clearAccountStickyMapping ep (sessionHash ctx) (clientApiKeyId ctx)
            (_clearApiKeyStickyMapping aid ep (sessionHash ctx) w) in
        if statusCode =? 400 then clear_both w
        else if statusCode =? 429 then
          clear_both (setex ("droid:ratelimit:" +:+ accountId) 300 w)
        else if statusCode =? 404 then clear_both w
        else if (statusCode =? 401) || (statusCode =? 403) then
          on_auth_error statusCode ctx accountId w
        else clear_both w
    end.

(** Out of scheduling: what [_stopDroidAccountScheduling] leaves in the
    account. *)
Definition stopped (a : account_data) : Prop :=
  schedulable a = "false" ∧ status a = "error".

(** The two sticky mappings of a session: to the account, and to a key of
    the pool of the account. *)
Definition account_mapping (ctx : context) (sessionHash : string) : string :=
  account_sticky_key (Some (normalized_endpoint ctx)) sessionHash (clientApiKeyId ctx).

Definition key_mapping (ctx : context) (accountId sessionHash : string) : string :=
  API_KEY_STICKY_PREFIX +:+ ":" +:+ accountId +:+ ":"
  +:+ _normalizeEndpointType (Some (normalized_endpoint ctx))
  +:+ ":" +:+ sessionHash.

Definition pool_mode (ctx : context) : bool :=
  String.eqb (auth_method ctx) "api_key".

(** The entry of a key after it was marked. *)
Definition marked (keyId errorMessage : string) (e : api_key_entry) : api_key_entry :=
  if String.eqb (entry_id e) keyId
  then {| entry_id := entry_id e; entry_status := "error"; entry_error := errorMessage |}
  else e.

Definition all_in_error (entries : list api_key_entry) : bool :=
  forallb (fun e => String.eqb (entry_status e) "error") entries.

(** A pool account in three situations: two of its three keys already in
    error, and both of its two keys active; a session bound to the account
    and to the key that is used. *)
Definition pool_account : droid_account :=
  {| id := Some "droid-1"; accountId := None; account_id := None; name := "pool";
     authenticationMethod := Some "api_key";
     account_endpointType := Some "anthropic" |}.

Definition pool_context (keyId : string) : context :=
  {| account := Some pool_account; selectedAccountApiKey := Some keyId;
     endpointType := Some "anthropic"; sessionHash := Some "5d41402abc4b2a76";
     clientApiKeyId := Some "client-7" |}.

Definition key_entry (i s : string) : api_key_entry :=
  {| entry_id := i; entry_status := s; entry_error := "" |}.

Definition pool_world (entries : list api_key_entry) (keyId : string) : world :=
  {| accounts := {[ "droid-1" := {| schedulable := "true"; status := "active";
                                    errorMessage := "" |} ]};
     apiKeys := {[ "droid-1" := entries ]};
     sticky := {[ "droid:anthropic:client-7:5d41402abc4b2a76" := "droid-1";
                  "droid_api_key:droid-1:anthropic:5d41402abc4b2a76" := keyId ]};
     rateLimits := ∅ |}.

Definition last_key_world : world :=
  pool_world [ key_entry "k1" "error"; key_entry "k2" "error";
               key_entry "k3" "active" ] "k3".

Definition spare_key_world : world :=
  pool_world [ key_entry "k1" "active"; key_entry "k2" "active" ] "k1".

End Health.

(** ** The body of a network error (droidRelayService.js, [_buildNetworkErrorBody]) *)

Module NetworkErrorBody.
Import JsString Js NetworkError.

(** What the [switch] over the error code and the tests of the message
    settle: the type of the error, the message for the client and the
    suggestions. *)
Record diagnosis := {
  errorType : string;
  friendlyMessage : string;
  suggestions : list string
}.

(** The values the three variables start with. *)
Definition undiagnosed : diagnosis :=
  {| errorType := "network_error"; friendlyMessage := "网络连接失败";
     suggestions := [] |}.

(** [error?.message]: the message of an error that is an object. *)
Definition message_of (error : jserror) : option string :=
  match error with
  | ErrObject _ m => m
  | ErrPrimitive => None
  end.

(** [error?.code] *)
Definition code_of (error : jserror) : option string :=
  match error with
  | ErrObject c _ => c
  | ErrPrimitive => None
  end.

(** A string that is there and not empty: what [if (s)] and [s || d] test. *)
Definition nonempty (s : option string) : option string :=
  match s with
  | Some t => if String.eqb t "" then None else Some t
  | None => None
  end.

(** The [default] case of the [switch]. *)
Definition diagnose_message (error : jserror) : diagnosis :=
  match nonempty (message_of error) with
  | None => undiagnosed
  | Some m =>
      let message := toLowerCase m in
      if includes message "timeout" then
        if includes message "gateway" || includes message "upstream" then
          {| errorType := "timeout"; friendlyMessage := "网关超时";
             suggestions := [ "上游服务响应超时"; "请稍后重试";
                              "如果问题持续，请联系管理员" ] |}
        else
          {| errorType := "timeout"; friendlyMessage := "请求超时";
             suggestions := [ "请稍后重试"; "检查网络连接是否稳定" ] |}
      else if includes message "certificate" || includes message "ssl" then
        {| errorType := "certificate_error"; friendlyMessage := "SSL 证书验证失败";
           suggestions := [ "证书可能已过期或无效"; "检查系统时间是否正确" ] |}
      else if includes message "proxy" then
        {| errorType := "proxy_error"; friendlyMessage := "代理连接失败";
           suggestions := [ "检查代理配置是否正确"; "确认代理服务器是否可用";
                            "尝试更换代理或直连" ] |}
      else if includes message "dependency" || includes message "upstream failed" then
        {| errorType := "dependency_failed"; friendlyMessage := "依赖服务失败";
           suggestions := [ "上游服务返回错误"; "请稍后重试";
                            "联系管理员检查服务状态" ] |}
      else undiagnosed
  end.

(** The [switch (code)] of [_buildNetworkErrorBody]. *)
Definition diagnose (error : jserror) : diagnosis :=
  let code := error_code error in
  if String.eqb code "ECONNABORTED" || String.eqb code "ETIMEDOUT" then
    {| errorType := "timeout"; friendlyMessage := "请求超时";
       suggestions := [ "请稍后重试"; "检查网络连接是否稳定";
                        "如果问题持续，请联系管理员" ] |}
  else if String.eqb code "ECONNRESET" then
    {| errorType := "connection_reset"; friendlyMessage := "连接被重置";
       suggestions := [ "服务可能暂时不可用"; "请稍后重试"; "检查代理配置是否正确" ] |}
  else if String.eqb code "ENOTFOUND" || String.eqb code "EAI_AGAIN" then
    {| errorType := "dns_error"; friendlyMessage := "DNS 解析失败";
       suggestions := [ "请检查网络连接"; "如果使用代理，请确认代理配置正确";
                        "尝试更换 DNS 服务器" ] |}
  else if String.eqb code "ECONNREFUSED" then
    {| errorType := "connection_refused"; friendlyMessage := "连接被拒绝";
       suggestions := [ "目标服务可能未启动"; "检查防火墙设置";
                        "确认代理配置是否正确" ] |}
  else if String.eqb code "CERT_HAS_EXPIRED"
          || String.eqb code "UNABLE_TO_VERIFY_LEAF_SIGNATURE" then
    {| errorType := "certificate_error"; friendlyMessage := "SSL 证书验证失败";
       suggestions := [ "证书可能已过期"; "检查系统时间是否正确"; "联系管理员更新证书" ] |}
  else if String.eqb code "EPIPE" then
    {| errorType := "broken_pipe"; friendlyMessage := "管道断开";
       suggestions := [ "连接已中断"; "请重新发起请求" ] |}
  else if String.eqb code "ENETUNREACH" || String.eqb code "EHOSTUNREACH" then
    {| errorType := "network_unreachable"; friendlyMessage := "网络不可达";
       suggestions := [ "检查网络连接"; "确认目标服务器地址正确";
                        "检查代理或 VPN 设置" ] |}
  else diagnose_message error.

(** [_buildNetworkErrorBody]; [url] is [error?.config?.url]. The body is
    the object that is sent to the client as JSON. *)
Definition _buildNetworkErrorBody (error : jserror) (url : option string) : object :=
  let d := diagnose error in
  let body :=
    [ ("error", VStr (errorType d));
      ("message", VStr (friendlyMessage d));
      ("details", VStr (default "未知错误" (nonempty (message_of error)))) ] in
  let body :=
    if (0 <? length (suggestions d))%nat
    then obj_set "suggestions" (VArr (VStr <$> suggestions d)) body
    else body in
  let body :=
    match nonempty (code_of error) with
    | Some c => obj_set "code" (VStr c) body
    | None => body
    end in
  match nonempty url with
  | Some u => obj_set "upstream" (VStr u) body
  | None => body
  end.

(** The answer of [relayRequest] to a request that failed without a
    response of the upstream: the status and the body. *)
Definition network_error_response (error : jserror) (url : option string)
    : Z * object :=
  (_mapNetworkErrorStatus error, _buildNetworkErrorBody error url).

End NetworkErrorBody.

(** ** Model names (droidRelayService.js, [_normalizeRequestBody]) *)

Module Models.
Import JsString Js.

(** [this.supportedModels[endpointType] || []], for the endpoint types
    that the relay passes, the two that [_normalizeEndpointType] returns. *)
Definition supportedModels (endpointType : string) : list string :=
  if String.eqb endpointType "anthropic" then
    [ "claude-opus-4-1-20250805"; "claude-sonnet-4-5-20250929";
      "claude-haiku-4-5-20251001"; "claude-sonnet-4-20250514";
      "claude-opus-4-20250514"; "claude-3-5-haiku-20241022" ]
  else if String.eqb endpointType "openai" then
    [ "gpt-5-2025-08-07"; "gpt-4o"; "gpt-4o-mini"; "gpt-4-turbo"; "gpt-4" ]
  else [].

(** [this.modelMappings[endpointType] || {}], for the same endpoint types:
    the own properties of the table, in the order [Object.entries] lists
    them. *)
Definition modelMappings (endpointType : string) : list (string * string) :=
  if String.eqb endpointType "anthropic" then
    [ ("claude-3-5-haiku", "claude-3-5-haiku-20241022");
      ("haiku", "claude-3-5-haiku-20241022");
      ("sonnet", "claude-sonnet-4-5-20250929");
      ("claude-sonnet-4", "claude-sonnet-4-5-20250929");
      ("opus", "claude-opus-4-1-20250805");
      ("claude-opus-4", "claude-opus-4-1-20250805") ]
  else if String.eqb endpointType "openai" then
    [ ("gpt-5", "gpt-5-2025-08-07");
      ("gpt-4o-latest", "gpt-4o");
      ("gpt-4-turbo-preview", "gpt-4-turbo") ]
  else [].

(** The properties every object inherits: [mappings[name]] finds them when
    the table has no entry of that name. All of them are truthy, and none
    is a string. *)
Definition inherited_properties : list string :=
  [ "constructor"; "__defineGetter__"; "__defineSetter__"; "hasOwnProperty";
    "__lookupGetter__"; "__lookupSetter__"; "isPrototypeOf";
    "propertyIsEnumerable"; "toString"; "valueOf"; "__proto__";
    "toLocaleString" ].

(** [s.trim()], for the white space of ASCII *)
Definition trim (s : string) : string := Health.trim s.

(** [_validateModel] of a model name that is a string: [None] when the
    model is valid, the error message otherwise. *)
Definition _validateModel (model : string) (endpointType : string) : option string :=
  if String.eqb model "" then Some "Model name is required"
  else if existsb (String.eqb model) (supportedModels endpointType) then None
  else Some ("Model '" +:+ model +:+ "' is not supported by Factory.ai "
             +:+ endpointType +:+ " endpoint").

Definition valid (model : string) (endpointType : string) : bool :=
  match _validateModel model endpointType with None => true | Some _ => false end.

(** What [_tryMapModel] returns: a model of the table, a property that the
    table inherits, or [null]. *)
Inductive mapping :=
| Target (model : string)
| Inherited
| NoMapping.

(** The own property [name] of the table *)
Definition own_mapping (name : string) (mappings : list (string * string))
    : option string :=
  snd <$> List.find (fun entry => String.eqb (fst entry) name) mappings.

Definition _tryMapModel (model : string) (endpointType : string) : mapping :=
  if String.eqb model "" then NoMapping
  else
    let mappings := modelMappings endpointType in
    let lowerModel := trim (toLowerCase model) in
    match own_mapping lowerModel mappings with
    | Some targetModel => Target targetModel
    | None =>
        if existsb (String.eqb lowerModel) inherited_properties then Inherited
        else
          match List.find (fun entry => includes lowerModel (fst entry)) mappings with
          | Some (_, targetModel) => Target targetModel
          | None => NoMapping
          end
    end.

(** [_normalizeRequestBody] of a body that is an object. *)
Definition _normalizeRequestBody (requestBody : object) (endpointType : string)
    : object :=
  match obj_get "model" requestBody with
  | VStr model =>
      let originalModel := trim model in
      if valid originalModel endpointType then requestBody
      else
        match _tryMapModel originalModel endpointType with
        | Target mappedModel =>
            if valid mappedModel endpointType
            then obj_set "model" (VStr mappedModel) requestBody
            else requestBody
        | Inherited | NoMapping => requestBody
        end
  | _ => requestBody
  end.


(** The first of the families [haiku], [sonnet] and [opus] that a name
    mentions, with the model the Anthropic table gives the family. *)
Definition anthropic_family (lowerModel : string) : option string :=
  if includes lowerModel "haiku" then Some "claude-3-5-haiku-20241022"
  else if includes lowerModel "sonnet" then Some "claude-sonnet-4-5-20250929"
  else if includes lowerModel "opus" then Some "claude-opus-4-1-20250805"
  else None.

End Models.

(** ** The choice of a key of a pool (droidRelayService.js, [_selectApiKey]) *)

Module KeySelection.
Import JsString Health.
Local Open Scope Q_scope.

(** What the choice of a key can change besides the world of the 4xx
    handler: the renewals of sticky mappings and the uses of keys that were
    recorded, oldest first. *)
Record key_store := {
  base : world;
  renewals : list string;
  touches : list (string * string)
}.

Definition with_base (s : key_store) (w : world) : key_store :=
  {| base := w; renewals := renewals s; touches := touches s |}.

(** Modelled from the spec: [redis.getSessionAccountMapping] is not part of
    the sources at hand. It reads the target of a StickySessionMapping. *)
Definition getSessionAccountMapping (stickyKey : string) (s : key_store)
    : option string :=
  sticky (base s) !! stickyKey.

(** Modelled from the spec: [redis.setSessionAccountMapping] is not part of
    the sources at hand. It binds the fingerprint to the chosen target. *)
Definition setSessionAccountMapping (stickyKey target : string) (s : key_store)
    : key_store :=
  with_base s
    {| accounts := accounts (base s); apiKeys := apiKeys (base s);
       sticky := <[stickyKey := target]> (sticky (base s));
       rateLimits := rateLimits (base s) |}.

(** Modelled from the spec: [redis.extendSessionAccountMappingTTL] is not
    part of the sources at hand. A mapping is TTL-renewed on reuse; its
    target stays. *)
Definition extendSessionAccountMappingTTL (stickyKey : string) (s : key_store)
    : key_store :=
  {| base := base s; renewals := renewals s ++ [stickyKey]; touches := touches s |}.

(** Modelled from the spec: [droidAccountService.touchApiKeyUsage] is not
    part of the sources at hand. It records a use of the key (usageCount,
    lastUsedAt of the ApiKeyEntry); the status of the key stays. *)
Definition touchApiKeyUsage (accountId keyId : string) (s : key_store) : key_store :=
  {| base := base s; renewals := renewals s;
     touches := touches s ++ [(accountId, keyId)] |}.

(** How [_selectApiKey] ends: with an entry, or with one of its three
    errors. *)
Inductive selection :=
| Selected (entry : api_key_entry)
| NoKeysConfigured
| NoActiveKeys
| NoKeySelected.

(** [activeEntries[Math.floor(random * activeEntries.length)]] *)
Definition pick (random : Q) (activeEntries : list api_key_entry)
    : option api_key_entry :=
  let index := Qfloor (random * inject_Z (Z.of_nat (length activeEntries))) in
  if (index <? 0)%Z then None else activeEntries !! Z.to_nat index.

(** [_selectApiKey]; [accountId] is [account.id], a string, and [random]
    the value that [Math.random()] returns. *)
Definition _selectApiKey (random : Q) (accountId : string)
    (endpointType sessionHash : option string) (s : key_store)
    : key_store * selection :=
  let entries := getDecryptedApiKeyEntries accountId (base s) in
  if (length entries =? 0)%nat then (s, NoKeysConfigured)
  else
    let activeEntries :=
      List.filter (fun entry => negb (String.eqb (entry_status entry) "error"))
        entries in
    if (length activeEntries =? 0)%nat then (s, NoActiveKeys)
    else
      let stickyKey :=
        _composeApiKeyStickyKey (Some accountId) endpointType sessionHash in
      let pick_one (s : key_store) :=
        match pick random activeEntries with
        | None => (s, NoKeySelected)
        | Some selectedEntry =>
            let s := match stickyKey with
                     | Some k => setSessionAccountMapping k (entry_id selectedEntry) s
                     | None => s
                     end in
            (touchApiKeyUsage accountId (entry_id selectedEntry) s,
             Selected selectedEntry)
        end in
      match stickyKey with
      | Some k =>
          match truthy_string (getSessionAccountMapping k s) with
          | Some mappedKeyId =>
              match List.find (fun entry => String.eqb (entry_id entry) mappedKeyId)
                      activeEntries with
              | Some mappedEntry =>
                  (touchApiKeyUsage accountId (entry_id mappedEntry)
                     (extendSessionAccountMappingTTL k s),
                   Selected mappedEntry)
              | None =>
                  pick_one (with_base s (deleteSessionAccountMapping k (base s)))
              end
          | None => pick_one s
          end
      | None => pick_one s
      end.

(** The entries of the pool of an account that can be chosen. *)
Definition active_entries (accountId : string) (w : world) : list api_key_entry :=
  List.filter (fun entry => negb (String.eqb (entry_status entry) "error"))
    (getDecryptedApiKeyEntries accountId w).

(** A pool of two keys, one of them in error, and a session. *)
Definition two_key_store : key_store :=
  {| base := pool_world [ key_entry "k1" "error"; key_entry "k2" "active" ] "k1";
     renewals := []; touches := [] |}.

End KeySelection.

(** ** Usage of an OpenAI stream (droidRelayService.js, [_parseOpenAIUsageFromSSE]) *)

Module OpenAIUsage.
Import Js JsString Usage.

Section Stream.

(** [JSON.parse]; [None] when it throws. *)
Variable JSON_parse : string -> option jsval.

(** The body of the loop of [_parseOpenAIUsageFromSSE] for one line. The
    line [data: [DONE]] is skipped; a payload that does not parse, or that
    parses to [null] (on which [data.usage] throws), leaves the usage data
    as it is. *)
Definition parse_line (currentUsageData : object) (line : string) : object :=
  if startsWith line "data: " && (6 <? String.length line)%nat then
    let jsonStr := slice 6 line in
    if String.eqb jsonStr "[DONE]" then currentUsageData
    else
      match JSON_parse jsonStr with
      | None | Some VNull | Some VUndefined => currentUsageData
      | Some data =>
          let cur :=
            if truthy (get data "usage") then
              let usage := get data "usage" in
              let cur := obj_set "input_tokens"
                           (or_else (get usage "prompt_tokens") zero)
                           currentUsageData in
              let cur := obj_set "output_tokens"
                           (or_else (get usage "completion_tokens") zero) cur in
              obj_set "total_tokens" (or_else (get usage "total_tokens") zero) cur
            else currentUsageData in
          if truthy (get data "response")
             && truthy (get (get data "response") "usage")
          then
            let usage := get (get data "response") "usage" in
            let cur := obj_set "input_tokens"
                         (or_else (get usage "input_tokens")
                            (or_else (get usage "prompt_tokens")
                               (or_else (get usage "total_tokens") zero)))
                         cur in
            let cur := obj_set "output_tokens"
                         (or_else (get usage "output_tokens")
                            (or_else (get usage "completion_tokens") zero))
                         cur in
            obj_set "total_tokens" (or_else (get usage "total_tokens") zero) cur
          else cur
      end
  else currentUsageData.

Definition _parseOpenAIUsageFromSSE (chunkStr buffer : string)
    (currentUsageData : object) : object :=
  fold_left parse_line (split_lines (buffer +:+ chunkStr)) currentUsageData.

(** The ['data'] handler of a streamed response on the OpenAI endpoint. *)
Definition on_data (st : stream_state) (chunkStr : string) : stream_state :=
  {| buffer := buffer st +:+ chunkStr;
     currentUsageData :=
       _parseOpenAIUsageFromSSE chunkStr (buffer st) (currentUsageData st) |}.

(** The usage data at the ['end'] event, after the chunks have arrived. *)
Definition stream_usage (chunks : list string) : object :=
  currentUsageData (fold_left on_data chunks stream_start).

(** *** The parser as a sequence of assignments *)

Definition completion_assignments (data : jsval) : object :=
  if truthy (get data "usage") then
    let usage := get data "usage" in
    [ ("input_tokens", or_else (get usage "prompt_tokens") zero);
      ("output_tokens", or_else (get usage "completion_tokens") zero);
      ("total_tokens", or_else (get usage "total_tokens") zero) ]
  else [].

Definition response_assignments (data : jsval) : object :=
  if truthy (get data "response") && truthy (get (get data "response") "usage")
  then
    let usage := get (get data "response") "usage" in
    [ ("input_tokens",
        or_else (get usage "input_tokens")
          (or_else (get usage "prompt_tokens")
             (or_else (get usage "total_tokens") zero)));
      ("output_tokens",
        or_else (get usage "output_tokens")
          (or_else (get usage "completion_tokens") zero));
      ("total_tokens", or_else (get usage "total_tokens") zero) ]
  else [].

Definition line_assignments (line : string) : object :=
  if startsWith line "data: " && (6 <? String.length line)%nat then
    if String.eqb (slice 6 line) "[DONE]" then []
    else
      match JSON_parse (slice 6 line) with
      | None | Some VNull | Some VUndefined => []
      | Some data => completion_assignments data ++ response_assignments data
      end
  else [].

End Stream.

(** A stream of the Responses API in the table parser of the fixtures:
    one event that carries no usage, the event that completes the response
    with its usage, and the terminator. *)
Definition response_completed : jsval :=
  VObj [ ("type", VStr "response.completed");
         ("response",
           VObj [ ("usage", VObj [ ("input_tokens", num 25);
                                   ("output_tokens", num 42);
                                   ("total_tokens", num 67) ]) ]) ].

Definition response_delta : jsval :=
  VObj [ ("type", VStr "response.output_text.delta"); ("delta", VStr "Hi") ].

Definition openai_events : list jsval := [ response_delta; response_completed ].

Definition openai_text : string :=
  Fixture.sse_record "response.output_text.delta" response_delta
  +:+ Fixture.sse_record "response.completed" response_completed
  +:+ "data: [DONE]" +:+ String LF (String LF "").

(** The same text in three chunks, cut inside the two payloads. *)
Definition openai_chunks : list string :=
  [ String.substring 0 50 openai_text;
    String.substring 50 130 openai_text;
    String.substring 180 (String.length openai_text - 180) openai_text ].

End OpenAIUsage.

(** ** The end of a stream (droidRelayService.js, [_detectStreamCompletion]) *)

Module Completion.
Import JsString.

(** [s.slice(-n)]: the last [n] characters of [s], all of [s] when it has
    fewer. *)
Definition slice_last (n : nat) (s : string) : string :=
  slice (String.length s - n) s.

(** [s.replace(/\s+/g, '')], for the white space of ASCII *)
Fixpoint remove_spaces (s : string) : string :=
  match s with
  | EmptyString => EmptyString
  | String c s' =>
      if Selector.is_space c then remove_spaces s' else String c (remove_spaces s')
  end.

(** The text ["name":"value"] *)
Definition json_pair (name value : string) : string :=
  Fixture.quoted name +:+ ":" +:+ Fixture.quoted value.

Definition _detectStreamCompletion (windowStr : string) (endpointType : string)
    : bool :=
  if String.eqb windowStr "" then false
  else
    let lower := toLowerCase windowStr in
    let compact := remove_spaces lower in
    if String.eqb endpointType "anthropic" then
      includes lower "event: message_stop"
      || includes compact (json_pair "type" "message_stop")
    else if String.eqb endpointType "openai" then
      includes lower "data: [done]"
      || includes compact (Fixture.quoted "finish_reason")
      || (includes lower "event: response.done"
          || includes lower "event: response.completed")
      || (includes compact (json_pair "type" "response.done")
          || includes compact (json_pair "type" "response.completed"))
    else false.

(** What the ['data'] handler of a stream keeps for the detection: the
    last 1024 characters it has seen, and whether the end was seen. *)
Record completion := {
  completionWindow : string;
  responseCompleted : bool
}.

Definition stream_opened : completion :=
  {| completionWindow := ""; responseCompleted := false |}.

(** The part of the handler that looks for the end of the stream. *)
Definition on_chunk (endpointType : string) (st : completion) (chunkStr : string)
    : completion :=
  let window := slice_last 1024 (completionWindow st +:+ chunkStr) in
  {| completionWindow := window;
     responseCompleted :=
       responseCompleted st || _detectStreamCompletion window endpointType |}.

Definition after_chunks (endpointType : string) (chunks : list string) : completion :=
  fold_left (on_chunk endpointType) chunks stream_opened.

(** The end of the Anthropic fixture, cut inside the name of the event. *)
Definition stop_chunks : list string :=
  [ "event: content_block_stop" +:+ String LF "data: {}" +:+ String LF
      (String LF "event: mess");
    "age_stop" +:+ String LF "data: {}" +:+ String LF (String LF "") ].

End Completion.

(** ** The lock service over time (distributedLockService.js) *)

Module LockService.
Import Lock.

(** A process that uses the service: the store and the bookkeeping of the
    service, the number of commands the process has sent to the store, and
    the number of tokens it has drawn. *)
Record timed := {
  service : state;
  tick : nat;
  draws : nat
}.

Section Clock.

(** The time, in milliseconds, at which the [n]-th command of the process
    reaches the store, which is also what [Date.now()] gives around it; and
    the [n]-th value of [crypto.randomBytes(16).toString('hex')]. *)
Variable clock : nat → Z.
Variable random : nat → string.

Definition now (t : timed) : Z := clock (tick t).

(** The process after a command that left the service in [st]. *)
Definition tock (t : timed) (st : state) : timed :=
  {| service := st; tick := S (tick t); draws := draws t |}.

(** The loop of [acquireLock]: one [SET] per iteration, each at the time
    the clock gives it, until the call returns or throws. *)
Fixpoint attempts (fuel : nat) (t : timed) (c : call) : timed * call :=
  match fuel with
  | O => (t, c)
  | S fuel' =>
      match call_phase c with
      | Attempt _ =>
          let '(st, c') := attempt (now t) (service t) c in
          attempts fuel' (tock t st) c'
      | _ => (t, c)
      end
  end.

(** How a call of [acquireLock] ends. *)
Inductive acquired :=
| Got (l : lock)
| Null
| Raised.

Definition outcome (c : call) : acquired :=
  match call_phase c with
  | Acquired l => Got l
  | Threw => Raised
  | _ => Null
  end.

(** [acquireLock(resource, options)] *)
Definition acquireLock (t : timed) (resource : string) (o : options)
    : timed * call :=
  let c := start_call resource o (random (draws t)) in
  attempts (S (r_retries (call_options c)))
    {| service := service t; tick := tick t; draws := S (draws t) |} c.

(** [releaseLock(lock)]: a lock without key or value sends no command. *)
Definition releaseLock (t : timed) (l : lock) : timed * bool :=
  if String.eqb (key l) "" || String.eqb (value l) "" then (t, false)
  else
    let '(st, released) := Lock.releaseLock (now t) (service t) (Some l) in
    (tock t st, released).

(** [extendLock(lock, ttl)] *)
Definition extendLock (t : timed) (l : lock) (ttl : option Z)
    : timed * option lock * bool :=
  if String.eqb (key l) "" || String.eqb (value l) "" then (t, Some l, false)
  else
    let '(st, l', extended) := Lock.extendLock (now t) (service t) (Some l) ttl in
    (tock t st, l', extended).

(** [isLocked(resource)]: [EXISTS key] answers 1 for a key that is there
    and has not expired. *)
Definition isLocked (t : timed) (resource : string) : timed * bool :=
  (tock t (service t),
   bool_decide (is_Some (live (now t) (redis (service t)) (lockPrefix +:+ resource)))).

(** [getLockTTL(resource)]: [PTTL key] answers the time the key has left,
    and -2 for a key that is not there. Every key of the service has a time
    to live. *)
Definition getLockTTL (t : timed) (resource : string) : timed * Z :=
  (tock t (service t),
   match live (now t) (redis (service t)) (lockPrefix +:+ resource) with
   | Some e => expires e - now t
   | None => -2
   end).

(** [releaseMultipleLocks(locks)] *)
Fixpoint releaseMultipleLocks (t : timed) (locks : list lock) : timed * nat :=
  match locks with
  | [] => (t, O)
  | l :: locks' =>
      let '(t1, released) := releaseLock t l in
      let '(t2, n) := releaseMultipleLocks t1 locks' in
      (t2, if released then S n else n)
  end.

(** How a call of [acquireMultipleLocks] ends: with the array it returns,
    or with the error of an [acquireLock] that threw. *)
Inductive acquired_all :=
| Locks (locks : list lock)
| RaisedAll.

(** The loop of [acquireMultipleLocks] over the resources, [locks] being
    the locks it has got so far. The loop that releases them when a lock
    is not got is the loop of [releaseMultipleLocks], without the count. *)
Fixpoint acquire_each (t : timed) (resources : list string) (o : options)
    (locks : list lock) : timed * acquired_all :=
  match resources with
  | [] => (t, Locks locks)
  | resource :: resources' =>
      let '(t1, c) := acquireLock t resource o in
      match outcome c with
      | Got l => acquire_each t1 resources' o (locks ++ [l])
      | Null => (fst (releaseMultipleLocks t1 locks), Locks [])
      | Raised => (t1, RaisedAll)
      end
  end.

Definition acquireMultipleLocks (t : timed) (resources : list string) (o : options)
    : timed * acquired_all :=
  acquire_each t resources o [].

(** [releaseAllLocks()], with the number of releases that it logs. [locks]
    is [Array.from(this.activeLocks.values())], the records of the service
    in the order in which they were put in. *)
Definition releaseAllLocks (t : timed) (locks : list lock) : timed * nat :=
  let '(t1, released) := releaseMultipleLocks t locks in
  ({| service := {| redis := redis (service t1); activeLocks := ∅ |};
      tick := tick t1; draws := draws t1 |},
   released).

End Clock.

(** [cleanupExpiredLocks()] at the time [now] that [Date.now()] gives: it
    sends no command. *)
Definition cleanupExpiredLocks (now : Z) (st : state) : state :=
  {| redis := redis st;
     activeLocks := filter (fun entry => ¬ (expiresAt entry.2 < now)) (activeLocks st) |}.

(** The lock object that [acquireLock] builds when its [SET] at time [now]
    is answered [OK], and the entry that the [SET] leaves in the store. *)
Definition lock_taken (now : Z) (resource : string) (o : resolved) : lock :=
  {| resource := resource; key := lockPrefix +:+ resource; value := r_value o;
     ttl := r_ttl o; acquiredAt := now; expiresAt := now + r_ttl o |}.

Definition lease (now : Z) (o : resolved) : entry :=
  {| stored := r_value o; expires := now + r_ttl o |}.

(** The service after [acquireLock] got the lock at time [now]. *)
Definition taken (now : Z) (resource : string) (o : resolved) (st : state) : state :=
  {| redis := <[lockPrefix +:+ resource := lease now o]> (redis st);
     activeLocks := <[resource := lock_taken now resource o]> (activeLocks st) |}.

(** The key of a resource is held at a time. *)
Definition busy (now : Z) (st : state) (resource : string) : Prop :=
  is_Some (live now (redis st) (lockPrefix +:+ resource)).

(** Every key of the store [db] is a key of [db0] with the entry it has
    there, or the key of one of the locks with the token of that lock. *)
Definition left_by (db0 db : gmap string entry) (locks : list lock) : Prop :=
  ∀ k e, db !! k = Some e →
         db0 !! k = Some e
         ∨ ∃ l, l ∈ locks ∧ key l = k ∧ value l = stored e
                ∧ key l ≠ "" ∧ value l ≠ "".

(** The records of the service, in the order of the keys. *)
Definition records (st : state) : list lock := (map_to_list (activeLocks st)).*2.

(** The process at its command [n], the service being as it is. *)
Definition at_command (n : nat) (t : timed) : timed :=
  {| service := service t; tick := n; draws := draws t |}.

(** The sum of the delays of a call that gave up. *)
Definition total_delay (delays : list Z) : Z := fold_right Z.add 0 delays.

(** A clock that never goes back. *)
Definition monotone (clock : nat → Z) : Prop := ∀ m n, (m <= n)%nat → clock m <= clock n.

(** A process that starts with an empty store at command 0. *)
Definition fresh : timed :=
  {| service := {| redis := ∅; activeLocks := ∅ |}; tick := 0; draws := 0 |}.

(** A clock that gives one command per millisecond, and tokens that are
    the number of the draw. *)
Definition steady (n : nat) : Z := Z.of_nat n.
Definition numbered (n : nat) : string := "token-" +:+ pretty n.

(** The default options *)
Definition no_options : options :=
  {| opt_ttl := None; opt_retries := None; opt_retryDelay := None; opt_value := None |}.

End LockService.

(** ** Identifiers (droidRelayService.js, [_generateUUID]) *)

Module Uuid.

(** [x | 0] of a number: its integer part, wrapped to 32 bits with a sign. *)
Definition to_int32 (x : Q) : Z :=
  let z := Z.quot (Qnum x) (Zpos (Qden x)) in
  (z + 2 ^ 31) mod 2 ^ 32 - 2 ^ 31.

Definition hex_chars : list ascii := list_ascii_of_string "0123456789abcdef".

Definition hex_digit (d : Z) : ascii := nth (Z.to_nat d) hex_chars "0"%char.

(** The digits of a positive number in base 16, before [acc]; an integer of
    32 bits has at most 8 of them. *)
Fixpoint hex_digits (fuel : nat) (n : Z) (acc : string) : string :=
  match fuel with
  | O => acc
  | S fuel' =>
      let acc' := String (hex_digit (n mod 16)) acc in
      if n / 16 =? 0 then acc' else hex_digits fuel' (n / 16) acc'
  end.

(** [v.toString(16)] of an integer of 32 bits *)
Definition toString16 (v : Z) : string :=
  if v <? 0 then String "-" (hex_digits 8 (- v) "") else hex_digits 8 v "".

(** The callback of [replace] for the character [c], [random] being what
    [Math.random()] gives it. *)
Definition digit_for (c : ascii) (random : Q) : string :=
  let r := to_int32 (random * 16)%Q in
  let v := if Ascii.eqb c "x" then r else Z.lor (Z.land r 3) 8 in
  toString16 v.

(** [template.replace(/[xy]/g, callback)]: the callback is called for the
    matches from left to right; [random n] is the [n]-th value that
    [Math.random()] gives. *)
Fixpoint replace_xy (template : string) (random : nat → Q) (n : nat) : string :=
  match template with
  | EmptyString => EmptyString
  | String c rest =>
      if Ascii.eqb c "x" || Ascii.eqb c "y"
      then digit_for c (random n) +:+ replace_xy rest random (S n)
      else String c (replace_xy rest random n)
  end.

Definition _generateUUID (random : nat → Q) : string :=
  replace_xy "xxxxxxxx-xxxx-4xxx-yxxx-xxxxxxxxxxxx" random 0.

(** A digit of base 16, in lower case *)
Definition is_hex (c : ascii) : bool := existsb (Ascii.eqb c) hex_chars.

(** Draws that are all one half *)
Definition halves (n : nat) : Q := 1 # 2.

End Uuid.

(** ** Facts about object properties *)

Module JsFacts.
Import Js.

Lemma append_cons c s r : String c s +:+ r = String c (s +:+ r).
Proof. reflexivity. Qed.

Lemma append_nil_l s : "" +:+ s = s.
Proof. reflexivity. Qed.

Lemma append_nil_r s : s +:+ "" = s.
Proof. induction s as [|c s IH]; [reflexivity|]. now rewrite append_cons, IH. Qed.

Lemma append_assoc s t u : (s +:+ t) +:+ u = s +:+ (t +:+ u).
Proof.
  induction s as [|c s IH]; [reflexivity|]. now rewrite !append_cons, IH.
Qed.

Lemma obj_get_set_eq k v o : obj_get k (obj_set k v o) = v.
Proof.
  induction o as [|[k' v'] o IH]; cbn.
  - now rewrite String.eqb_refl.
  - destruct (String.eqb_spec k' k) as [->|Hne]; cbn.
    + now rewrite String.eqb_refl.
    + destruct (String.eqb_spec k' k); [contradiction | exact IH].
Qed.

Lemma obj_get_set_ne k k' v o : k' ≠ k → obj_get k (obj_set k' v o) = obj_get k o.
Proof.
  intros Hne. induction o as [|[k0 v0] o IH]; cbn.
  - destruct (String.eqb_spec k' k); [contradiction | reflexivity].
  - destruct (String.eqb_spec k0 k') as [->|Hne0]; cbn.
    + destruct (String.eqb_spec k' k); [contradiction | reflexivity].
    + destruct (String.eqb_spec k0 k); [reflexivity | exact IH].
Qed.

Lemma obj_get_set k k' v o :
  obj_get k (obj_set k' v o) = if String.eqb k' k then v else obj_get k o.
Proof.
  destruct (String.eqb_spec k' k) as [->|Hne].
  - apply obj_get_set_eq.
  - now apply obj_get_set_ne.
Qed.

Lemma obj_get_if_set (c : bool) k k' v o :
  k' ≠ k → obj_get k (if c then obj_set k' v o else o) = obj_get k o.
Proof. intros Hne. destruct c; [now apply obj_get_set_ne | reflexivity]. Qed.

Lemma obj_has_false_get k o : obj_has k o = false → obj_get k o = VUndefined.
Proof.
  induction o as [|[k' v] o IH]; cbn; [reflexivity|].
  destruct (String.eqb k' k); [discriminate | exact IH].
Qed.

Lemma or_else_zero_not_nullish v : nullish (or_else v zero) = false.
Proof. unfold or_else. destruct (truthy v) eqn:E; [now destruct v | reflexivity]. Qed.

Lemma coalesce_or_zero v w : coalesce (or_else v zero) w = or_else v zero.
Proof. unfold coalesce. now rewrite or_else_zero_not_nullish. Qed.

Lemma falsy_get v k : truthy v = false → opt_get v k = VUndefined.
Proof. now destruct v. Qed.

Lemma truthy_opt_get v k : truthy v = true → opt_get v k = get v k.
Proof. now destruct v. Qed.

Lemma obj_has_set k k' v o :
  obj_has k (obj_set k' v o) = String.eqb k' k || obj_has k o.
Proof.
  induction o as [|[k0 v0] o IH]; cbn.
  - now rewrite orb_false_r.
  - destruct (String.eqb_spec k0 k') as [->|Hne]; cbn.
    + now destruct (String.eqb k' k).
    + rewrite IH. destruct (String.eqb k0 k), (String.eqb k' k); reflexivity.
Qed.

Lemma obj_has_delete k k' o :
  obj_has k (obj_delete k' o) = negb (String.eqb k' k) && obj_has k o.
Proof.
  induction o as [|[k0 v0] o IH]; cbn.
  - now rewrite andb_false_r.
  - destruct (String.eqb_spec k0 k') as [->|Hne]; cbn.
    + rewrite IH. now destruct (String.eqb k' k).
    + rewrite IH. destruct (String.eqb_spec k0 k) as [->|]; cbn; [|reflexivity].
      destruct (String.eqb_spec k' k) as [->|]; [contradiction | reflexivity].
Qed.

Lemma obj_get_delete_eq k o : obj_get k (obj_delete k o) = VUndefined.
Proof.
  induction o as [|[k0 v0] o IH]; cbn; [reflexivity|].
  destruct (String.eqb k0 k) eqn:E; [exact IH|]. cbn. now rewrite E.
Qed.

Lemma obj_get_delete_ne k k' o : k' ≠ k → obj_get k (obj_delete k' o) = obj_get k o.
Proof.
  intros Hne. induction o as [|[k0 v0] o IH]; cbn; [reflexivity|].
  destruct (String.eqb_spec k0 k') as [->|]; cbn.
  - destruct (String.eqb_spec k' k); [contradiction | exact IH].
  - now rewrite IH.
Qed.

Lemma obj_set_same k v o : obj_has k o = true → obj_get k o = v → obj_set k v o = o.
Proof.
  induction o as [|[k0 v0] o IH]; cbn; [discriminate|].
  destruct (String.eqb k0 k); cbn; [now intros _ -> | intros H1 H2; now rewrite IH].
Qed.

Lemma obj_delete_absent k o : obj_has k o = false → obj_delete k o = o.
Proof.
  induction o as [|[k0 v0] o IH]; cbn; [reflexivity|].
  destruct (String.eqb k0 k); cbn; [discriminate | intros H; now rewrite IH].
Qed.

Lemma startsWith_prefix p s : JsString.startsWith (p +:+ s) p = true.
Proof.
  unfold JsString.startsWith. induction p as [|c p IH]; [now destruct s|].
  rewrite append_cons. cbn. now destruct (Ascii.ascii_dec c c).
Qed.

End JsFacts.

(** ** Facts about usage normalisation and recording *)

Module UsageFacts.
Import Js JsString JsFacts Usage.
Local Open Scope Q_scope.

Section Normalize.

Variable StringToNumber : string -> number.
Variable ObjectToNumber : jsval -> number.

Abbreviation Number := (Number StringToNumber ObjectToNumber).
Abbreviation toNumber := (toNumber StringToNumber ObjectToNumber).
Abbreviation _normalizeUsageSnapshot :=
  (_normalizeUsageSnapshot StringToNumber ObjectToNumber).
Abbreviation _getTotalTokens := (_getTotalTokens StringToNumber ObjectToNumber).
Abbreviation _recordUsage := (_recordUsage StringToNumber ObjectToNumber).
Abbreviation folded_cache_create :=
  (folded_cache_create StringToNumber ObjectToNumber).

Lemma toNumber_nonneg v : 0 <= toNumber v.
Proof.
  unfold Usage.toNumber.
  destruct v; try apply Qle_refl;
    (destruct (is_str _ ""); [apply Qle_refl|]);
    (destruct (finite_part _); [apply Q.le_max_l | apply Qle_refl]).
Qed.

Lemma toNumber_unparseable v :
  finite_part (Number v) = None → toNumber v = 0.
Proof.
  intros H. unfold Usage.toNumber.
  destruct v; try reflexivity;
    (destruct (is_str _ ""); [reflexivity|]); now rewrite H.
Qed.

Lemma toNumber_or_zero v : toNumber (or_else v zero) = toNumber v.
Proof.
  unfold or_else.
  destruct v as [| |[|]|[q| |]|s| |]; try reflexivity; cbn [truthy].
  - destruct (Qeq_bool q 0) eqn:E; [|reflexivity]. cbn.
    apply Qeq_bool_iff, Qeq_sym, Qeq_alt in E.
    unfold Qmax, GenericMinMax.gmax. now rewrite E.
  - destruct (String.eqb_spec s "") as [->|]; reflexivity.
Qed.

Lemma toNumber_coalesce v w : toNumber w = 0 → toNumber (coalesce v w) = toNumber v.
Proof. intros H. destruct v; cbn [coalesce nullish]; auto. Qed.

Lemma toNumber_num q : 0 <= q → toNumber (num q) == q.
Proof. intros H. cbn. now apply Q.max_r. Qed.

Lemma normalize_input u :
  obj_get "input_tokens" (_normalizeUsageSnapshot u) = num (toNumber (raw_input u)).
Proof.
  unfold Usage._normalizeUsageSnapshot. cbv zeta.
  now rewrite obj_get_if_set by discriminate.
Qed.

Lemma normalize_output u :
  obj_get "output_tokens" (_normalizeUsageSnapshot u) = num (toNumber (raw_output u)).
Proof.
  unfold Usage._normalizeUsageSnapshot. cbv zeta.
  now rewrite obj_get_if_set by discriminate.
Qed.

Lemma normalize_cache_create u :
  obj_get "cache_creation_input_tokens" (_normalizeUsageSnapshot u)
  = num (folded_cache_create u).
Proof.
  unfold Usage._normalizeUsageSnapshot. cbv zeta.
  now rewrite obj_get_if_set by discriminate.
Qed.

Lemma normalize_cache_read u :
  obj_get "cache_read_input_tokens" (_normalizeUsageSnapshot u)
  = num (toNumber (raw_cache_read u)).
Proof.
  unfold Usage._normalizeUsageSnapshot. cbv zeta.
  now rewrite obj_get_if_set by discriminate.
Qed.

Lemma folded_cache_create_nonneg u : 0 <= folded_cache_create u.
Proof.
  unfold Usage.folded_cache_create.
  destruct (_ && _); [|apply toNumber_nonneg].
  pose proof (toNumber_nonneg (raw_ephemeral_5m u)).
  pose proof (toNumber_nonneg (raw_ephemeral_1h u)). lra.
Qed.

Lemma total_of_normalized u :
  _getTotalTokens (_normalizeUsageSnapshot u)
  == toNumber (raw_input u) + toNumber (raw_output u)
    + folded_cache_create u + toNumber (raw_cache_read u).
Proof.
  unfold Usage._getTotalTokens.
  rewrite normalize_input, normalize_output, normalize_cache_create,
    normalize_cache_read.
  rewrite !toNumber_num;
    auto using toNumber_nonneg, folded_cache_create_nonneg.
  reflexivity.
Qed.

(** The snapshot is a function of the six coerced counts. *)
Lemma normalize_by_counts a b :
  toNumber (raw_input a) = toNumber (raw_input b) →
  toNumber (raw_output a) = toNumber (raw_output b) →
  toNumber (raw_cache_read a) = toNumber (raw_cache_read b) →
  toNumber (raw_cache_create a) = toNumber (raw_cache_create b) →
  toNumber (raw_ephemeral_5m a) = toNumber (raw_ephemeral_5m b) →
  toNumber (raw_ephemeral_1h a) = toNumber (raw_ephemeral_1h b) →
  _normalizeUsageSnapshot a = _normalizeUsageSnapshot b.
Proof.
  unfold raw_input, raw_output, raw_cache_read, raw_cache_create,
    raw_ephemeral_5m, raw_ephemeral_1h, Usage._normalizeUsageSnapshot.
  cbv zeta. intros -> -> -> -> -> ->. reflexivity.
Qed.


Lemma toNumber_zero_count v : count_is_zero v = true → toNumber v == 0.
Proof.
  destruct v as [| | |[q| |]| | |]; try discriminate. cbn. intros H.
  apply Qeq_bool_iff in H. rewrite H. reflexivity.
Qed.

Lemma total_of_empty_snapshot n : empty_snapshot n = true → _getTotalTokens n == 0.
Proof.
  unfold empty_snapshot. cbn [forallb]. rewrite !andb_true_iff.
  intros (Hi & Ho & Hc & Hr & _). unfold Usage._getTotalTokens.
  rewrite (toNumber_zero_count _ Hi), (toNumber_zero_count _ Ho),
    (toNumber_zero_count _ Hc), (toNumber_zero_count _ Hr).
  reflexivity.
Qed.

Lemma record_empty_snapshot s apiKeyData account model n :
  empty_snapshot n = true → _recordUsage s apiKeyData account model n = s.
Proof.
  intros H. unfold Usage._recordUsage.
  replace (Qle_bool (_getTotalTokens n) 0) with true; [reflexivity|].
  symmetry. apply Qle_bool_iff. rewrite (total_of_empty_snapshot _ H).
  apply Qle_refl.
Qed.

(** C10: when the normalised snapshot of a completed request has its four
    token counts equal to zero, recording it changes neither usage sink,
    on the streamed path and on the buffered path alike. *)
Theorem C10_empty_usage_is_not_recorded
    (s : sinks) (apiKeyData account model data : jsval) (usageData : object)
    (skipUsageRecord : bool) :
  empty_snapshot (_normalizeUsageSnapshot usageData) = true →
  empty_snapshot (_normalizeUsageSnapshot (usage_fields data)) = true →
  _recordUsage s apiKeyData account model (_normalizeUsageSnapshot usageData) = s ∧
  fst (_recordUsageFromStreamData StringToNumber ObjectToNumber
         s usageData apiKeyData account model) = s ∧
  fst (_handleNonStreamResponse StringToNumber ObjectToNumber
         s data account apiKeyData model skipUsageRecord) = s.
Proof.
  intros Hs Hb. repeat split.
  - now apply record_empty_snapshot.
  - cbn. now apply record_empty_snapshot.
  - unfold Usage._handleNonStreamResponse. destruct skipUsageRecord; cbn;
      [reflexivity | now apply record_empty_snapshot].
Qed.

End Normalize.

(** A successful response whose usage object is empty, for a caller with
    an API key and an account with an id: nothing is recorded. *)
Lemma C10_empty_usage_witness :
  let N := fun _ : string => NaN in
  let O := fun _ : jsval => NaN in
  let key := VObj [("id", VStr "key-1")] in
  let account := VObj [("id", VStr "droid-1")] in
  let data := VObj [("usage", VObj [])] in
  let s := {| recordUsageWithDetails := [];
              incrementAccountUsage :=
                [ {| au_accountId := VStr "droid-1"; au_totalTokens := 7;
                     au_input := num 3; au_output := num 4;
                     au_cacheCreate := zero; au_cacheRead := zero;
                     au_model := VStr "m" |} ] |} in
  Usage._recordUsage N O s key account (VStr "m")
    (Usage._normalizeUsageSnapshot N O []) = s ∧
  fst (_recordUsageFromStreamData N O s [] key account (VStr "m")) = s ∧
  fst (_handleNonStreamResponse N O s data account key (VStr "m") false) = s.
Proof.
  cbv zeta.
  apply (C10_empty_usage_is_not_recorded (fun _ => NaN) (fun _ => NaN));
    vm_compute; reflexivity.
Defined.

End UsageFacts.

(** ** Facts about the SSE usage parser *)

Module StreamFacts.
Import Js JsString JsFacts Usage UsageFacts.
Local Open Scope Q_scope.

(** *** Lines of a text and of its extensions *)

Lemma split_lines_cons s : ∃ h t, split_lines s = h :: t.
Proof.
  induction s as [|c s (h & t & IH)]; cbn; [eauto|].
  destruct (Ascii.eqb c LF); [eauto|]. rewrite IH. eauto.
Qed.

(** Appending text leaves all lines but the last as they are and extends
    the last one. *)
Lemma split_lines_app a b :
  ∃ init p q rest,
    split_lines a = init ++ [p] ∧ split_lines b = q :: rest ∧
    split_lines (a +:+ b) = init ++ (p +:+ q) :: rest.
Proof.
  induction a as [|c a (init & p & q & rest & Ha & Hb & Hab)]; cbn.
  - destruct (split_lines_cons b) as (q & rest & Hb).
    exists [], "", q, rest. now rewrite Hb.
  - rewrite append_cons. cbn [split_lines].
    destruct (Ascii.eqb c LF).
    + exists ("" :: init), p, q, rest. now rewrite Ha, Hab.
    + rewrite Ha, Hab. destruct init as [|h init]; cbn.
      * exists [], (String c p), q, rest. auto.
      * exists (String c h :: init), p, q, rest. auto.
Qed.

Lemma split_lines_extend a b l :
  l ∈ split_lines a → ∃ r, (l +:+ r) ∈ split_lines (a +:+ b).
Proof.
  destruct (split_lines_app a b) as (init & p & q & rest & -> & _ & ->).
  rewrite elem_of_app, list_elem_of_singleton. intros [Hin | ->].
  - exists "". rewrite elem_of_app. left.
    now rewrite append_nil_r.
  - exists q. rewrite elem_of_app. right. left.
Qed.

Lemma prefixes_app p r : p ∈ prefixes (p +:+ r).
Proof.
  induction p as [|c p IH].
  - rewrite append_nil_l. destruct r; left.
  - rewrite append_cons. cbn. right. now apply list_elem_of_fmap_2.
Qed.


Lemma startsWith_app s r p : startsWith s p = true → startsWith (s +:+ r) p = true.
Proof.
  unfold startsWith. revert s. induction p as [|c p IH]; intros [|c' s];
    rewrite ?append_cons, ?append_nil_l; cbn; try discriminate.
  - now destruct r.
  - reflexivity.
  - destruct (Ascii.ascii_dec c c'); [apply IH | discriminate].
Qed.

Lemma length_app_le s r : (String.length s <= String.length (s +:+ r))%nat.
Proof. induction s; rewrite ?append_cons; cbn; lia. Qed.

Lemma joined_app a b : joined (a ++ b) = joined a +:+ joined b.
Proof.
  unfold joined. induction a as [|c a IH]; [reflexivity|].
  cbn [app fold_right]. now rewrite IH, append_assoc.
Qed.

(** *** Assignments *)

Lemma assign_app a b o : assign (a ++ b) o = assign b (assign a o).
Proof. apply fold_left_app. Qed.

Lemma obj_get_assign k a o :
  obj_get k (assign a o) = default (obj_get k o) (last_assign k a).
Proof.
  revert o. induction a as [|[k' v] a IH]; intros o; [reflexivity|].
  change (assign ((k', v) :: a) o) with (assign a (obj_set k' v o)).
  rewrite IH, obj_get_set. unfold last_assign. cbn [omap list_omap fst snd].
  destruct (String.eqb k' k); [|reflexivity].
  rewrite last_cons. now destruct (last _).
Qed.

Lemma last_assign_app k a b :
  last_assign k (a ++ b)
  = match last_assign k b with Some v => Some v | None => last_assign k a end.
Proof. unfold last_assign. now rewrite omap_app, last_app. Qed.

Lemma last_assign_elem_of k v a : (k, v) ∈ a → is_Some (last_assign k a).
Proof.
  intros Hin. unfold last_assign. apply last_is_Some.
  intros Hnil. assert (Hv : v ∈ @nil jsval); [|inversion Hv].
  rewrite <- Hnil. apply list_elem_of_omap. exists (k, v). split; [assumption|].
  cbn. now rewrite String.eqb_refl.
Qed.

Lemma last_assign_Some k v a : last_assign k a = Some v → (k, v) ∈ a.
Proof.
  unfold last_assign. intros H. apply last_Some_elem_of in H.
  apply list_elem_of_omap in H as ([k' v'] & Hin & Heq). cbn in Heq.
  destruct (String.eqb_spec k' k) as [->|]; [|discriminate].
  now injection Heq as ->.
Qed.

(** The last assignment of a run of lines is the last one that some line
    makes. *)
Lemma last_assign_bind {A} (f : A → object) k (ls : list A) :
  last_assign k (ls ≫= f) = last (omap (fun l => last_assign k (f l)) ls).
Proof.
  induction ls as [|l ls IH]; [reflexivity|].
  change ((l :: ls) ≫= f) with (f l ++ (ls ≫= f)).
  rewrite last_assign_app, IH. cbn [omap list_omap].
  destruct (last_assign k (f l)); [rewrite last_cons|]; now destruct (last _).
Qed.

Lemma omap_fmap_option {A B C} (f : A → option B) (g : B → C) (l : list A) :
  omap (fun x => g <$> f x) l = g <$> omap f l.
Proof.
  induction l as [|x l IH]; [reflexivity|]. cbn.
  destruct (f x); cbn; now rewrite IH.
Qed.

Lemma omap_bind_option {A B C} (f : A → option B) (g : B → option C) (l : list A) :
  omap (fun x => f x ≫= g) l = omap g (omap f l).
Proof.
  induction l as [|x l IH]; [reflexivity|]. cbn.
  destruct (f x); cbn; now rewrite IH.
Qed.

Section Stream.

Variable JSON_parse : string -> option jsval.

Abbreviation parse_line := (parse_line JSON_parse).
Abbreviation line_event := (line_event JSON_parse).
Abbreviation line_assignments := (line_assignments JSON_parse).
Abbreviation on_data := (on_data JSON_parse).
Abbreviation stream_usage := (stream_usage JSON_parse).
Abbreviation framed := (framed JSON_parse).
Abbreviation start_usages := (start_usages JSON_parse).
Abbreviation delta_usages := (delta_usages JSON_parse).
Abbreviation final_output_tokens := (final_output_tokens JSON_parse).

(** One line of the stream does what its assignments say. *)
Lemma parse_line_assign cur line :
  parse_line cur line = assign (line_assignments line) cur.
Proof.
  unfold Usage.parse_line, Usage.line_assignments, Usage.line_event.
  destruct (startsWith line "data: " && _); [|reflexivity].
  destruct (JSON_parse (slice 6 line)) as [data|]; [|reflexivity].
  cbn [from_option]. unfold event_assignments, message_start_usage, message_delta_usage.
  destruct data; try reflexivity;
    (destruct (is_str _ "message_start" && _ && _); cbn [from_option];
     [ unfold start_assignments; destruct (truthy (get _ "cache_creation")) |];
     (destruct (is_str _ "message_delta" && _); reflexivity)).
Qed.

Lemma fold_parse_line lines cur :
  fold_left parse_line lines cur = assign (lines ≫= line_assignments) cur.
Proof.
  revert cur. induction lines as [|l lines IH]; intros cur; [reflexivity|].
  change ((l :: lines) ≫= line_assignments)
    with (line_assignments l ++ (lines ≫= line_assignments)).
  rewrite assign_app, <- parse_line_assign. apply IH.
Qed.

(** In a framed text, a line that was cut short assigns nothing, or what
    the whole line assigns. *)
Lemma framed_prefix text line r :
  framed text → (line +:+ r) ∈ split_lines text →
  line_assignments line = [] ∨ line_assignments line = line_assignments (line +:+ r).
Proof.
  intros Hf Hin. unfold Usage.framed in Hf. rewrite Forall_forall in Hf.
  specialize (Hf _ Hin). unfold framed_line in Hf. rewrite Forall_forall in Hf.
  specialize (Hf _ (prefixes_app line r)).
  unfold Usage.line_assignments, Usage.line_event.
  destruct (startsWith line "data: ") eqn:Hs; [|now left].
  destruct (6 <? String.length line)%nat eqn:Hl; [|now left]. cbn [andb].
  destruct Hf as [Hf | [Hf | Hf]]; [discriminate | rewrite Hf; now left |].
  right. rewrite (startsWith_app _ r _ Hs).
  replace (6 <? String.length (line +:+ r))%nat with true; [now rewrite Hf|].
  symmetry. apply Nat.ltb_lt. apply Nat.ltb_lt in Hl.
  pose proof (length_app_le line r). lia.
Qed.

(** Whatever key the lines of a part of a framed text assign, the lines of
    the whole text assign too. *)
Lemma assigned_keys_grow a b k :
  framed (a +:+ b) →
  last_assign k (split_lines (a +:+ b) ≫= line_assignments) = None →
  last_assign k (split_lines a ≫= line_assignments) = None.
Proof.
  intros Hf Hnone.
  destruct (last_assign k (split_lines a ≫= line_assignments)) as [v|] eqn:E;
    [|reflexivity].
  apply last_assign_Some, list_elem_of_bind in E as (l & Hkv & Hl).
  destruct (split_lines_extend a b l Hl) as [r Hr].
  assert (Hkv' : (k, v) ∈ line_assignments (l +:+ r)).
  { destruct (framed_prefix _ _ _ Hf Hr) as [E | E].
    - rewrite E in Hkv. inversion Hkv.
    - now rewrite <- E. }
  assert (His : is_Some (last_assign k (split_lines (a +:+ b) ≫= line_assignments))).
  { apply (last_assign_elem_of k v), list_elem_of_bind. eauto. }
  rewrite Hnone in His. destruct His; discriminate.
Qed.

Lemma on_data_buffer chunks st :
  buffer (fold_left on_data chunks st) = buffer st +:+ joined chunks.
Proof.
  revert st. induction chunks as [|c chunks IH]; intros st; cbn [fold_left].
  - unfold joined. cbn. now rewrite append_nil_r.
  - rewrite IH. cbn [Usage.on_data buffer]. unfold joined. cbn [fold_right].
    apply append_assoc.
Qed.

(** While a framed text arrives, the usage data only ever holds keys that
    the lines of the whole text assign. *)
Lemma on_data_keys text chunks st rest k :
  framed text →
  text = (buffer st +:+ joined chunks) +:+ rest →
  (∀ k, last_assign k (split_lines text ≫= line_assignments) = None →
        obj_get k (currentUsageData st) = VUndefined) →
  last_assign k (split_lines text ≫= line_assignments) = None →
  obj_get k (currentUsageData (fold_left on_data chunks st)) = VUndefined.
Proof.
  intros Hf. revert st rest k.
  induction chunks as [|c chunks IH]; intros st rest k Htext Hst Hk;
    cbn [fold_left]; [now apply Hst|].
  apply (IH (on_data st c) rest); [| |assumption].
  - cbn [Usage.on_data buffer]. rewrite Htext. unfold joined. cbn [fold_right].
    now rewrite !append_assoc.
  - intros k' Hk'. cbn [Usage.on_data currentUsageData].
    unfold _parseAnthropicUsageFromSSE.
    rewrite fold_parse_line, obj_get_assign.
    assert (Hsplit : text = (buffer st +:+ c) +:+ (joined chunks +:+ rest)).
    { rewrite Htext. unfold joined. cbn [fold_right]. now rewrite !append_assoc. }
    rewrite Hsplit in Hf, Hk'.
    rewrite (assigned_keys_grow _ _ _ Hf Hk'). cbn. apply Hst.
    now rewrite Hsplit.
Qed.

(** Chunking is invisible: however a framed text is split, every field of
    the usage data ends up as one pass over the whole text leaves it. *)
Lemma stream_usage_lookup chunks k :
  framed (joined chunks) →
  obj_get k (stream_usage chunks)
  = default VUndefined
      (last_assign k (split_lines (joined chunks) ≫= line_assignments)).
Proof.
  intros Hf. unfold Usage.stream_usage.
  destruct chunks as [|c chunks _] using rev_ind; [reflexivity|].
  rewrite fold_left_app. cbn [fold_left Usage.on_data currentUsageData].
  unfold _parseAnthropicUsageFromSSE.
  rewrite fold_parse_line, obj_get_assign, on_data_buffer.
  cbn [stream_start buffer]. rewrite append_nil_l.
  assert (Hj : joined (chunks ++ [c]) = joined chunks +:+ c).
  { rewrite joined_app. unfold joined at 2. cbn. now rewrite append_nil_r. }
  rewrite Hj in *.
  destruct (last_assign k _) as [v|] eqn:E; [reflexivity|]. cbn [default].
  apply (on_data_keys (joined chunks +:+ c) chunks stream_start c k);
    [assumption | reflexivity | reflexivity | assumption].
Qed.

Lemma framed_check_sound text : framed_check JSON_parse text = true → framed text.
Proof.
  unfold framed_check, Usage.framed, framed_line.
  rewrite forallb_forall, Forall_forall. intros H line Hin.
  apply list_elem_of_In, H in Hin. rewrite forallb_forall in Hin.
  rewrite Forall_forall. intros p Hp. apply list_elem_of_In, Hin in Hp.
  apply orb_true_iff in Hp as [Hp | Hp]; [apply orb_true_iff in Hp as [Hp | Hp]|].
  - left. now apply negb_true_iff.
  - right. left. now destruct (JSON_parse (slice 6 p)).
  - right. right. now apply String.eqb_eq in Hp as ->.
Qed.

(** *** What each line assigns *)

Lemma omap_pointwise {A B} (f g : A → option B) (l : list A) :
  (∀ x, f x = g x) → omap f l = omap g l.
Proof. intros H. induction l as [|x l IH]; cbn; [reflexivity|]. now rewrite H, IH. Qed.

Ltac line_cases line :=
  unfold Usage.line_assignments;
  destruct (line_event line) as [data|]; cbn [from_option mbind option_bind fmap option_map];
  [|reflexivity];
  unfold event_assignments;
  destruct (message_start_usage data) as [usage|];
  destruct (message_delta_usage data) as [delta|];
  cbn [from_option mbind option_bind fmap option_map];
  unfold start_assignments, delta_assignments;
  try destruct (truthy (get usage "cache_creation"));
  reflexivity.

Lemma line_input_tokens line :
  last_assign "input_tokens" (line_assignments line)
  = (fun usage => or_else (get usage "input_tokens") zero)
      <$> (line_event line ≫= message_start_usage).
Proof. line_cases line. Qed.

Lemma line_cache_creation_input_tokens line :
  last_assign "cache_creation_input_tokens" (line_assignments line)
  = (fun usage => or_else (get usage "cache_creation_input_tokens") zero)
      <$> (line_event line ≫= message_start_usage).
Proof. line_cases line. Qed.

Lemma line_cache_read_input_tokens line :
  last_assign "cache_read_input_tokens" (line_assignments line)
  = (fun usage => or_else (get usage "cache_read_input_tokens") zero)
      <$> (line_event line ≫= message_start_usage).
Proof. line_cases line. Qed.

Lemma line_cache_creation line :
  last_assign "cache_creation" (line_assignments line)
  = (line_event line ≫= message_start_usage) ≫= cache_creation_copy.
Proof. unfold cache_creation_copy. line_cases line. Qed.

Lemma line_output_tokens line :
  last_assign "output_tokens" (line_assignments line)
  = (fun usage => or_else (get usage "output_tokens") zero)
      <$> (line_event line ≫= message_delta_usage).
Proof. line_cases line. Qed.

Lemma line_assignment_keys line :
  Forall (fun k => bool_decide (k ∈ alias_names) = false)
    (fst <$> line_assignments line).
Proof.
  unfold Usage.line_assignments.
  destruct (line_event line) as [data|]; cbn [from_option]; [|constructor].
  unfold event_assignments, start_assignments, delta_assignments.
  destruct (message_start_usage data) as [u|];
    destruct (message_delta_usage data) as [d|]; cbn [from_option];
    try destruct (truthy (get u "cache_creation"));
    cbn [app fmap list_fmap fst]; repeat constructor.
Qed.

(** *** The usage data of a well-formed stream *)

Section Fixture.

Variable chunks : list string.
Variable usage : object.
Variable output_tokens : jsval.

Hypothesis Hframed : framed (joined chunks).
Hypothesis Hstart : start_usages (joined chunks) = [VObj usage].
Hypothesis Houtput : final_output_tokens (joined chunks) = Some output_tokens.

Lemma stream_start_count k :
  (∀ line, last_assign k (line_assignments line)
           = (fun u => or_else (get u k) zero)
               <$> (line_event line ≫= message_start_usage)) →
  obj_get k (stream_usage chunks) = or_else (obj_get k usage) zero.
Proof.
  intros Hline. rewrite stream_usage_lookup, last_assign_bind by assumption.
  rewrite (omap_pointwise _ _ _ Hline), omap_fmap_option.
  fold (start_usages (joined chunks)). now rewrite Hstart.
Qed.

Lemma stream_cache_creation :
  obj_get "cache_creation" (stream_usage chunks)
  = default VUndefined (cache_creation_copy (VObj usage)).
Proof.
  rewrite stream_usage_lookup, last_assign_bind by assumption.
  rewrite (omap_pointwise _ _ _ line_cache_creation), omap_bind_option.
  fold (start_usages (joined chunks)). rewrite Hstart. cbn.
  now destruct (cache_creation_copy (VObj usage)).
Qed.

Lemma stream_output_tokens :
  obj_get "output_tokens" (stream_usage chunks) = or_else output_tokens zero.
Proof.
  rewrite stream_usage_lookup, last_assign_bind by assumption.
  rewrite (omap_pointwise _ _ _ line_output_tokens), omap_fmap_option, fmap_last.
  fold (delta_usages (joined chunks)).
  unfold Usage.final_output_tokens in Houtput.
  destruct (last (delta_usages (joined chunks))) as [delta|]; [|discriminate].
  cbn in *. now injection Houtput as ->.
Qed.

(** The stream never assigns one of the alias names. *)
Lemma stream_alias k :
  k ∈ alias_names → obj_get k (stream_usage chunks) = VUndefined.
Proof.
  intros Hk. rewrite stream_usage_lookup by assumption.
  destruct (last_assign k _) as [v|] eqn:E; [exfalso | reflexivity].
  apply last_assign_Some, list_elem_of_bind in E as (line & Hkv & _).
  apply (list_elem_of_fmap_2 fst) in Hkv. cbn [fst] in Hkv.
  pose proof (line_assignment_keys line) as Hkeys.
  rewrite Forall_forall in Hkeys. specialize (Hkeys _ Hkv).
  now rewrite (bool_decide_eq_true_2 _ Hk) in Hkeys.
Qed.

End Fixture.

End Stream.

Lemma canonical_get usage k :
  canonical_usage usage = true → k ∈ alias_names → obj_get k usage = VUndefined.
Proof.
  unfold canonical_usage. rewrite forallb_forall. intros H Hk.
  apply obj_has_false_get, negb_true_iff, H. now apply list_elem_of_In.
Qed.

Ltac alias_name :=
  apply list_elem_of_In; cbn [In alias_names];
  repeat (first [left; reflexivity | right]).

Section RoundTrip.

Variable StringToNumber : string -> number.
Variable ObjectToNumber : jsval -> number.
Variable JSON_parse : string -> option jsval.

Abbreviation toNumber := (toNumber StringToNumber ObjectToNumber).
Abbreviation _normalizeUsageSnapshot :=
  (_normalizeUsageSnapshot StringToNumber ObjectToNumber).

Variable chunks : list string.
Variable usage : object.
Variable output_tokens : jsval.

Hypothesis Hframed : framed JSON_parse (joined chunks).
Hypothesis Hstart : start_usages JSON_parse (joined chunks) = [VObj usage].
Hypothesis Houtput :
  final_output_tokens JSON_parse (joined chunks) = Some output_tokens.
Hypothesis Hcanonical : canonical_usage usage = true.

Let streamed := stream_usage JSON_parse chunks.
Let buffered := obj_set "output_tokens" output_tokens usage.

Lemma streamed_alias k : k ∈ alias_names → obj_get k streamed = VUndefined.
Proof. now apply stream_alias. Qed.

Lemma buffered_alias k : k ∈ alias_names → obj_get k buffered = VUndefined.
Proof.
  intros Hk. unfold buffered. rewrite obj_get_set.
  destruct (String.eqb_spec "output_tokens" k) as [<-|_].
  - revert Hk. unfold alias_names. rewrite ?elem_of_cons, elem_of_nil.
    intros Hk. repeat (destruct Hk as [Hk|Hk]; [discriminate Hk|]). contradiction.
  - now apply canonical_get.
Qed.

Lemma round_trip_input :
  toNumber (raw_input streamed) = toNumber (raw_input buffered).
Proof.
  unfold raw_input, streamed, buffered.
  rewrite (stream_start_count JSON_parse chunks usage Hframed Hstart
             "input_tokens" (line_input_tokens JSON_parse)).
  rewrite coalesce_or_zero, toNumber_or_zero.
  rewrite obj_get_set_ne by discriminate.
  fold buffered. rewrite !buffered_alias by alias_name.
  now rewrite toNumber_coalesce.
Qed.

Lemma round_trip_cache_read :
  toNumber (raw_cache_read streamed) = toNumber (raw_cache_read buffered).
Proof.
  unfold raw_cache_read, streamed, buffered.
  rewrite (stream_start_count JSON_parse chunks usage Hframed Hstart
             "cache_read_input_tokens" (line_cache_read_input_tokens JSON_parse)).
  rewrite coalesce_or_zero, toNumber_or_zero.
  rewrite obj_get_set_ne by discriminate.
  fold buffered. rewrite !buffered_alias by alias_name.
  now rewrite toNumber_coalesce.
Qed.

Lemma round_trip_cache_create :
  toNumber (raw_cache_create streamed) = toNumber (raw_cache_create buffered).
Proof.
  unfold raw_cache_create, streamed, buffered.
  rewrite (stream_start_count JSON_parse chunks usage Hframed Hstart
             "cache_creation_input_tokens"
             (line_cache_creation_input_tokens JSON_parse)).
  rewrite coalesce_or_zero, toNumber_or_zero.
  rewrite obj_get_set_ne by discriminate.
  fold buffered. rewrite !buffered_alias by alias_name.
  now rewrite toNumber_coalesce.
Qed.

Lemma round_trip_output :
  toNumber (raw_output streamed) = toNumber (raw_output buffered).
Proof.
  unfold raw_output, streamed, buffered.
  rewrite (stream_output_tokens JSON_parse chunks output_tokens Hframed Houtput).
  rewrite coalesce_or_zero, toNumber_or_zero, obj_get_set_eq.
  fold buffered. rewrite !buffered_alias by alias_name.
  now rewrite toNumber_coalesce.
Qed.

Lemma round_trip_tier tier :
  tier = "ephemeral_5m_input_tokens" ∨ tier = "ephemeral_1h_input_tokens" →
  toNumber (coalesce (opt_get (obj_get "cache_creation" streamed) tier)
              (obj_get tier streamed))
  = toNumber (coalesce (opt_get (obj_get "cache_creation" buffered) tier)
                (obj_get tier buffered)).
Proof.
  intros Htier.
  assert (Halias : tier ∈ alias_names) by (destruct Htier as [-> | ->]; alias_name).
  rewrite (streamed_alias tier), (buffered_alias tier) by assumption.
  unfold streamed, buffered.
  rewrite (stream_cache_creation JSON_parse chunks usage Hframed Hstart).
  rewrite obj_get_set_ne by discriminate.
  unfold cache_creation_copy. cbn [get].
  destruct (truthy (obj_get "cache_creation" usage)) eqn:E; cbn [default].
  - rewrite (truthy_opt_get _ _ E), !toNumber_coalesce by reflexivity.
    destruct Htier as [-> | ->]; cbn; apply toNumber_or_zero.
  - now rewrite (falsy_get _ _ E).
Qed.

(** C6: for a stream whose text is framed, that carries one
    [message_start] with usage object [usage] and whose last
    [message_delta] reports [output_tokens], the snapshot recorded at the
    end of the stream is, however the text was cut into chunks, the
    snapshot of the buffered response that carries the same usage object
    under the provider's own field names. *)
Theorem C6_streamed_snapshot_is_buffered_snapshot
    (s : sinks) (apiKeyData account model : jsval) (skipUsageRecord : bool) :
  snd (_recordUsageFromStreamData StringToNumber ObjectToNumber
         s (stream_usage JSON_parse chunks) apiKeyData account model)
  = snd (_handleNonStreamResponse StringToNumber ObjectToNumber
           s (buffered_response usage output_tokens) account apiKeyData model
           skipUsageRecord).
Proof.
  transitivity (_normalizeUsageSnapshot buffered).
  - cbn [snd Usage._recordUsageFromStreamData].
    apply normalize_by_counts;
      auto using round_trip_input, round_trip_output, round_trip_cache_read,
        round_trip_cache_create.
    + apply round_trip_tier. now left.
    + apply round_trip_tier. now right.
  - unfold Usage._handleNonStreamResponse. now destruct skipUsageRecord.
Qed.

End RoundTrip.

Lemma fixture_framed :
  Usage.framed (Fixture.table_parse Fixture.events)
    (joined Fixture.stream_chunks).
Proof. apply framed_check_sound. vm_compute. reflexivity. Defined.

(** The fixture of 25 input, 10 cache-read and 42 output tokens, received
    in three chunks, against its buffered response. *)
Lemma C6_fixture_witness :
  let N := fun _ : string => NaN in
  let O := fun _ : jsval => NaN in
  let parse := Fixture.table_parse Fixture.events in
  snd (_recordUsageFromStreamData N O no_calls
         (stream_usage parse Fixture.stream_chunks) VNull VNull (VStr "m"))
  = snd (_handleNonStreamResponse N O no_calls
           (buffered_response Fixture.start_usage (num 42)) VNull VNull (VStr "m")
           false).
Proof.
  cbv zeta.
  apply (C6_streamed_snapshot_is_buffered_snapshot
           (fun _ => NaN) (fun _ => NaN)
           (Fixture.table_parse Fixture.events)
           Fixture.stream_chunks Fixture.start_usage (num 42)).
  - exact fixture_framed.
  - vm_compute. reflexivity.
  - vm_compute. reflexivity.
  - vm_compute. reflexivity.
Defined.

End StreamFacts.

(** ** Facts about request-body processing *)

Module RequestBodyFacts.
Import Js JsString JsFacts RequestBody.

(** *** Each step touches one property *)

Lemma strip_metadata_get k o :
  "metadata" ≠ k → obj_get k (strip_metadata o) = obj_get k o.
Proof.
  intros H. unfold strip_metadata.
  destruct (obj_has "metadata" o); [now apply obj_get_delete_ne | reflexivity].
Qed.

Lemma strip_metadata_has k o :
  "metadata" ≠ k → obj_has k (strip_metadata o) = obj_has k o.
Proof.
  intros H. unfold strip_metadata.
  destruct (obj_has "metadata" o); [|reflexivity].
  rewrite obj_has_delete. now destruct (String.eqb_spec "metadata" k).
Qed.

Lemma strip_metadata_done o : obj_has "metadata" (strip_metadata o) = false.
Proof.
  unfold strip_metadata. destruct (obj_has "metadata" o) eqn:E; [|exact E].
  now rewrite obj_has_delete.
Qed.

Lemma set_stream_get opts h k o :
  "stream" ≠ k → obj_get k (set_stream opts h o) = obj_get k o.
Proof.
  intros H. unfold set_stream.
  destruct (_ || _), h, (obj_has "stream" o);
    rewrite ?obj_get_set_ne, ?obj_get_delete_ne by assumption; reflexivity.
Qed.

Lemma set_stream_has opts h k o :
  "stream" ≠ k → obj_has k (set_stream opts h o) = obj_has k o.
Proof.
  intros H. unfold set_stream.
  destruct (_ || _), h, (obj_has "stream" o);
    rewrite ?obj_has_set, ?obj_has_delete;
    destruct (String.eqb_spec "stream" k); try contradiction; reflexivity.
Qed.

Lemma inject_system_get ep k o :
  "system" ≠ k → obj_get k (inject_system ep o) = obj_get k o.
Proof.
  intros H. unfold inject_system.
  destruct (String.eqb ep "anthropic"); [|reflexivity].
  destruct (obj_get "system" o) as [| | | | |items|];
    try destruct (existsb is_prompt_block items);
    rewrite ?obj_get_set_ne by assumption; reflexivity.
Qed.

Lemma inject_system_has ep k o :
  "system" ≠ k → obj_has k (inject_system ep o) = obj_has k o.
Proof.
  intros H. unfold inject_system.
  destruct (String.eqb ep "anthropic"); [|reflexivity].
  destruct (obj_get "system" o) as [| | | | |items|];
    try destruct (existsb is_prompt_block items);
    rewrite ?obj_has_set;
    destruct (String.eqb_spec "system" k); try contradiction; reflexivity.
Qed.

Lemma inject_instructions_get ep k o o' :
  inject_instructions ep o = Some o' → "instructions" ≠ k →
  obj_get k o' = obj_get k o.
Proof.
  intros E H. revert E. unfold inject_instructions.
  destruct (String.eqb ep "openai"); [|now intros [= <-]].
  destruct (truthy _); [|intros [= <-]; now apply obj_get_set_ne].
  destruct (obj_get "instructions" o) as [| | | |s| |]; try discriminate.
  destruct (startsWith s SYSTEM_PROMPT); intros [= <-];
    [reflexivity | now apply obj_get_set_ne].
Qed.

Lemma inject_instructions_has ep k o o' :
  inject_instructions ep o = Some o' → "instructions" ≠ k →
  obj_has k o' = obj_has k o.
Proof.
  intros E H. revert E. unfold inject_instructions.
  assert (Hset : ∀ v, obj_has k (obj_set "instructions" v o) = obj_has k o).
  { intros v. rewrite obj_has_set.
    now destruct (String.eqb_spec "instructions" k). }
  destruct (String.eqb ep "openai"); [|now intros [= <-]].
  destruct (truthy _); [|intros [= <-]; apply Hset].
  destruct (obj_get "instructions" o) as [| | | |s| |]; try discriminate.
  destruct (startsWith s SYSTEM_PROMPT); intros [= <-]; [reflexivity | apply Hset].
Qed.

Lemma drop_top_p_get k o : "top_p" ≠ k → obj_get k (drop_top_p o) = obj_get k o.
Proof.
  intros H. unfold drop_top_p.
  destruct (_ && _); [now apply obj_get_delete_ne | reflexivity].
Qed.

Lemma drop_top_p_has k o : "top_p" ≠ k → obj_has k (drop_top_p o) = obj_has k o.
Proof.
  intros H. unfold drop_top_p. destruct (_ && _); [|reflexivity].
  rewrite obj_has_delete. now destruct (String.eqb_spec "top_p" k).
Qed.

(** *** Each step leaves its own result alone *)

Lemma strip_metadata_noop o : obj_has "metadata" o = false → strip_metadata o = o.
Proof. intros H. unfold strip_metadata. now rewrite H. Qed.

Lemma set_stream_settles opts h o : stream_settled opts (set_stream opts h o).
Proof.
  unfold stream_settled, set_stream.
  destruct (_ || _); [destruct h; [|destruct (obj_has "stream" o) eqn:E]|].
  - right. now rewrite obj_has_set, obj_get_set_eq.
  - left. now rewrite obj_has_delete.
  - now left.
  - now rewrite obj_has_set, obj_get_set_eq.
Qed.

Lemma set_stream_noop opts o :
  stream_settled opts o → set_stream opts (obj_has "stream" o) o = o.
Proof.
  unfold stream_settled, set_stream.
  destruct (_ || _); [intros [H | [H1 H2]] | intros [H1 H2]].
  - now rewrite H.
  - rewrite H1. now apply obj_set_same.
  - now apply obj_set_same.
Qed.

Lemma promptBlock_is_prompt_block : is_prompt_block promptBlock = true.
Proof. vm_compute. reflexivity. Qed.

Lemma inject_system_settles ep o : system_settled ep (inject_system ep o).
Proof.
  intros ->. unfold inject_system.
  change (String.eqb "anthropic" "anthropic") with true. cbv iota.
  destruct (obj_get "system" o) as [| | | | |items|] eqn:E;
    try (eexists; rewrite obj_get_set_eq; split;
         [reflexivity | cbn [existsb]; now rewrite promptBlock_is_prompt_block]).
  destruct (existsb is_prompt_block items) eqn:Ex.
  - eauto.
  - eexists. rewrite obj_get_set_eq. split; [reflexivity|].
    cbn [existsb]. now rewrite promptBlock_is_prompt_block.
Qed.

Lemma inject_system_noop ep o : system_settled ep o → inject_system ep o = o.
Proof.
  unfold system_settled, inject_system.
  destruct (String.eqb_spec ep "anthropic") as [->|]; [|reflexivity].
  intros H. destruct (H eq_refl) as (items & -> & ->). reflexivity.
Qed.

Lemma prompt_truthy s : truthy (VStr (SYSTEM_PROMPT +:+ s)) = true.
Proof. unfold SYSTEM_PROMPT. now rewrite append_cons. Qed.

Lemma inject_instructions_settles ep o o' :
  inject_instructions ep o = Some o' → instructions_settled ep o'.
Proof.
  unfold inject_instructions. intros H ->.
  change (String.eqb "openai" "openai") with true in H. cbv iota in H.
  destruct (truthy (obj_get "instructions" o)) eqn:Ht.
  - destruct (obj_get "instructions" o) as [| | | |s| |] eqn:E; try discriminate.
    destruct (startsWith s SYSTEM_PROMPT) eqn:Hs; injection H as <-.
    + eauto.
    + eexists. rewrite obj_get_set_eq.
      eauto using prompt_truthy, startsWith_prefix.
  - injection H as <-. eexists. rewrite obj_get_set_eq.
    repeat split; vm_compute; reflexivity.
Qed.

Lemma inject_instructions_noop ep o :
  instructions_settled ep o → inject_instructions ep o = Some o.
Proof.
  unfold instructions_settled, inject_instructions.
  destruct (String.eqb_spec ep "openai") as [->|]; [|reflexivity].
  intros H. destruct (H eq_refl) as (s & -> & -> & ->). reflexivity.
Qed.

Lemma drop_top_p_settles o : top_p_settled (drop_top_p o).
Proof.
  unfold top_p_settled, drop_top_p.
  destruct (negb (nullish (obj_get "temperature" o))
            && negb (nullish (obj_get "top_p" o))) eqn:E.
  - rewrite obj_get_delete_eq. apply orb_true_r.
  - destruct (nullish (obj_get "temperature" o)), (nullish (obj_get "top_p" o));
      try reflexivity; discriminate.
Qed.

Lemma drop_top_p_noop o : top_p_settled o → drop_top_p o = o.
Proof.
  unfold top_p_settled, drop_top_p. intros H.
  destruct (nullish (obj_get "temperature" o)), (nullish (obj_get "top_p" o));
    try reflexivity; discriminate.
Qed.

(** *** Later steps keep what earlier steps settled *)

Lemma processed_is_settled body ep opts b :
  _processRequestBody body ep opts = Some b →
  obj_has "metadata" b = false ∧ stream_settled opts b ∧ system_settled ep b
  ∧ instructions_settled ep b ∧ top_p_settled b.
Proof.
  unfold _processRequestBody. cbv zeta.
  set (b1 := strip_metadata body).
  set (b2 := set_stream opts (obj_has "stream" body) b1).
  set (b3 := inject_system ep b2).
  destruct (inject_instructions ep b3) as [b4|] eqn:E4; [|discriminate].
  cbn [mbind option_bind]. intros [= <-].
  repeat split.
  - rewrite drop_top_p_has, (inject_instructions_has _ _ _ _ E4) by discriminate.
    unfold b3, b2. rewrite inject_system_has, set_stream_has by discriminate.
    apply strip_metadata_done.
  - pose proof (set_stream_settles opts (obj_has "stream" body) b1) as H.
    fold b2 in H. unfold stream_settled in *.
    rewrite drop_top_p_has, drop_top_p_get,
      (inject_instructions_has _ _ _ _ E4),
      (inject_instructions_get _ _ _ _ E4) by discriminate.
    unfold b3. now rewrite inject_system_has, inject_system_get by discriminate.
  - pose proof (inject_system_settles ep b2) as H. fold b3 in H.
    intros Hep. destruct (H Hep) as (items & Hget & Hex). exists items.
    rewrite drop_top_p_get, (inject_instructions_get _ _ _ _ E4) by discriminate.
    auto.
  - pose proof (inject_instructions_settles _ _ _ E4) as H.
    intros Hep. destruct (H Hep) as (s & Hget & Ht & Hs). exists s.
    rewrite drop_top_p_get by discriminate. auto.
  - apply drop_top_p_settles.
Qed.

Lemma settled_is_fixed ep opts b :
  obj_has "metadata" b = false → stream_settled opts b → system_settled ep b →
  instructions_settled ep b → top_p_settled b →
  _processRequestBody b ep opts = Some b.
Proof.
  intros Hm Hs Hsys Hi Ht. unfold _processRequestBody. cbv zeta.
  rewrite (strip_metadata_noop _ Hm), (set_stream_noop _ _ Hs),
    (inject_system_noop _ _ Hsys), (inject_instructions_noop _ _ Hi).
  cbn [mbind option_bind]. now rewrite (drop_top_p_noop _ Ht).
Qed.

Lemma processed_is_fixed body ep opts b :
  _processRequestBody body ep opts = Some b → _processRequestBody b ep opts = Some b.
Proof.
  intros H. destruct (processed_is_settled _ _ _ _ H) as (? & ? & ? & ? & ?).
  now apply settled_is_fixed.
Qed.

(** A processed body asks for streaming exactly when the options did. *)
Lemma processed_relay_options body ep disable b :
  _processRequestBody body ep (relay_options disable body) = Some b →
  relay_options disable b = relay_options disable body.
Proof.
  intros H. destruct (processed_is_settled _ _ _ _ H) as (_ & Hs & _).
  unfold relay_options in *. f_equal. unfold stream_settled in Hs.
  cbn [disableStreaming streamRequested] in Hs.
  destruct disable; [reflexivity|]. cbn [negb andb orb] in *.
  unfold _isStreamRequested at 1.
  destruct (_isStreamRequested body); cbn [negb] in Hs.
  - destruct Hs as [_ ->]. reflexivity.
  - destruct Hs as [Hs | [_ ->]]; [|reflexivity].
    now rewrite (obj_has_false_get _ _ Hs).
Qed.

(** C8: processing a processed body gives the same body again, with the
    options of the first pass and with the options the relay computes for
    the processed body alike; when the first pass throws there is nothing
    to process. In particular the prompt block is not added to [system] a
    second time and the prompt is not put in front of [instructions] a
    second time. *)
Theorem C8_processing_is_idempotent
    (requestBody : object) (endpointType : string) (opts : options)
    (disable : bool) :
  (_processRequestBody requestBody endpointType opts
     ≫= fun b => _processRequestBody b endpointType opts)
  = _processRequestBody requestBody endpointType opts
  ∧ (_processRequestBody requestBody endpointType (relay_options disable requestBody)
       ≫= fun b => _processRequestBody b endpointType (relay_options disable b))
    = _processRequestBody requestBody endpointType (relay_options disable requestBody).
Proof.
  split.
  - destruct (_processRequestBody requestBody endpointType opts) as [b|] eqn:E;
      [|reflexivity].
    cbn [mbind option_bind]. now apply (processed_is_fixed requestBody).
  - destruct (_processRequestBody requestBody endpointType
                (relay_options disable requestBody)) as [b|] eqn:E; [|reflexivity].
    cbn [mbind option_bind]. rewrite (processed_relay_options _ _ _ _ E).
    now apply (processed_is_fixed requestBody).
Qed.

End RequestBodyFacts.

(** ** Facts about the account selector *)

Module SelectorFacts.
Import Selector.

(** *** Sorting *)

Lemma insert_by_elem {A} (cmp : A → A → Z) x y l :
  y ∈ insert_by cmp x l ↔ y = x ∨ y ∈ l.
Proof.
  induction l as [|z l IH]; cbn.
  - rewrite list_elem_of_singleton, elem_of_nil. tauto.
  - destruct (cmp x z <=? 0).
    + now rewrite elem_of_cons.
    + rewrite !elem_of_cons, IH. tauto.
Qed.

Lemma sort_by_elem {A} (cmp : A → A → Z) y l : y ∈ sort_by cmp l ↔ y ∈ l.
Proof.
  induction l as [|x l IH]; cbn; [reflexivity|].
  now rewrite insert_by_elem, elem_of_cons, IH.
Qed.

Lemma sort_by_nonempty {A} (cmp : A → A → Z) l : l ≠ [] → sort_by cmp l ≠ [].
Proof.
  destruct l as [|x l]; [contradiction|]. intros _ H.
  assert (Hx : x ∈ sort_by cmp (x :: l)) by (apply sort_by_elem; left).
  rewrite H in Hx. inversion Hx.
Qed.

(** The head of an array sorted by a key has the least key. *)
Lemma sort_by_head_least {A} (key : A → Z) (cmp : A → A → Z) l h t :
  (∀ a b, cmp a b <= 0 ↔ key a <= key b) →
  sort_by cmp l = h :: t → ∀ y, y ∈ l → key h <= key y.
Proof.
  intros Hcmp. revert h t. induction l as [|x l IH]; intros h t; [discriminate|].
  change (sort_by cmp (x :: l)) with (insert_by cmp x (sort_by cmp l)).
  destruct (sort_by cmp l) as [|h' t'] eqn:E.
  - intros [= <- <-] y Hy.
    assert (l = []) as ->.
    { destruct l; [reflexivity|]. now apply sort_by_nonempty in E. }
    apply list_elem_of_singleton in Hy as ->. lia.
  - cbn [insert_by]. specialize (IH h' t' eq_refl).
    destruct (Z.leb_spec (cmp x h') 0) as [Hle | Hgt]; intros [= <- <-] y Hy;
      apply elem_of_cons in Hy as [-> | Hy].
    + lia.
    + apply Hcmp in Hle. specialize (IH y Hy). lia.
    + assert (¬ key x <= key h') by (rewrite <- Hcmp; lia). lia.
    + now apply IH.
Qed.

(** *** Selection within a band *)

Lemma elem_of_filter_bool {A} (f : A → bool) x l :
  x ∈ List.filter f l ↔ x ∈ l ∧ f x = true.
Proof. rewrite !list_elem_of_In. apply filter_In. Qed.

Lemma numeric_highest a h :
  numeric_priority h = true →
  strict_eq_number (effective_priority a) (priority_or_50 h)
  = (effective_priority a =? effective_priority h).
Proof.
  generalize (effective_priority a). intros n.
  unfold numeric_priority, priority_or_50, effective_priority.
  destruct (priority h) as [|z|s]; cbn; try discriminate; intros _;
    [reflexivity|]. now destruct (z =? 0).
Qed.

(** For priorities stored as numbers, selection within a band picks an
    account of the highest effective priority and, among those, one that
    was used least recently. *)
Lemma same_group_numeric accounts :
  accounts ≠ [] → forallb numeric_priority accounts = true →
  ∃ a, _selectFromSameGroup accounts = Some a ∧ a ∈ accounts
       ∧ (∀ b, b ∈ accounts → effective_priority b <= effective_priority a)
       ∧ (∀ b, b ∈ accounts → effective_priority b = effective_priority a →
               last_used a <= last_used b).
Proof.
  intros Hne Hnum. rewrite forallb_forall in Hnum. unfold _selectFromSameGroup.
  set (byPriority := fun a b : account => effective_priority b - effective_priority a).
  destruct (sort_by byPriority accounts) as [|h t] eqn:Es;
    [now apply sort_by_nonempty in Es|].
  assert (Hh : h ∈ accounts) by (apply (sort_by_elem byPriority); rewrite Es; left).
  assert (Hmax : ∀ b, b ∈ accounts → effective_priority b <= effective_priority h).
  { intros b Hb.
    pose proof (sort_by_head_least (fun a => - effective_priority a) byPriority
                  accounts h t) as H.
    cbv beta in H. unfold byPriority in H at 1.
    specialize (H ltac:(intros; lia) Es b Hb). lia. }
  assert (Hnh : numeric_priority h = true) by now apply Hnum, list_elem_of_In.
  set (top := List.filter _ (h :: t)).
  assert (Htop : ∀ b, b ∈ top ↔ b ∈ accounts ∧ effective_priority b = effective_priority h).
  { intros b. unfold top. rewrite elem_of_filter_bool, numeric_highest by assumption.
    rewrite <- Es, sort_by_elem, Z.eqb_eq. reflexivity. }
  assert (Hhtop : h ∈ top) by (apply Htop; auto).
  destruct top as [|a [|a' top']] eqn:Etop; [inversion Hhtop | |].
  - exists a. apply list_elem_of_singleton in Hhtop as <-.
    repeat split; auto. intros b Hb Heq.
    assert (Hb' : b ∈ [h]) by (apply Htop; auto).
    apply list_elem_of_singleton in Hb' as ->. lia.
  - set (byLastUsed := fun a b : account => last_used a - last_used b).
    destruct (sort_by byLastUsed (a :: a' :: top')) as [|m rest] eqn:El;
      [now apply sort_by_nonempty in El|].
    exists m. cbn [head].
    assert (Hm : m ∈ a :: a' :: top')
      by (apply (sort_by_elem byLastUsed); rewrite El; left).
    apply Htop in Hm as [Hm Hmeq]. rewrite Hmeq.
    repeat split; auto. intros b Hb Heq.
    apply (sort_by_head_least last_used byLastUsed (a :: a' :: top') m rest);
      [unfold byLastUsed; intros; lia | assumption | now apply Htop].
Qed.

(** *** Bands *)

Lemma group_fold accounts g :
  fold_left push_account accounts g
  = {| low := low g ++ in_band Low accounts;
       medium := medium g ++ in_band Medium accounts;
       high := high g ++ in_band High accounts;
       critical := critical g ++ in_band Critical accounts |}.
Proof.
  revert g. induction accounts as [|a accounts IH]; intros g.
  - cbn. rewrite !app_nil_r. now destruct g.
  - cbn [fold_left]. rewrite IH. unfold push_account, in_band, band_of.
    cbn [List.filter].
    destruct (Qltb (usage a) threshold_low);
      [|destruct (Qltb (usage a) threshold_medium);
        [|destruct (Qltb (usage a) threshold_high)]];
      cbn; now rewrite <- ?app_assoc.
Qed.

Lemma groups_are_bands accounts :
  _groupAccountsByUsage accounts
  = {| low := in_band Low accounts; medium := in_band Medium accounts;
       high := in_band High accounts; critical := in_band Critical accounts |}.
Proof. unfold _groupAccountsByUsage. now rewrite group_fold. Qed.

Lemma elem_of_in_band a b accounts :
  a ∈ in_band b accounts ↔ a ∈ accounts ∧ band_of a = b.
Proof.
  unfold in_band. rewrite elem_of_filter_bool.
  split; intros [H1 H2]; split; auto; destruct (band_of a), b;
    try reflexivity; discriminate.
Qed.

Lemma in_band_numeric b accounts :
  forallb numeric_priority accounts = true →
  forallb numeric_priority (in_band b accounts) = true.
Proof.
  rewrite !forallb_forall. intros H a Ha.
  apply list_elem_of_In, elem_of_in_band in Ha as [Ha _].
  now apply H, list_elem_of_In.
Qed.

(** A band of numeric priorities that is not empty yields one of its
    accounts. *)
Lemma select_from_group group rest :
  group ≠ [] → forallb numeric_priority group = true →
  ∃ a, select_from (group :: rest) = Some a ∧ a ∈ group.
Proof.
  intros Hne Hnum. destruct group as [|a [|a' group]]; [contradiction | |].
  - exists a. split; [reflexivity | left].
  - destruct (same_group_numeric (a :: a' :: group) Hne Hnum) as (m & Hm & Hin & _).
    exists m. cbn [select_from]. now rewrite Hm.
Qed.

(** For priorities stored as numbers, the selection comes from the first
    band that is not empty. *)
Lemma select_numeric accounts :
  accounts ≠ [] → forallb numeric_priority accounts = true →
  ∃ a, select accounts = Some a ∧ a ∈ accounts
       ∧ first_band accounts = Some (band_of a).
Proof.
  intros Hne Hnum. unfold select, _selectFromGroups, first_band.
  rewrite groups_are_bands. cbn [low medium high critical List.find].
  assert (Hpick : ∀ b rest, in_band b accounts ≠ [] →
            ∃ a, select_from (in_band b accounts :: rest) = Some a
                 ∧ a ∈ accounts ∧ band_of a = b).
  { intros b rest Hb.
    destruct (select_from_group _ rest Hb (in_band_numeric b _ Hnum))
      as (a & Hsel & Hin).
    apply elem_of_in_band in Hin as [Hin Hband]. eauto. }
  destruct (in_band Low accounts) as [|l0 ls] eqn:EL.
  2:{ destruct (Hpick Low [in_band Medium accounts; in_band High accounts;
                            in_band Critical accounts])
        as (a & Hsel & Hin & Hband); [now rewrite EL|].
      rewrite EL in Hsel. exists a. rewrite Hband. auto. }
  cbn [select_from length Nat.eqb negb].
  destruct (in_band Medium accounts) as [|m0 ms] eqn:EM.
  2:{ destruct (Hpick Medium [in_band High accounts; in_band Critical accounts])
        as (a & Hsel & Hin & Hband); [now rewrite EM|].
      rewrite EM in Hsel. exists a. rewrite Hband. auto. }
  cbn [select_from length Nat.eqb negb].
  destruct (in_band High accounts) as [|h0 hs] eqn:EH.
  2:{ destruct (Hpick High [in_band Critical accounts])
        as (a & Hsel & Hin & Hband); [now rewrite EH|].
      rewrite EH in Hsel. exists a. rewrite Hband. auto. }
  cbn [select_from length Nat.eqb negb].
  destruct (in_band Critical accounts) as [|c0 cs] eqn:EC.
  2:{ destruct (Hpick Critical []) as (a & Hsel & Hin & Hband); [now rewrite EC|].
      rewrite EC in Hsel. exists a. rewrite Hband. auto. }
  exfalso. destruct accounts as [|a accounts]; [contradiction|].
  assert (Ha : a ∈ in_band (band_of a) (a :: accounts))
    by (apply elem_of_in_band; split; [left | reflexivity]).
  destruct (band_of a); rewrite ?EL, ?EM, ?EH, ?EC in Ha; inversion Ha.
Qed.

(** C1, at an input where the code departs from it: two candidates of low
    usage whose priority is the string 50, and one candidate of high usage.
    Selection within the low band compares the number 50 with the string
    and finds no candidate; the loop moves on and returns the account at
    70%. *)
Theorem C1_string_priority_skips_band :
  let a := {| accountId := "A"; priority := PString "50"; lastUsedAt := None;
              usagePercentage := Some (1 # 10) |} in
  let b := {| accountId := "B"; priority := PString "50"; lastUsedAt := None;
              usagePercentage := Some (2 # 10) |} in
  let c := {| accountId := "C"; priority := PString "50"; lastUsedAt := None;
              usagePercentage := Some (7 # 10) |} in
  first_band [a; b; c] = Some Low ∧
  in_band Low [a; b; c] = [a; b] ∧
  _selectFromSameGroup [a; b] = None ∧
  select [a; b; c] = Some c ∧ band_of c = High.
Proof. vm_compute. repeat split. Qed.




End SelectorFacts.

(** ** Facts about the distributed lock *)

Module LockFacts.
Import Lock.

Lemma state_eta st : {| redis := redis st; activeLocks := activeLocks st |} = st.
Proof. now destruct st. Qed.

Lemma live_lookup now db k e : live now db k = Some e → db !! k = Some e.
Proof.
  unfold live. destruct (db !! k) as [e'|]; [|discriminate].
  destruct (now <? expires e'); [now intros [= ->] | discriminate].
Qed.

Lemma lookup_live now db k e : db !! k = Some e → now < expires e → live now db k = Some e.
Proof.
  intros E H. unfold live. rewrite E. destruct (Z.ltb_spec now (expires e)); [reflexivity | lia].
Qed.

(** *** Release and extension *)

Lemma release_fenced now st l :
  (snd (releaseLock now st (Some l)) = true →
     holds_token now (redis st) l
     ∧ redis (fst (releaseLock now st (Some l))) = delete (key l) (redis st))
  ∧ (¬ holds_token now (redis st) l → releaseLock now st (Some l) = (st, false)).
Proof.
  unfold releaseLock, holds_token, release_script.
  destruct (String.eqb (key l) "" || String.eqb (value l) "");
    [split; [discriminate | reflexivity]|].
  destruct (live now (redis st) (key l)) as [e|] eqn:E.
  - destruct (String.eqb_spec (stored e) (value l)) as [Heq | Hne]; cbn.
    + split; [eauto | intros H; exfalso; eauto].
    + rewrite state_eta. split; [discriminate | reflexivity].
  - cbn. rewrite state_eta. split; [discriminate | reflexivity].
Qed.

Lemma extend_fenced now st l t :
  (snd (extendLock now st (Some l) t) = true →
     holds_token now (redis st) l
     ∧ redis (fst (fst (extendLock now st (Some l) t)))
       = pexpire now (key l) (new_ttl t l) (redis st))
  ∧ (¬ holds_token now (redis st) l →
     extendLock now st (Some l) t = (st, Some l, false)).
Proof.
  unfold extendLock, holds_token, extend_script.
  destruct (String.eqb (key l) "" || String.eqb (value l) "");
    [split; [discriminate | reflexivity]|].
  destruct (live now (redis st) (key l)) as [e|] eqn:E.
  - destruct (String.eqb_spec (stored e) (value l)) as [Heq | Hne]; cbn.
    + split; [eauto | intros H; exfalso; eauto].
    + rewrite state_eta. split; [discriminate | reflexivity].
  - cbn. rewrite state_eta. split; [discriminate | reflexivity].
Qed.

Lemma pexpire_rearms now k t db e :
  0 < t → db !! k = Some e →
  pexpire now k t db !! k = Some {| stored := stored e; expires := now + t |}.
Proof.
  intros Ht E. unfold pexpire.
  destruct (Z.leb_spec t 0); [lia|]. now rewrite lookup_alter_eq, E.
Qed.

(** C4: release and extension answer [true] only when the store holds, at
    that time, the key of the lease with the token of the lease, and then
    the key is deleted, respectively given its new time to live with its
    value kept; when the key is absent, has expired or holds another
    value, and for a lease that is [null], they answer [false] and leave
    the store and the bookkeeping as they were. *)
Theorem C4_release_and_extend_are_fenced
    (now : Z) (st : state) (l : lock) (t : option Z) :
  (snd (releaseLock now st (Some l)) = true →
     holds_token now (redis st) l
     ∧ redis (fst (releaseLock now st (Some l))) = delete (key l) (redis st)
     ∧ redis (fst (releaseLock now st (Some l))) !! key l = None)
  ∧ (snd (extendLock now st (Some l) t) = true →
     holds_token now (redis st) l
     ∧ redis (fst (fst (extendLock now st (Some l) t)))
       = pexpire now (key l) (new_ttl t l) (redis st)
     ∧ (0 < new_ttl t l →
        redis (fst (fst (extendLock now st (Some l) t))) !! key l
        = Some {| stored := value l; expires := now + new_ttl t l |}))
  ∧ (¬ holds_token now (redis st) l →
     releaseLock now st (Some l) = (st, false)
     ∧ extendLock now st (Some l) t = (st, Some l, false))
  ∧ releaseLock now st None = (st, false)
  ∧ extendLock now st None t = (st, None, false).
Proof.
  destruct (release_fenced now st l) as [Hr1 Hr2].
  destruct (extend_fenced now st l t) as [He1 He2].
  repeat split; auto.
  - now apply Hr1.
  - now apply Hr1.
  - destruct (Hr1 H) as [_ ->]. apply lookup_delete_eq.
  - now apply He1.
  - now apply He1.
  - intros Ht. destruct (He1 H) as [(e & E & Hv) ->].
    rewrite (pexpire_rearms _ _ _ _ e Ht (live_lookup _ _ _ _ E)). now rewrite Hv.
Qed.

(** *** Acquisition *)

Lemma linear_backoff_S delay i :
  linear_backoff delay (S i) = linear_backoff delay i ++ [delay * (Z.of_nat i + 1)].
Proof. unfold linear_backoff. now rewrite seq_S, map_app. Qed.

(** One iteration of the loop, run before the horizon with a lease that
    outlasts it, keeps the invariant of the call, keeps an entry that lasts
    until the horizon, and hands out a lock only when there was no such
    entry. *)
Lemma attempt_inv now horizon st c resource o n :
  now < horizon → horizon <= now + r_ttl o → call_inv resource o c n →
  let st' := fst (attempt now st c) in
  let c' := snd (attempt now st c) in
  let k := lockPrefix +:+ resource in
  call_inv resource o c' (S n)
  ∧ (∀ e, redis st !! k = Some e → horizon <= expires e → redis st' !! k = Some e)
  ∧ (has_lock c = true → st' = st ∧ c' = c)
  ∧ (has_lock c = false → has_lock c' = true →
     (∀ e, redis st !! k = Some e → expires e < horizon)
     ∧ ∃ e, redis st' !! k = Some e ∧ horizon <= expires e).
Proof.
  intros Hnow Hlease (Hres & Hopt & Hsent & Hphase). cbv zeta. unfold attempt.
  destruct (call_phase c) as [i|l| |] eqn:Ephase; cbn [fst snd].
  2,3: (split; [unfold call_inv; rewrite Ephase; auto|];
        split; [auto|]; split; [auto|]; intros; congruence).
  2: contradiction.
  destruct Hphase as (-> & Hle & Hlen & Hslept).
  rewrite Hopt, Hres. unfold set_px_nx.
  destruct (Z.leb_spec (r_ttl o) 0) as [|_]; [lia|].
  assert (Hsent' : Forall (fun v => v = r_value o) (sent c ++ [r_value o])).
  { apply Forall_app. split; [assumption | now constructor]. }
  assert (Hnl : has_lock c = false) by (unfold has_lock; now rewrite Ephase).
  destruct (live now (redis st) (lockPrefix +:+ resource)) as [e|] eqn:E; cbn [fst snd].
  - destruct (Nat.ltb_spec n (r_retries o)); cbn [fst snd redis];
      (split; [|split; [auto|split; [intros; congruence | discriminate]]]);
      unfold call_inv; cbn [call_resource call_options call_phase sent slept];
      repeat split; auto; rewrite ?length_app; cbn [length]; try lia.
    + now rewrite linear_backoff_S, Hslept.
    + assert (n = r_retries o) as <- by lia. assumption.
  - cbn [redis].
    assert (Hgone : ∀ e, redis st !! (lockPrefix +:+ resource) = Some e →
                         expires e < horizon).
    { intros e He. destruct (Z.ltb_spec now (expires e)) as [Hlt|]; [|lia].
      rewrite (lookup_live _ _ _ _ He Hlt) in E. discriminate. }
    split; [|split; [|split; [intros; congruence|]]].
    + unfold call_inv; cbn [call_resource call_options call_phase sent slept key value].
      repeat split; auto. rewrite length_app. cbn. lia.
    + intros e He Hexp. specialize (Hgone e He). lia.
    + intros _ _. split; [assumption|]. rewrite lookup_insert_eq.
      eexists. split; [reflexivity|]. cbn. lia.
Qed.

Lemma turns_snoc who schedule t :
  turns who (schedule ++ [t])
  = (turns who schedule + (if Bool.eqb (fst t) who then 1 else 0))%nat.
Proof.
  unfold turns. rewrite List.filter_app, length_app. cbn.
  now destruct (Bool.eqb (fst t) who).
Qed.

(** The invariant holds along every schedule that stays within the
    leases. *)
Lemma run_inv resource o1 o2 rnd1 rnd2 horizon st schedule :
  within_leases (resolve o1 rnd1) (resolve o2 rnd2) horizon schedule →
  system_inv resource (resolve o1 rnd1) (resolve o2 rnd2) horizon
    (run schedule {| shared := st;
                     first := start_call resource o1 rnd1;
                     second := start_call resource o2 rnd2 |})
    (turns true schedule) (turns false schedule).
Proof.
  unfold within_leases.
  induction schedule as [|[who now] schedule IH] using rev_ind; intros Hw.
  - cbn. unfold system_inv, call_inv, has_lock. cbn.
    repeat split; auto; try lia; try constructor;
      try (intros [H | H]; discriminate).
  - apply Forall_app in Hw as [Hw Ht]. apply Forall_cons in Ht as [[Hnow Hlease] _].
    cbn [fst snd] in Hnow, Hlease. specialize (IH Hw).
    unfold run in *. rewrite fold_left_app. cbn [fold_left].
    set (sys := fold_left step schedule _) in *.
    rewrite !turns_snoc. cbn [fst].
    destruct IH as (I1 & I2 & Istore & Imutex).
    unfold step. destruct who; cbn [Bool.eqb].
    + destruct (attempt_inv now horizon (shared sys) (first sys) _ _ _ Hnow Hlease I1)
        as (J1 & Jkeep & Jsame & Jnew).
      destruct (attempt now (shared sys) (first sys)) as [st' c'] eqn:Ea.
      cbn [fst snd] in *. rewrite Nat.add_0_r, Nat.add_1_r.
      unfold system_inv. cbn [shared first second].
      split; [assumption|]. split; [assumption|].
      destruct (has_lock (first sys)) eqn:Hf.
      * destruct (Jsame eq_refl) as [-> ->]. rewrite Hf. auto.
      * destruct (has_lock c') eqn:Hc'.
        -- destruct (Jnew eq_refl eq_refl) as [Hfree Hset]. split; [auto|].
           intros [_ Hs]. destruct Istore as (e & He & Hexp); [auto|].
           specialize (Hfree e He). lia.
        -- split; [|intros [? _]; discriminate].
           intros [? | Hs]; [discriminate|].
           destruct Istore as (e & He & Hexp); [auto|]. eauto.
    + destruct (attempt_inv now horizon (shared sys) (second sys) _ _ _ Hnow Hlease I2)
        as (J1 & Jkeep & Jsame & Jnew).
      destruct (attempt now (shared sys) (second sys)) as [st' c'] eqn:Ea.
      cbn [fst snd] in *. rewrite Nat.add_0_r, Nat.add_1_r.
      unfold system_inv. cbn [shared first second].
      split; [assumption|]. split; [assumption|].
      destruct (has_lock (second sys)) eqn:Hf.
      * destruct (Jsame eq_refl) as [-> ->]. rewrite Hf. auto.
      * destruct (has_lock c') eqn:Hc'.
        -- destruct (Jnew eq_refl eq_refl) as [Hfree Hset]. split; [auto|].
           intros [Hs _]. destruct Istore as (e & He & Hexp); [auto|].
           specialize (Hfree e He). lia.
        -- split; [|intros [_ ?]; discriminate].
           intros [Hs | ?]; [|discriminate].
           destruct Istore as (e & He & Hexp); [auto|]. eauto.
Qed.

Lemma call_inv_bounded resource o c n : call_inv resource o c n → call_bounded c n.
Proof.
  unfold call_inv, call_bounded, finished, returned_null.
  intros (_ & -> & Hsent & Hphase). cbv zeta.
  destruct (call_phase c) as [i|l| |]; [| | |contradiction].
  - destruct Hphase as (-> & Hle & Hlen & _).
    repeat split; auto; try lia; try discriminate.
  - destruct Hphase as (Hlen & _). repeat split; auto; discriminate.
  - destruct Hphase as (Hlen & Hslept). repeat split; auto; try lia; discriminate.
Qed.

(** C3, as amended: of two calls of [acquireLock] on one resource whose
    attempts, interleaved in any order, all fall before a time that the
    lease of either call outlasts, at most one gets a lock. Each call
    sends at most [retries + 1] conditional sets, all with the one token
    fixed when the call started, and is over after that many turns; a call
    that returns [null] has made all of them, sleeping [retryDelay],
    [2 * retryDelay], ... in between; so the call that loses returns
    [null]. *)
Theorem C3_at_most_one_call_gets_the_lock
    (resource : string) (o1 o2 : options) (rnd1 rnd2 : string) (horizon : Z)
    (st : state) (schedule : list (bool * Z)) :
  within_leases (resolve o1 rnd1) (resolve o2 rnd2) horizon schedule →
  let sys := run schedule {| shared := st;
                             first := start_call resource o1 rnd1;
                             second := start_call resource o2 rnd2 |} in
  ¬ (has_lock (first sys) = true ∧ has_lock (second sys) = true)
  ∧ call_options (first sys) = resolve o1 rnd1
  ∧ call_options (second sys) = resolve o2 rnd2
  ∧ call_bounded (first sys) (turns true schedule)
  ∧ call_bounded (second sys) (turns false schedule)
  ∧ (has_lock (first sys) = true →
     (S (r_retries (resolve o2 rnd2)) <= turns false schedule)%nat →
     returned_null (second sys) = true)
  ∧ (has_lock (second sys) = true →
     (S (r_retries (resolve o1 rnd1)) <= turns true schedule)%nat →
     returned_null (first sys) = true).
Proof.
  intros Hw sys.
  destruct (run_inv resource o1 o2 rnd1 rnd2 horizon st schedule Hw)
    as (I1 & I2 & _ & Hmutex).
  fold sys in I1, I2, Hmutex.
  pose proof (call_inv_bounded _ _ _ _ I1) as B1.
  pose proof (call_inv_bounded _ _ _ _ I2) as B2.
  destruct I1 as (_ & E1 & _), I2 as (_ & E2 & _).
  split; [exact Hmutex|]. split; [exact E1|]. split; [exact E2|].
  split; [exact B1|]. split; [exact B2|]. split.
  - intros Hl Hturns. destruct B2 as (_ & _ & Hfin & _ & Hthrew).
    rewrite E2 in Hfin. specialize (Hfin Hturns).
    unfold finished, returned_null, has_lock in *.
    destruct (call_phase (second sys)); try discriminate; try reflexivity;
      [exfalso; apply Hmutex; split; [assumption | reflexivity] | contradiction].
  - intros Hl Hturns. destruct B1 as (_ & _ & Hfin & _ & Hthrew).
    rewrite E1 in Hfin. specialize (Hfin Hturns).
    unfold finished, returned_null, has_lock in *.
    destruct (call_phase (first sys)); try discriminate; try reflexivity;
      [exfalso; apply Hmutex; split; [reflexivity | assumption] | contradiction].
Qed.

Lemma contended_within_leases :
  within_leases (call_options (first contended)) (call_options (second contended))
    1000 contended_schedule.
Proof.
  unfold within_leases, contended_schedule.
  repeat (constructor; [split; [reflexivity | apply Z.leb_le; reflexivity]|]).
  constructor.
Defined.

(** Two callers, three retries each, leases of 30 seconds: the first gets
    the lock at once, the second returns [null] after four attempts. *)
Lemma C3_contention_witness :
  let sys := run contended_schedule contended in
  ¬ (has_lock (first sys) = true ∧ has_lock (second sys) = true)
  ∧ call_options (first sys) = call_options (first contended)
  ∧ call_options (second sys) = call_options (second contended)
  ∧ call_bounded (first sys) (turns true contended_schedule)
  ∧ call_bounded (second sys) (turns false contended_schedule)
  ∧ (has_lock (first sys) = true →
     (S (r_retries (call_options (second contended)))
      <= turns false contended_schedule)%nat →
     returned_null (second sys) = true)
  ∧ (has_lock (second sys) = true →
     (S (r_retries (call_options (first contended)))
      <= turns true contended_schedule)%nat →
     returned_null (first sys) = true).
Proof.
  apply (C3_at_most_one_call_gets_the_lock "job"
           {| opt_ttl := None; opt_retries := Some 3%nat;
              opt_retryDelay := None; opt_value := None |}
           {| opt_ttl := None; opt_retries := Some 3%nat;
              opt_retryDelay := None; opt_value := None |}
           "9f86d081884c7d65" "2c26b46b68ffc68f" 1000
           {| redis := ∅; activeLocks := ∅ |} contended_schedule).
  exact contended_within_leases.
Defined.

Example contention_outcome :
  let sys := run contended_schedule contended in
  has_lock (first sys) = true ∧ call_phase (second sys) = ReturnedNull
  ∧ sent (second sys) = [ "2c26b46b68ffc68f"; "2c26b46b68ffc68f";
                          "2c26b46b68ffc68f"; "2c26b46b68ffc68f" ]
  ∧ slept (second sys) = [50; 100; 150].
Proof. vm_compute. repeat split. Qed.

(** C3, as stated, fails in two places. A call that finds the key held
    through three attempts sends the same token three times, the one drawn
    when the call started, not a fresh one per attempt. And of two calls
    with leases of 10 milliseconds both get a lock, the second at its
    retry after 50 milliseconds, when the lease of the first has run
    out. *)
Lemma C3_attempts_share_one_token :
  let o := {| opt_ttl := None; opt_retries := Some 2%nat;
              opt_retryDelay := None; opt_value := None |} in
  let c := snd (run_alone 3 0 held_elsewhere (start_call "job" o "9f86d081884c7d65")) in
  let sys := run [ (true, 0); (false, 1); (false, 51) ] short_leases in
  (call_phase c = ReturnedNull
   ∧ sent c = [ "9f86d081884c7d65"; "9f86d081884c7d65"; "9f86d081884c7d65" ]
   ∧ ¬ NoDup (sent c)
   ∧ acquireLock 0 held_elsewhere "job" o "9f86d081884c7d65" = (held_elsewhere, None))
  ∧ (has_lock (first sys) = true ∧ has_lock (second sys) = true).
Proof.
  vm_compute. repeat split.
  intros H. apply NoDup_cons in H as [H _]. apply H. left.
Qed.

End LockFacts.

(** ** Facts about the upstream 4xx handler *)

Module HealthFacts.
Import JsString Health.

Lemma truthy_string_Some s : s ≠ "" → truthy_string (Some s) = Some s.
Proof. intros H. cbn. now destruct (String.eqb_spec s ""). Qed.

Lemma stop_scheduling_account a code reason w data :
  a ≠ "" → accounts w !! a = Some data →
  ∃ data', accounts (_stopDroidAccountScheduling (Some a) code reason w) !! a
           = Some data' ∧ stopped data'.
Proof.
  intros Ha Hdata. unfold _stopDroidAccountScheduling.
  rewrite truthy_string_Some by assumption. cbn [updateAccount accounts].
  rewrite lookup_alter_eq, Hdata. cbn. eexists. split; [reflexivity|]. now split.
Qed.

Lemma stop_scheduling_frame a code reason w :
  sticky (_stopDroidAccountScheduling a code reason w) = sticky w
  ∧ apiKeys (_stopDroidAccountScheduling a code reason w) = apiKeys w.
Proof. unfold _stopDroidAccountScheduling. now destruct (truthy_string a). Qed.

Lemma clear_account_mapping ep sh cid w :
  sh ≠ "" →
  sticky (_clearAccountStickyMapping ep (Some sh) cid w)
  = delete (account_sticky_key ep sh cid) (sticky w)
  ∧ accounts (_clearAccountStickyMapping ep (Some sh) cid w) = accounts w
  ∧ apiKeys (_clearAccountStickyMapping ep (Some sh) cid w) = apiKeys w.
Proof.
  intros H. unfold _clearAccountStickyMapping.
  now rewrite truthy_string_Some by assumption.
Qed.

Lemma clear_key_mapping a ep sh w :
  a ≠ "" → sh ≠ "" →
  sticky (_clearApiKeyStickyMapping (Some a) ep (Some sh) w)
  = delete (API_KEY_STICKY_PREFIX +:+ ":" +:+ a +:+ ":"
            +:+ _normalizeEndpointType ep +:+ ":" +:+ sh) (sticky w)
  ∧ accounts (_clearApiKeyStickyMapping (Some a) ep (Some sh) w) = accounts w
  ∧ apiKeys (_clearApiKeyStickyMapping (Some a) ep (Some sh) w) = apiKeys w.
Proof.
  intros Ha Hs. unfold _clearApiKeyStickyMapping, _composeApiKeyStickyKey.
  now rewrite !truthy_string_Some by assumption.
Qed.

Lemma mark_entries a k msg w :
  apiKeys (fst (markApiKeyAsError a k msg w)) !! a
  = map (marked k msg) <$> apiKeys w !! a.
Proof. cbn. now rewrite lookup_alter_eq. Qed.

Lemma no_active_entries entries :
  (length (List.filter (fun e => negb (String.eqb (entry_status e) "error")) entries)
   =? 0)%nat
  = all_in_error entries.
Proof.
  unfold all_in_error. induction entries as [|e entries IH]; [reflexivity|].
  cbn. destruct (String.eqb (entry_status e) "error"); cbn; [exact IH | reflexivity].
Qed.

Lemma truthy_string_nonempty s t : truthy_string s = Some t → t ≠ "".
Proof.
  destruct s as [u|]; [|discriminate]. cbn.
  destruct (String.eqb_spec u ""); [discriminate|]. now intros [= <-].
Qed.

Lemma extracted_id_nonempty account a : _extractAccountId account = Some a → a ≠ "".
Proof.
  unfold _extractAccountId. destruct account as [acc|]; [|discriminate].
  destruct (truthy_string (id acc)) eqn:E1;
    [intros [= <-]; now apply (truthy_string_nonempty _ _ E1)|].
  destruct (truthy_string (accountId acc)) eqn:E2;
    [intros [= <-]; now apply (truthy_string_nonempty _ _ E2)|].
  apply truthy_string_nonempty.
Qed.

Lemma auth_error_branch code ctx a w :
  code = 401 ∨ code = 403 → _extractAccountId (account ctx) = Some a →
  _handleUpstreamClientError code ctx w = on_auth_error code ctx a w.
Proof.
  intros Hcode Ha. unfold _handleUpstreamClientError. rewrite Ha.
  destruct Hcode as [-> | ->]; reflexivity.
Qed.

Section AuthError.

Variable code : Z.
Variable ctx : context.
Variable a : string.
Variable sh : string.
Variable w : world.

Hypothesis Hid : a ≠ "".
Hypothesis Hsession : sessionHash ctx = Some sh.
Hypothesis Hsh : sh ≠ "".

Let w' := on_auth_error code ctx a w.

(** Token mode: the account is taken out of scheduling and the mapping of
    the session to the account is deleted. *)
Lemma token_mode_outcome :
  pool_mode ctx = false →
  sticky w' = delete (account_mapping ctx sh) (sticky w)
  ∧ apiKeys w' = apiKeys w
  ∧ ∀ data, accounts w !! a = Some data →
            ∃ data', accounts w' !! a = Some data' ∧ stopped data'.
Proof.
  unfold pool_mode, w', on_auth_error. intros ->. rewrite Hsession.
  destruct (clear_account_mapping (Some (normalized_endpoint ctx)) sh
              (clientApiKeyId ctx)
              (_stopDroidAccountScheduling (Some a) code "凭证认证失败" w) Hsh)
    as (-> & -> & ->).
  destruct (stop_scheduling_frame (Some a) code "凭证认证失败" w) as [-> ->].
  repeat split. intros data Hdata. now apply (stop_scheduling_account _ _ _ _ data).
Qed.

(** Pool mode: the key is marked, the mapping of the session to the key is
    deleted; the account is taken out of scheduling and loses the mapping
    of the session exactly when no key of the pool is left. *)
Lemma pool_mode_outcome k :
  pool_mode ctx = true → selectedAccountApiKey ctx = Some k → k ≠ "" →
  let message := "认证失败: " +:+ status_text code in
  let entries := map (marked k message) (getDecryptedApiKeyEntries a w) in
  getDecryptedApiKeyEntries a w' = entries
  ∧ sticky w' !! key_mapping ctx a sh = None
  ∧ (all_in_error entries = true →
       sticky w' = delete (account_mapping ctx sh)
                     (delete (key_mapping ctx a sh) (sticky w))
       ∧ ∀ data, accounts w !! a = Some data →
                 ∃ data', accounts w' !! a = Some data' ∧ stopped data')
  ∧ (all_in_error entries = false →
       sticky w' = delete (key_mapping ctx a sh) (sticky w)
       ∧ accounts w' = accounts w).
Proof.
  unfold pool_mode, w', on_auth_error. intros -> Hk Hkne. cbv zeta.
  rewrite Hk, Hsession, truthy_string_Some by assumption.
  set (message := "认证失败: " +:+ status_text code).
  destruct (markApiKeyAsError a k message w) as [w1 r] eqn:Emark.
  assert (Hw1 : w1 = fst (markApiKeyAsError a k message w)) by now rewrite Emark.
  assert (Hkeys1 : getDecryptedApiKeyEntries a w1
                   = map (marked k message) (getDecryptedApiKeyEntries a w)).
  { unfold getDecryptedApiKeyEntries. rewrite Hw1, mark_entries.
    now destruct (apiKeys w !! a). }
  assert (Hsticky1 : sticky w1 = sticky w) by now rewrite Hw1.
  assert (Hacc1 : accounts w1 = accounts w) by now rewrite Hw1.
  set (w2 := _clearApiKeyStickyMapping (Some a) (Some (normalized_endpoint ctx))
               (Some sh) w1).
  destruct (clear_key_mapping a (Some (normalized_endpoint ctx)) sh w1 Hid Hsh)
    as (Hs2 & Ha2 & Hk2). fold w2 in Hs2, Ha2, Hk2.
  fold (key_mapping ctx a sh) in Hs2.
  assert (Hkeys2 : getDecryptedApiKeyEntries a w2
                   = map (marked k message) (getDecryptedApiKeyEntries a w)).
  { unfold getDecryptedApiKeyEntries in *. now rewrite Hk2. }
  rewrite no_active_entries, Hkeys2.
  destruct (all_in_error (map (marked k message) (getDecryptedApiKeyEntries a w)))
    eqn:Eall.
  - destruct (clear_account_mapping (Some (normalized_endpoint ctx)) sh
                (clientApiKeyId ctx)
                (_stopDroidAccountScheduling (Some a) code
                   "所有API Key均已异常" w2) Hsh)
      as (Hs3 & Ha3 & Hk3).
    destruct (stop_scheduling_frame (Some a) code "所有API Key均已异常" w2)
      as [Hs4 Hk4].
    fold (account_mapping ctx sh) in Hs3.
    repeat split.
    + unfold getDecryptedApiKeyEntries in *. now rewrite Hk3, Hk4.
    + rewrite Hs3, Hs4, Hs2.
      destruct (decide (account_mapping ctx sh = key_mapping ctx a sh)) as [->|Hne].
      * apply lookup_delete_eq.
      * rewrite lookup_delete_ne by assumption. apply lookup_delete_eq.
    + now rewrite Hs3, Hs4, Hs2, Hsticky1.
    + intros data Hdata. rewrite Ha3.
      apply (stop_scheduling_account _ _ _ _ data); [assumption|].
      now rewrite Ha2, Hacc1.
    + discriminate.
    + discriminate.
  - repeat split; try discriminate.
    + assumption.
    + rewrite Hs2. apply lookup_delete_eq.
    + now rewrite Hs2, Hsticky1.
    + now rewrite Ha2, Hacc1.
Qed.

End AuthError.

(** C5, as amended: on 401 and 403, for an account with an id and a
    request with a session. In token mode the account is taken out of
    scheduling (schedulable false, status error) and the mapping of the
    session to the account is deleted. In pool mode the key that was used
    is marked error and the mapping of the session to that key is deleted;
    when no key of the pool is left with another status, the account is
    taken out of scheduling and the mapping of the session to the account
    is deleted too, and otherwise the account and that mapping stay as
    they are. *)
Theorem C5_credential_rejected
    (code : Z) (ctx : context) (a sh : string) (w : world) :
  code = 401 ∨ code = 403 → _extractAccountId (account ctx) = Some a →
  sessionHash ctx = Some sh → sh ≠ "" →
  let w' := _handleUpstreamClientError code ctx w in
  (pool_mode ctx = false →
     sticky w' = delete (account_mapping ctx sh) (sticky w)
     ∧ apiKeys w' = apiKeys w
     ∧ ∀ data, accounts w !! a = Some data →
               ∃ data', accounts w' !! a = Some data' ∧ stopped data')
  ∧ (∀ k, pool_mode ctx = true → selectedAccountApiKey ctx = Some k → k ≠ "" →
     let entries := map (marked k ("认证失败: " +:+ status_text code))
                      (getDecryptedApiKeyEntries a w) in
     getDecryptedApiKeyEntries a w' = entries
     ∧ sticky w' !! key_mapping ctx a sh = None
     ∧ (all_in_error entries = true →
          sticky w' = delete (account_mapping ctx sh)
                        (delete (key_mapping ctx a sh) (sticky w))
          ∧ ∀ data, accounts w !! a = Some data →
                    ∃ data', accounts w' !! a = Some data' ∧ stopped data')
     ∧ (all_in_error entries = false →
          sticky w' = delete (key_mapping ctx a sh) (sticky w)
          ∧ accounts w' = accounts w)).
Proof.
  intros Hcode Ha Hs Hsh. cbv zeta.
  pose proof (extracted_id_nonempty _ _ Ha) as Hid.
  rewrite (auth_error_branch code ctx a w Hcode Ha). split.
  - now apply token_mode_outcome.
  - intros k. now apply pool_mode_outcome.
Qed.

(** The scenario of the specification: a 401 for a pool account with three
    keys of which two are in error already. *)
Lemma C5_last_key_witness :
  let ctx := pool_context "k3" in
  let w := last_key_world in
  let w' := _handleUpstreamClientError 401 ctx w in
  (pool_mode ctx = false →
     sticky w' = delete (account_mapping ctx "5d41402abc4b2a76") (sticky w)
     ∧ apiKeys w' = apiKeys w
     ∧ ∀ data, accounts w !! "droid-1" = Some data →
               ∃ data', accounts w' !! "droid-1" = Some data' ∧ stopped data')
  ∧ (∀ k, pool_mode ctx = true → selectedAccountApiKey ctx = Some k → k ≠ "" →
     let entries := map (marked k ("认证失败: " +:+ status_text 401))
                      (getDecryptedApiKeyEntries "droid-1" w) in
     getDecryptedApiKeyEntries "droid-1" w' = entries
     ∧ sticky w' !! key_mapping ctx "droid-1" "5d41402abc4b2a76" = None
     ∧ (all_in_error entries = true →
          sticky w' = delete (account_mapping ctx "5d41402abc4b2a76")
                        (delete (key_mapping ctx "droid-1" "5d41402abc4b2a76")
                           (sticky w))
          ∧ ∀ data, accounts w !! "droid-1" = Some data →
                    ∃ data', accounts w' !! "droid-1" = Some data' ∧ stopped data')
     ∧ (all_in_error entries = false →
          sticky w' = delete (key_mapping ctx "droid-1" "5d41402abc4b2a76") (sticky w)
          ∧ accounts w' = accounts w)).
Proof.
  apply (C5_credential_rejected 401 (pool_context "k3") "droid-1"
           "5d41402abc4b2a76" last_key_world).
  - left. reflexivity.
  - reflexivity.
  - reflexivity.
  - discriminate.
Defined.

Example last_key_scenario :
  let w' := _handleUpstreamClientError 401 (pool_context "k3") last_key_world in
  apiKeys w' !! "droid-1"
  = Some [ key_entry "k1" "error"; key_entry "k2" "error";
           {| entry_id := "k3"; entry_status := "error";
              entry_error := "认证失败: 401" |} ]
  ∧ accounts w' !! "droid-1"
    = Some {| schedulable := "false"; status := "error";
              errorMessage := "上游返回 401：所有API Key均已异常" |}
  ∧ sticky w' = ∅.
Proof. vm_compute. repeat split. Qed.

(** C5, as stated, fails in two places. It has the sticky mapping of the
    session cleared in every case: after a 401 for a key of a pool that has
    another active key, the session is still mapped to the account, which
    stays in scheduling; only its mapping to the key is gone. And it has
    the account set to the status disabled: an account whose last key was
    rejected is left with the status error and the flag schedulable
    false. *)
Lemma C5_account_mapping_survives :
  let ctx := pool_context "k1" in
  let w' := _handleUpstreamClientError 401 ctx spare_key_world in
  let w'' := _handleUpstreamClientError 401 (pool_context "k3") last_key_world in
  (account_mapping ctx "5d41402abc4b2a76" = "droid:anthropic:client-7:5d41402abc4b2a76"
   ∧ sticky spare_key_world !! account_mapping ctx "5d41402abc4b2a76" = Some "droid-1"
   ∧ sticky w' !! account_mapping ctx "5d41402abc4b2a76" = Some "droid-1"
   ∧ sticky w' !! key_mapping ctx "droid-1" "5d41402abc4b2a76" = None
   ∧ accounts w' !! "droid-1"
     = Some {| schedulable := "true"; status := "active"; errorMessage := "" |})
  ∧ (status <$> accounts w'' !! "droid-1" = Some "error"
     ∧ status <$> accounts w'' !! "droid-1" ≠ Some "disabled").
Proof. vm_compute. repeat split. discriminate. Qed.

End HealthFacts.

(** ** Facts about the network error mapping *)

Module NetworkErrorFacts.
Import JsString NetworkError.

Lemma code_category_none code :
  code ≠ "ECONNABORTED" → code ≠ "ETIMEDOUT" → code ≠ "ECONNRESET" →
  code ≠ "EPIPE" → code ≠ "ENOTFOUND" → code ≠ "EAI_AGAIN" →
  code ≠ "ECONNREFUSED" → code ≠ "CERT_HAS_EXPIRED" →
  code ≠ "UNABLE_TO_VERIFY_LEAF_SIGNATURE" → code ≠ "ENETUNREACH" →
  code ≠ "EHOSTUNREACH" → code_category code = None.
Proof.
  intros. unfold code_category.
  repeat (rewrite bool_decide_eq_false_2;
          [| rewrite ?elem_of_cons, elem_of_nil; tauto]).
  reflexivity.
Qed.

(** The message table of the code and the message categories agree. *)
Lemma message_status message :
  (if includes message "timeout" then
     if includes message "gateway" || includes message "upstream"
     then 504 else 408
   else if includes message "certificate" || includes message "ssl"
           || includes message "tls" then 502
   else if includes message "refused" || includes message "unavailable" then 503
   else if includes message "dependency" || includes message "upstream failed"
   then 424
   else 502) = code_status (message_category message).
Proof.
  unfold message_category.
  repeat match goal with
         | |- context [if ?b then _ else _] => destruct b
         end; reflexivity.
Qed.

(** C7, as amended: the status is decided by the error code first and by
    the lower-cased message otherwise; request timeouts give 408, timeouts
    labelled gateway or upstream 504, connection failures 503, DNS and
    certificate failures 502, a failed dependency 424, and every other
    error 502. *)
Theorem C7_network_status_table error :
  _mapNetworkErrorStatus error = code_status (classify error).
Proof.
  unfold _mapNetworkErrorStatus, classify.
  set (code := error_code error).
  destruct (String.eqb_spec code "ECONNABORTED") as [->|]; [reflexivity|].
  destruct (String.eqb_spec code "ETIMEDOUT") as [->|]; [reflexivity|].
  destruct (String.eqb_spec code "ECONNRESET") as [->|]; [reflexivity|].
  destruct (String.eqb_spec code "EPIPE") as [->|]; [reflexivity|].
  destruct (String.eqb_spec code "ENOTFOUND") as [->|]; [reflexivity|].
  destruct (String.eqb_spec code "EAI_AGAIN") as [->|]; [reflexivity|].
  destruct (String.eqb_spec code "ECONNREFUSED") as [->|]; [reflexivity|].
  destruct (String.eqb_spec code "CERT_HAS_EXPIRED") as [->|]; [reflexivity|].
  destruct (String.eqb_spec code "UNABLE_TO_VERIFY_LEAF_SIGNATURE") as [->|];
    [reflexivity|].
  destruct (String.eqb_spec code "ENETUNREACH") as [->|]; [reflexivity|].
  destruct (String.eqb_spec code "EHOSTUNREACH") as [->|]; [reflexivity|].
  rewrite code_category_none by assumption. cbn [orb].
  destruct error as [|c m]; [reflexivity|].
  apply message_status.
Qed.

(** C7, as stated, fails: an error without a code whose message reports a
    failed dependency belongs to none of the four named categories, and the
    code answers 424 where the stated default is 502. *)
Lemma C7_default_is_not_always_502 :
  let error := ErrObject None (Some "dependency failed") in
  classify error = FailedDependency ∧
  _mapNetworkErrorStatus error = 424 ∧
  _mapNetworkErrorStatus error ≠ spec_status (classify error).
Proof. vm_compute. repeat split; discriminate. Qed.

End NetworkErrorFacts.

(** ** Facts about the body of a network error *)

Module NetworkErrorBodyFacts.
Import JsString Js JsFacts NetworkError NetworkErrorBody.

Lemma body_error error url :
  obj_get "error" (_buildNetworkErrorBody error url) = VStr (errorType (diagnose error)).
Proof.
  unfold _buildNetworkErrorBody. cbv zeta.
  destruct (nonempty url); destruct (nonempty (code_of error));
    destruct (0 <? length (suggestions (diagnose error)))%nat;
    rewrite ?obj_get_set_ne by discriminate; reflexivity.
Qed.

Lemma body_suggestions error url :
  obj_get "suggestions" (_buildNetworkErrorBody error url)
  = if (0 <? length (suggestions (diagnose error)))%nat
    then VArr (VStr <$> suggestions (diagnose error)) else VUndefined.
Proof.
  unfold _buildNetworkErrorBody. cbv zeta.
  destruct (nonempty url); destruct (nonempty (code_of error));
    destruct (0 <? length (suggestions (diagnose error)))%nat;
    rewrite ?obj_get_set_ne by discriminate; reflexivity.
Qed.

Lemma body_has_suggestions error url :
  obj_has "suggestions" (_buildNetworkErrorBody error url)
  = (0 <? length (suggestions (diagnose error)))%nat.
Proof.
  unfold _buildNetworkErrorBody. cbv zeta.
  destruct (nonempty url); destruct (nonempty (code_of error));
    destruct (0 <? length (suggestions (diagnose error)))%nat;
    rewrite ?obj_has_set; reflexivity.
Qed.

Lemma body_code error url :
  obj_get "code" (_buildNetworkErrorBody error url)
  = from_option VStr VUndefined (nonempty (code_of error)).
Proof.
  unfold _buildNetworkErrorBody. cbv zeta.
  destruct (nonempty url); destruct (nonempty (code_of error));
    destruct (0 <? length (suggestions (diagnose error)))%nat;
    rewrite ?obj_get_set_ne by discriminate; reflexivity.
Qed.

Lemma body_details error url :
  obj_get "details" (_buildNetworkErrorBody error url)
  = VStr (default "未知错误" (nonempty (message_of error))).
Proof.
  unfold _buildNetworkErrorBody. cbv zeta.
  destruct (nonempty url); destruct (nonempty (code_of error));
    destruct (0 <? length (suggestions (diagnose error)))%nat;
    rewrite ?obj_get_set_ne by discriminate; reflexivity.
Qed.

(** The message of an error, as the two functions read it. *)
Lemma message_read (m : option string) :
  error_message m = toLowerCase (default "" (nonempty m))
  ∧ (nonempty m = None → error_message m = "").
Proof.
  unfold error_message. destruct m as [s|]; cbn; [|auto].
  destruct (String.eqb_spec s "") as [->|]; auto. split; [reflexivity | discriminate].
Qed.

(** Case analysis on the code of an error, then on what its message
    mentions; [known] settles the case of a code of the table. *)
Ltac code_case code name known :=
  destruct (String.eqb_spec code name) as [->|]; [solve [known]|].

Ltac by_code error known :=
  unfold diagnose, _mapNetworkErrorStatus;
  set (code := error_code error);
  code_case code "ECONNABORTED" known;
  code_case code "ETIMEDOUT" known;
  code_case code "ECONNRESET" known;
  code_case code "EPIPE" known;
  code_case code "ENOTFOUND" known;
  code_case code "EAI_AGAIN" known;
  code_case code "ECONNREFUSED" known;
  code_case code "CERT_HAS_EXPIRED" known;
  code_case code "UNABLE_TO_VERIFY_LEAF_SIGNATURE" known;
  code_case code "ENETUNREACH" known;
  code_case code "EHOSTUNREACH" known;
  cbn [orb].

Ltac by_message error :=
  unfold diagnose_message;
  destruct error as [|c m]; cbn [message_of errorType suggestions undiagnosed];
  [| destruct (message_read m) as [Hm Hnone]; rewrite ?Hm;
     destruct (nonempty m) as [s|];
     cbn [from_option id errorType suggestions undiagnosed];
     [ repeat (match goal with
               | |- context [if includes ?a ?b then _ else _] =>
                   destruct (includes a b)
               | |- context [if includes ?a ?b || _ then _ else _] =>
                   destruct (includes a b)
               | |- context [if includes ?a ?b || _ || _ then _ else _] =>
                   destruct (includes a b)
               end;
               cbn [orb errorType suggestions])
     | ] ].

Ltac settle :=
  cbn;
  repeat split; try reflexivity;
  repeat match goal with
         | |- _ → _ => intro
         | H : _ ∨ _ |- _ => destruct H
         | H : _ ∧ _ |- _ => destruct H
         end;
  try congruence; try lia; auto.

(** X1: the type of error in the body and the status go together. The
    type is [timeout] exactly when the status is 408 or 504; a DNS or
    certificate error goes with 502; a connection that was reset or
    refused, a broken pipe and an unreachable network go with 503. *)
Theorem network_error_type_and_status_agree (error : jserror) (url : option string) :
  let status := fst (network_error_response error url) in
  let type := obj_get "error" (snd (network_error_response error url)) in
  (type = VStr "timeout" ↔ status = 408 ∨ status = 504)
  ∧ (type = VStr "dns_error" ∨ type = VStr "certificate_error" → status = 502)
  ∧ (type = VStr "connection_reset" ∨ type = VStr "connection_refused"
     ∨ type = VStr "broken_pipe" ∨ type = VStr "network_unreachable" →
     status = 503).
Proof.
  cbv zeta. unfold network_error_response. cbn [fst snd]. rewrite body_error.
  by_code error settle.
  by_message error; settle.
Qed.

(** X2: the body always carries a type, a message and the details; the
    details are the message of the error, or a fixed text when it has
    none; the code of the error is passed on as it came; and suggestions
    are there, and not empty, exactly when the error was given a type other
    than [network_error]. *)
Theorem network_error_body_shape (error : jserror) (url : option string) :
  let body := _buildNetworkErrorBody error url in
  (∃ type message, obj_get "error" body = VStr type
                   ∧ obj_get "message" body = VStr message)
  ∧ obj_get "details" body = VStr (default "未知错误" (nonempty (message_of error)))
  ∧ obj_get "code" body = from_option VStr VUndefined (nonempty (code_of error))
  ∧ (obj_has "suggestions" body = true ↔ obj_get "error" body ≠ VStr "network_error")
  ∧ (obj_has "suggestions" body = true →
     ∃ first rest, obj_get "suggestions" body = VArr (VStr first :: rest)).
Proof.
  cbv zeta.
  rewrite body_details, body_code, body_has_suggestions, body_suggestions, body_error.
  split; [|split; [reflexivity|split; [reflexivity|]]].
  - eexists _, (friendlyMessage (diagnose error)). split; [reflexivity|].
    unfold _buildNetworkErrorBody. cbv zeta.
    destruct (nonempty url); destruct (nonempty (code_of error));
      destruct (0 <? length (suggestions (diagnose error)))%nat;
      rewrite ?obj_get_set_ne by discriminate; reflexivity.
  - assert (H : (errorType (diagnose error) = "network_error"
                 ∧ suggestions (diagnose error) = [])
                ∨ (errorType (diagnose error) ≠ "network_error"
                   ∧ ∃ s l, suggestions (diagnose error) = s :: l)).
    { by_code error ltac:(right; split; [discriminate | eauto]).
      by_message error;
        solve [left; split; reflexivity | right; split; [discriminate | eauto]]. }
    destruct H as [[-> ->] | [Hne (s & l & ->)]]; cbn.
    + split; [split; [discriminate | congruence] | discriminate].
    + split; [split; [congruence | reflexivity] | eauto].
Qed.

End NetworkErrorBodyFacts.

(** ** Facts about model names *)

Module ModelsFacts.
Import JsString Js JsFacts Models.

(** *** Substrings *)

Lemma prefix_app p s : String.prefix p s = true ↔ ∃ b, s = p +:+ b.
Proof.
  revert s. induction p as [|c p IH]; intros s.
  - split; [intros _; exists s; now rewrite append_nil_l | now destruct s].
  - destruct s as [|c' s]; cbn.
    + split; [discriminate | intros [b Hb]; rewrite append_cons in Hb; discriminate].
    + destruct (Ascii.ascii_dec c c') as [<-|Hne].
      * rewrite IH. split; intros [b Hb]; exists b.
        -- now rewrite append_cons, Hb.
        -- rewrite append_cons in Hb. now injection Hb.
      * split; [discriminate|]. intros [b Hb]. rewrite append_cons in Hb.
        injection Hb as Hc _. congruence.
Qed.

Lemma includes_spec s p : includes s p = true ↔ ∃ a b, s = a +:+ (p +:+ b).
Proof.
  induction s as [|c s IH]; cbn [includes].
  - rewrite orb_false_r, prefix_app. split.
    + intros [b Hb]. exists "", b. now rewrite append_nil_l.
    + intros (a & b & H). destruct a as [|c a]; [|rewrite append_cons in H; discriminate].
      rewrite append_nil_l in H. eauto.
  - rewrite orb_true_iff, prefix_app, IH. split.
    + intros [[b Hb] | (a & b & Hab)].
      * exists "", b. now rewrite append_nil_l.
      * exists (String c a), b. now rewrite append_cons, Hab.
    + intros (a & b & H). destruct a as [|c' a].
      * left. exists b. now rewrite append_nil_l in H.
      * right. rewrite append_cons in H. injection H as _ H. eauto.
Qed.

Lemma includes_trans s p q :
  includes s p = true → includes p q = true → includes s q = true.
Proof.
  rewrite !includes_spec. intros (a & b & ->) (c & d & ->).
  exists (a +:+ c), (d +:+ b). now rewrite !append_assoc.
Qed.

Lemma includes_false s p q :
  includes p q = true → includes s q = false → includes s p = false.
Proof.
  intros Hpq Hsq. destruct (includes s p) eqn:E; [|reflexivity].
  now rewrite (includes_trans _ _ _ E Hpq) in Hsq.
Qed.

(** *** Validation *)

Lemma valid_supported model endpointType :
  valid model endpointType = true ↔ model ∈ supportedModels endpointType.
Proof.
  unfold valid, _validateModel. rewrite list_elem_of_In.
  destruct (String.eqb_spec model "") as [->|Hne].
  - split; [discriminate|]. unfold supportedModels.
    repeat (destruct (String.eqb endpointType _)); cbn; intuition discriminate.
  - destruct (existsb _ _) eqn:E.
    + split; [intros _|reflexivity]. apply existsb_exists in E as (m & Hin & Heq).
      now apply String.eqb_eq in Heq as ->.
    + split; [discriminate|]. intros Hin.
      assert (existsb (String.eqb model) (supportedModels endpointType) = true);
        [|congruence].
      apply existsb_exists. exists model. split; [assumption | apply String.eqb_refl].
Qed.

(** The supported names have no white space around them. *)
Lemma supported_trimmed model endpointType :
  model ∈ supportedModels endpointType → trim model = model.
Proof.
  unfold supportedModels.
  destruct (String.eqb endpointType "anthropic");
    [|destruct (String.eqb endpointType "openai")];
    rewrite ?elem_of_cons, elem_of_nil; intros H;
    repeat (destruct H as [->|H]; [reflexivity|]); contradiction.
Qed.

Lemma obj_set_keys k v o : obj_has k o = true → fst <$> obj_set k v o = fst <$> o.
Proof.
  induction o as [|[k' v'] o IH]; [discriminate|]. cbn.
  destruct (String.eqb k' k); cbn; [reflexivity|]. intros H. now rewrite IH.
Qed.

Lemma obj_get_has k o : obj_get k o ≠ VUndefined → obj_has k o = true.
Proof.
  intros H. destruct (obj_has k o) eqn:E; [reflexivity|].
  now rewrite obj_has_false_get in H.
Qed.

(** What [_normalizeRequestBody] does, in one of two ways. *)
Lemma normalize_cases requestBody endpointType :
  _normalizeRequestBody requestBody endpointType = requestBody
  ∨ ∃ model mappedModel,
      obj_get "model" requestBody = VStr model
      ∧ valid (trim model) endpointType = false
      ∧ _tryMapModel (trim model) endpointType = Target mappedModel
      ∧ valid mappedModel endpointType = true
      ∧ _normalizeRequestBody requestBody endpointType
        = obj_set "model" (VStr mappedModel) requestBody.
Proof.
  unfold _normalizeRequestBody.
  destruct (obj_get "model" requestBody) as [| | | |model| |] eqn:Em; auto.
  destruct (valid (trim model) endpointType) eqn:Ev; auto.
  destruct (_tryMapModel (trim model) endpointType) as [mappedModel| |] eqn:Et; auto.
  destruct (valid mappedModel endpointType) eqn:Ev'; auto.
  right. exists model, mappedModel. auto.
Qed.

(** X3: the relay rewrites nothing of a request but the name of the
    model: the body keeps its properties, in their order, and their values
    but for [model]; the model is left as it is when, trimmed, it is
    supported or cannot be mapped, and is replaced by a supported model
    otherwise. *)
Theorem normalized_body_keeps_all_but_the_model
    (requestBody : object) (endpointType : string) :
  let normalizedBody := _normalizeRequestBody requestBody endpointType in
  fst <$> normalizedBody = fst <$> requestBody
  ∧ (∀ k, k ≠ "model" → obj_get k normalizedBody = obj_get k requestBody)
  ∧ (∀ model, obj_get "model" requestBody = VStr model →
     valid (trim model) endpointType = true → normalizedBody = requestBody)
  ∧ (obj_get "model" normalizedBody = obj_get "model" requestBody
     ∨ ∃ mappedModel, obj_get "model" normalizedBody = VStr mappedModel
                      ∧ mappedModel ∈ supportedModels endpointType).
Proof.
  cbv zeta.
  destruct (normalize_cases requestBody endpointType)
    as [-> | (model & mappedModel & Em & Ev & Et & Ev' & ->)].
  - repeat split; auto.
  - split; [|split; [|split]].
    + apply obj_set_keys, obj_get_has. rewrite Em. discriminate.
    + intros k Hk. apply obj_get_set_ne. congruence.
    + intros model' Em' Hv. rewrite Em in Em'. injection Em' as <-. congruence.
    + right. exists mappedModel. split; [apply obj_get_set_eq|].
      now apply valid_supported.
Qed.

(** X4: normalising the body of a request twice gives what normalising it
    once gives. *)
Theorem normalizing_the_model_is_idempotent
    (requestBody : object) (endpointType : string) :
  _normalizeRequestBody (_normalizeRequestBody requestBody endpointType) endpointType
  = _normalizeRequestBody requestBody endpointType.
Proof.
  destruct (normalize_cases requestBody endpointType)
    as [E | (model & mappedModel & Em & Ev & Et & Ev' & ->)]; [now rewrite !E|].
  unfold _normalizeRequestBody at 1. rewrite obj_get_set_eq.
  apply valid_supported in Ev' as Hin.
  now rewrite (supported_trimmed _ _ Hin), Ev'.
Qed.

(** *** The families of the Anthropic table *)

Ltac own_key l key :=
  destruct (String.eqb_spec key l) as [<-|]; [vm_compute; reflexivity|].

(** X5: on the Anthropic endpoint the six patterns of the table come down
    to three families, tried in the order haiku, sonnet, opus: a name is
    mapped by the first of these words that its lower-case form contains,
    and is not mapped when it contains none. *)
Theorem anthropic_models_map_by_family (model : string) :
  model ≠ "" →
  let lowerModel := trim (toLowerCase model) in
  _tryMapModel model "anthropic"
  = if existsb (String.eqb lowerModel) inherited_properties then Inherited
    else from_option Target NoMapping (anthropic_family lowerModel).
Proof.
  intros Hne. cbv zeta. unfold _tryMapModel.
  destruct (String.eqb_spec model "") as [|_]; [contradiction|].
  set (l := trim (toLowerCase model)).
  unfold own_mapping.
  change (modelMappings "anthropic")
    with [ ("claude-3-5-haiku", "claude-3-5-haiku-20241022");
           ("haiku", "claude-3-5-haiku-20241022");
           ("sonnet", "claude-sonnet-4-5-20250929");
           ("claude-sonnet-4", "claude-sonnet-4-5-20250929");
           ("opus", "claude-opus-4-1-20250805");
           ("claude-opus-4", "claude-opus-4-1-20250805") ].
  cbn [List.find fst snd].
  own_key l "claude-3-5-haiku". own_key l "haiku". own_key l "sonnet".
  own_key l "claude-sonnet-4". own_key l "opus". own_key l "claude-opus-4".
  cbn [fmap option_fmap option_map].
  destruct (existsb (String.eqb l) inherited_properties); [reflexivity|].
  unfold anthropic_family.
  destruct (includes l "haiku") eqn:Eh.
  - now destruct (includes l "claude-3-5-haiku").
  - rewrite (includes_false l "claude-3-5-haiku" "haiku") by (reflexivity || assumption).
    destruct (includes l "sonnet") eqn:Es; [reflexivity|].
    rewrite (includes_false l "claude-sonnet-4" "sonnet") by (reflexivity || assumption).
    destruct (includes l "opus") eqn:Eo; [reflexivity|].
    now rewrite (includes_false l "claude-opus-4" "opus") by (reflexivity || assumption).
Qed.

(** A name of the haiku family that is not in the table. *)
Lemma anthropic_family_witness :
  let lowerModel := trim (toLowerCase "Claude-Haiku-4-5") in
  _tryMapModel "Claude-Haiku-4-5" "anthropic"
  = if existsb (String.eqb lowerModel) inherited_properties then Inherited
    else from_option Target NoMapping (anthropic_family lowerModel).
Proof. apply (anthropic_models_map_by_family "Claude-Haiku-4-5"). discriminate. Defined.

End ModelsFacts.

(** ** More facts about the upstream 4xx handler *)

Module ClientErrorFacts.
Import JsString Health HealthFacts.

(** *** What each step touches *)

Lemma clear_key_mapping_frame a ep sh w :
  let w' := _clearApiKeyStickyMapping a ep sh w in
  accounts w' = accounts w ∧ apiKeys w' = apiKeys w ∧ rateLimits w' = rateLimits w
  ∧ (sticky w' = sticky w
     ∨ ∃ a' sh', truthy_string a = Some a' ∧ truthy_string sh = Some sh'
                 ∧ sticky w' = delete (API_KEY_STICKY_PREFIX +:+ ":" +:+ a' +:+ ":"
                                       +:+ _normalizeEndpointType ep +:+ ":" +:+ sh')
                                 (sticky w)).
Proof.
  cbv zeta. unfold _clearApiKeyStickyMapping, _composeApiKeyStickyKey.
  destruct (truthy_string a) as [a'|]; [|auto].
  destruct (truthy_string sh) as [sh'|]; [|auto].
  cbn. repeat split. right. eauto.
Qed.

Lemma clear_account_mapping_frame ep sh cid w :
  let w' := _clearAccountStickyMapping ep sh cid w in
  accounts w' = accounts w ∧ apiKeys w' = apiKeys w ∧ rateLimits w' = rateLimits w
  ∧ (sticky w' = sticky w
     ∨ ∃ sh', truthy_string sh = Some sh'
              ∧ sticky w' = delete (account_sticky_key ep sh' cid) (sticky w)).
Proof.
  cbv zeta. unfold _clearAccountStickyMapping.
  destruct (truthy_string sh) as [sh'|]; [|auto].
  cbn. repeat split. right. eauto.
Qed.

Lemma stop_scheduling_footprint a code reason w :
  let w' := _stopDroidAccountScheduling a code reason w in
  sticky w' = sticky w ∧ apiKeys w' = apiKeys w ∧ rateLimits w' = rateLimits w
  ∧ ∀ a', accounts w' !! a' = accounts w !! a'
          ∨ (truthy_string a = Some a' ∧ ∃ data, accounts w' !! a' = Some data
                                                 ∧ stopped data).
Proof.
  cbv zeta. unfold _stopDroidAccountScheduling.
  destruct (truthy_string a) as [a0|]; [|auto].
  cbn [updateAccount sticky apiKeys rateLimits accounts]. repeat split.
  intros a'. destruct (decide (a0 = a')) as [->|Hne].
  - rewrite lookup_alter_eq. destruct (accounts w !! a') as [data|]; cbn; [|auto].
    right. split; [reflexivity|]. eexists. split; [reflexivity|]. now split.
  - left. now apply lookup_alter_ne.
Qed.

(** Both sticky mappings of a session are deleted, and nothing else
    changes. *)
Lemma clear_both_outcome ctx a sh w :
  a ≠ "" → sh ≠ "" →
  let w' := _clearAccountStickyMapping (Some (normalized_endpoint ctx)) (Some sh)
              (clientApiKeyId ctx)
              (_clearApiKeyStickyMapping (Some a) (Some (normalized_endpoint ctx))
                 (Some sh) w) in
  sticky w' = delete (account_mapping ctx sh) (delete (key_mapping ctx a sh) (sticky w))
  ∧ accounts w' = accounts w ∧ apiKeys w' = apiKeys w ∧ rateLimits w' = rateLimits w.
Proof.
  intros Ha Hsh. cbv zeta.
  unfold _clearAccountStickyMapping, _clearApiKeyStickyMapping, _composeApiKeyStickyKey.
  now rewrite !truthy_string_Some by assumption.
Qed.

(** X6: a 4xx answer other than 401 and 403 never costs the account
    anything: the account and its keys stay as they are, the two sticky
    mappings of the session are deleted so that the next request is
    balanced anew, and on 429 the account is marked as rate limited for
    300 seconds. *)
Theorem other_client_errors_spare_the_account
    (code : Z) (ctx : context) (a sh : string) (w : world) :
  400 <= code < 500 → code ≠ 401 → code ≠ 403 →
  _extractAccountId (account ctx) = Some a →
  sessionHash ctx = Some sh → sh ≠ "" →
  let w' := _handleUpstreamClientError code ctx w in
  accounts w' = accounts w ∧ apiKeys w' = apiKeys w
  ∧ sticky w' = delete (account_mapping ctx sh)
                  (delete (key_mapping ctx a sh) (sticky w))
  ∧ rateLimits w'
    = if code =? 429 then <["droid:ratelimit:" +:+ a := 300]> (rateLimits w)
      else rateLimits w.
Proof.
  intros Hcode H401 H403 Ha Hs Hsh. cbv zeta.
  pose proof (extracted_id_nonempty _ _ Ha) as Hid.
  unfold _handleUpstreamClientError. rewrite Ha, Hs.
  destruct (Z.eqb_spec code 0); [lia|].
  destruct (Z.ltb_spec code 400); [lia|].
  destruct (Z.leb_spec 500 code); [lia|]. cbn [orb].
  destruct (Z.eqb_spec code 401); [contradiction|].
  destruct (Z.eqb_spec code 403); [contradiction|]. cbn [orb].
  destruct (clear_both_outcome ctx a sh w Hid Hsh) as (Es & Ea & Ek & Er).
  destruct (clear_both_outcome ctx a sh (setex ("droid:ratelimit:" +:+ a) 300 w) Hid Hsh)
    as (Es' & Ea' & Ek' & Er').
  destruct (Z.eqb_spec code 429) as [->|_].
  - cbn [Z.eqb Pos.eqb]. now rewrite Es', Ea', Ek', Er'.
  - destruct (code =? 400); [|destruct (code =? 404)];
      now rewrite Es, Ea, Ek, Er.
Qed.

(** A 429 for a key of a pool with a spare key. *)
Lemma rate_limit_witness :
  let ctx := pool_context "k1" in
  let w := spare_key_world in
  let w' := _handleUpstreamClientError 429 ctx w in
  accounts w' = accounts w ∧ apiKeys w' = apiKeys w
  ∧ sticky w' = delete (account_mapping ctx "5d41402abc4b2a76")
                  (delete (key_mapping ctx "droid-1" "5d41402abc4b2a76") (sticky w))
  ∧ rateLimits w'
    = if 429 =? 429 then <["droid:ratelimit:" +:+ "droid-1" := 300]> (rateLimits w)
      else rateLimits w.
Proof.
  apply (other_client_errors_spare_the_account 429 (pool_context "k1") "droid-1"
           "5d41402abc4b2a76" spare_key_world).
  - lia.
  - discriminate.
  - discriminate.
  - reflexivity.
  - reflexivity.
  - discriminate.
Defined.

(** *** The footprint of the handler *)

Lemma lookup_unchanged_or_deleted {A} (m : gmap string A) k k' :
  delete k m !! k' = m !! k' ∨ (delete k m !! k' = None ∧ k' = k).
Proof.
  destruct (decide (k = k')) as [->|Hne].
  - right. split; [apply lookup_delete_eq | reflexivity].
  - left. now apply lookup_delete_ne.
Qed.

(** The sticky mappings after the mappings of a session were cleared. *)
Lemma clear_both_footprint ctx accountId w k :
  let w' := _clearAccountStickyMapping (Some (normalized_endpoint ctx))
              (sessionHash ctx) (clientApiKeyId ctx)
              (_clearApiKeyStickyMapping (Some accountId)
                 (Some (normalized_endpoint ctx)) (sessionHash ctx) w) in
  accountId ≠ "" →
  (accounts w' = accounts w ∧ apiKeys w' = apiKeys w ∧ rateLimits w' = rateLimits w)
  ∧ (sticky w' !! k = sticky w !! k
     ∨ (sticky w' !! k = None
        ∧ ∃ sh, truthy_string (sessionHash ctx) = Some sh
                ∧ (k = account_mapping ctx sh ∨ k = key_mapping ctx accountId sh))).
Proof.
  cbv zeta. intros Hid.
  unfold _clearAccountStickyMapping, _clearApiKeyStickyMapping, _composeApiKeyStickyKey.
  rewrite (truthy_string_Some _ Hid).
  destruct (truthy_string (sessionHash ctx)) as [sh|]; [|auto].
  cbn [deleteSessionAccountMapping accounts apiKeys rateLimits sticky].
  split; [auto|].
  fold (account_mapping ctx sh). fold (key_mapping ctx accountId sh).
  destruct (lookup_unchanged_or_deleted
              (delete (key_mapping ctx accountId sh) (sticky w))
              (account_mapping ctx sh) k) as [-> | [-> ->]]; [|right; eauto].
  destruct (lookup_unchanged_or_deleted (sticky w) (key_mapping ctx accountId sh) k)
    as [-> | [-> ->]]; [auto | right; eauto].
Qed.

Lemma clear_account_footprint ctx w k :
  let w' := _clearAccountStickyMapping (Some (normalized_endpoint ctx))
              (sessionHash ctx) (clientApiKeyId ctx) w in
  (accounts w' = accounts w ∧ apiKeys w' = apiKeys w ∧ rateLimits w' = rateLimits w)
  ∧ (sticky w' !! k = sticky w !! k
     ∨ (sticky w' !! k = None
        ∧ ∃ sh, truthy_string (sessionHash ctx) = Some sh ∧ k = account_mapping ctx sh)).
Proof.
  cbv zeta. unfold _clearAccountStickyMapping.
  destruct (truthy_string (sessionHash ctx)) as [sh|]; [|auto].
  cbn [deleteSessionAccountMapping accounts apiKeys rateLimits sticky].
  split; [auto|]. fold (account_mapping ctx sh).
  destruct (lookup_unchanged_or_deleted (sticky w) (account_mapping ctx sh) k)
    as [-> | [-> ->]]; [auto | right; eauto].
Qed.

Lemma clear_key_footprint ctx accountId w k :
  let w' := _clearApiKeyStickyMapping (Some accountId)
              (Some (normalized_endpoint ctx)) (sessionHash ctx) w in
  accountId ≠ "" →
  (accounts w' = accounts w ∧ apiKeys w' = apiKeys w ∧ rateLimits w' = rateLimits w)
  ∧ (sticky w' !! k = sticky w !! k
     ∨ (sticky w' !! k = None
        ∧ ∃ sh, truthy_string (sessionHash ctx) = Some sh
                ∧ k = key_mapping ctx accountId sh)).
Proof.
  cbv zeta. intros Hid. unfold _clearApiKeyStickyMapping, _composeApiKeyStickyKey.
  rewrite (truthy_string_Some _ Hid).
  destruct (truthy_string (sessionHash ctx)) as [sh|]; [|auto].
  cbn [deleteSessionAccountMapping accounts apiKeys rateLimits sticky].
  split; [auto|]. fold (key_mapping ctx accountId sh).
  destruct (lookup_unchanged_or_deleted (sticky w) (key_mapping ctx accountId sh) k)
    as [-> | [-> ->]]; [auto | right; eauto].
Qed.

(** The account after it was taken out of scheduling and the mapping of
    the session to it was cleared. *)
Lemma stop_and_clear_footprint ctx accountId code reason w k a' :
  let w' := _clearAccountStickyMapping (Some (normalized_endpoint ctx))
              (sessionHash ctx) (clientApiKeyId ctx)
              (_stopDroidAccountScheduling (Some accountId) code reason w) in
  accountId ≠ "" →
  (apiKeys w' = apiKeys w ∧ rateLimits w' = rateLimits w)
  ∧ (sticky w' !! k = sticky w !! k
     ∨ (sticky w' !! k = None
        ∧ ∃ sh, truthy_string (sessionHash ctx) = Some sh ∧ k = account_mapping ctx sh))
  ∧ (accounts w' !! a' = accounts w !! a'
     ∨ (a' = accountId ∧ ∃ data, accounts w' !! a' = Some data ∧ stopped data)).
Proof.
  cbv zeta. intros Hid.
  set (w1 := _stopDroidAccountScheduling (Some accountId) code reason w).
  destruct (clear_account_footprint ctx w1 k) as ((Ea & Ek & Er) & Hs).
  destruct (stop_scheduling_footprint (Some accountId) code reason w)
    as (Es1 & Ek1 & Er1 & Ha1). fold w1 in Es1, Ek1, Er1, Ha1.
  rewrite Ea, Ek, Er, Ek1, Er1. rewrite Es1 in Hs.
  split; [auto|]. split; [exact Hs|].
  destruct (Ha1 a') as [-> | [Ht Hd]]; [auto|].
  rewrite (truthy_string_Some _ Hid) in Ht. injection Ht as <-. auto.
Qed.

(** X7: whatever the status, the handler touches nothing but what belongs
    to the request at hand. It never creates or redirects a sticky mapping,
    and deletes none but the two of the session; it changes no account but
    the one that answered, and that one only on 401 and 403, by taking it
    out of scheduling; it changes no pool of keys but that of this account,
    and there only marks the key that was used; it sets no rate-limit mark
    but on 429. *)
Theorem handler_touches_only_its_own (code : Z) (ctx : context) (w : world) :
  let w' := _handleUpstreamClientError code ctx w in
  (∀ k, sticky w' !! k = sticky w !! k
        ∨ (sticky w' !! k = None
           ∧ ∃ a sh, _extractAccountId (account ctx) = Some a
                     ∧ truthy_string (sessionHash ctx) = Some sh
                     ∧ (k = account_mapping ctx sh ∨ k = key_mapping ctx a sh)))
  ∧ (∀ a, accounts w' !! a = accounts w !! a
          ∨ (_extractAccountId (account ctx) = Some a ∧ (code = 401 ∨ code = 403)
             ∧ ∃ data, accounts w' !! a = Some data ∧ stopped data))
  ∧ (∀ a, apiKeys w' !! a = apiKeys w !! a
          ∨ (_extractAccountId (account ctx) = Some a ∧ (code = 401 ∨ code = 403)
             ∧ pool_mode ctx = true
             ∧ ∃ k message, truthy_string (selectedAccountApiKey ctx) = Some k
                            ∧ apiKeys w' !! a
                              = map (marked k message) <$> apiKeys w !! a))
  ∧ (rateLimits w' = rateLimits w
     ∨ (code = 429
        ∧ ∃ a, _extractAccountId (account ctx) = Some a
               ∧ rateLimits w'
                 = <["droid:ratelimit:" +:+ a := 300]> (rateLimits w))).
Proof.
  cbv zeta. unfold _handleUpstreamClientError.
  destruct ((code =? 0) || (code <? 400) || (500 <=? code)); [auto 6|].
  destruct (_extractAccountId (account ctx)) as [accountId|] eqn:Ha; [|auto 6].
  pose proof (extracted_id_nonempty _ _ Ha) as Hid.
  assert (Hclear : ∀ w0,
    let w' := _clearAccountStickyMapping (Some (normalized_endpoint ctx))
                (sessionHash ctx) (clientApiKeyId ctx)
                (_clearApiKeyStickyMapping (Some accountId)
                   (Some (normalized_endpoint ctx)) (sessionHash ctx) w0) in
    (∀ k, sticky w' !! k = sticky w0 !! k
          ∨ (sticky w' !! k = None
             ∧ ∃ a sh, Some accountId = Some a
                       ∧ truthy_string (sessionHash ctx) = Some sh
                       ∧ (k = account_mapping ctx sh ∨ k = key_mapping ctx a sh)))
    ∧ accounts w' = accounts w0 ∧ apiKeys w' = apiKeys w0
    ∧ rateLimits w' = rateLimits w0).
  { intros w0. cbv zeta. split.
    - intros k. destruct (clear_both_footprint ctx accountId w0 k Hid)
        as (_ & [E | (E & sh & Hsh & Hk)]); [auto|]. right. eauto 8.
    - destruct (clear_both_footprint ctx accountId w0 "" Hid) as ((? & ? & ?) & _).
      auto. }
  destruct (Z.eqb_spec code 400);
    [destruct (Hclear w) as (Hs & -> & -> & ->); auto 6|].
  destruct (Z.eqb_spec code 429).
  { destruct (Hclear (setex ("droid:ratelimit:" +:+ accountId) 300 w))
      as (Hs & -> & -> & ->). cbn [setex sticky accounts apiKeys rateLimits] in *.
    repeat split; auto. right. eauto. }
  destruct (Z.eqb_spec code 404);
    [destruct (Hclear w) as (Hs & -> & -> & ->); auto 6|].
  destruct ((code =? 401) || (code =? 403)) eqn:Eauth;
    [|destruct (Hclear w) as (Hs & -> & -> & ->); auto 6].
  assert (Hcode : code = 401 ∨ code = 403).
  { apply orb_true_iff in Eauth as [E | E]; apply Z.eqb_eq in E; auto. }
  unfold on_auth_error. fold (pool_mode ctx).
  assert (Hstop : ∀ reason w0,
    let w' := _clearAccountStickyMapping (Some (normalized_endpoint ctx))
                (sessionHash ctx) (clientApiKeyId ctx)
                (_stopDroidAccountScheduling (Some accountId) code reason w0) in
    (∀ k, sticky w' !! k = sticky w0 !! k
          ∨ (sticky w' !! k = None
             ∧ ∃ a sh, Some accountId = Some a
                       ∧ truthy_string (sessionHash ctx) = Some sh
                       ∧ (k = account_mapping ctx sh ∨ k = key_mapping ctx a sh)))
    ∧ (∀ a, accounts w' !! a = accounts w0 !! a
            ∨ (Some accountId = Some a ∧ (code = 401 ∨ code = 403)
               ∧ ∃ data, accounts w' !! a = Some data ∧ stopped data))
    ∧ apiKeys w' = apiKeys w0 ∧ rateLimits w' = rateLimits w0).
  { intros reason w0. cbv zeta. split; [|split].
    - intros k.
      destruct (stop_and_clear_footprint ctx accountId code reason w0 k "" Hid)
        as (_ & [E | (E & sh & Hsh & Hk)] & _); [auto|]. right. eauto 8.
    - intros a.
      destruct (stop_and_clear_footprint ctx accountId code reason w0 "" a Hid)
        as (_ & _ & [E | (-> & Hd)]); auto.
    - destruct (stop_and_clear_footprint ctx accountId code reason w0 "" "" Hid)
        as ((? & ?) & _). auto. }
  destruct (pool_mode ctx) eqn:Epool;
    [|destruct (Hstop "凭证认证失败" w) as (Hs & Hacc & -> & ->); auto 6].
  destruct (truthy_string (selectedAccountApiKey ctx)) as [keyId|] eqn:Ekey;
    [|destruct (Hstop "缺少可用 API Key" w) as (Hs & Hacc & -> & ->); auto 6].
  set (message := "认证失败: " +:+ status_text code).
  destruct (markApiKeyAsError accountId keyId message w) as [w1 r] eqn:Emark.
  assert (Hw1 : w1 = fst (markApiKeyAsError accountId keyId message w))
    by now rewrite Emark.
  assert (Hs1 : sticky w1 = sticky w) by now rewrite Hw1.
  assert (Ha1 : accounts w1 = accounts w) by now rewrite Hw1.
  assert (Hr1 : rateLimits w1 = rateLimits w) by now rewrite Hw1.
  assert (Hk1 : ∀ a, apiKeys w1 !! a = apiKeys w !! a
                     ∨ (Some accountId = Some a
                        ∧ apiKeys w1 !! a = map (marked keyId message) <$> apiKeys w !! a)).
  { intros a. rewrite Hw1. destruct (decide (accountId = a)) as [<-|Hne].
    - right. split; [reflexivity | apply mark_entries].
    - left. cbn. now apply lookup_alter_ne. }
  set (w2 := _clearApiKeyStickyMapping (Some accountId)
               (Some (normalized_endpoint ctx)) (sessionHash ctx) w1).
  assert (H2 : (accounts w2 = accounts w ∧ apiKeys w2 = apiKeys w1
                ∧ rateLimits w2 = rateLimits w)
               ∧ ∀ k, sticky w2 !! k = sticky w !! k
                      ∨ (sticky w2 !! k = None
                         ∧ ∃ a sh, Some accountId = Some a
                                   ∧ truthy_string (sessionHash ctx) = Some sh
                                   ∧ (k = account_mapping ctx sh
                                      ∨ k = key_mapping ctx a sh))).
  { split.
    - destruct (clear_key_footprint ctx accountId w1 "" Hid) as ((E1 & E2 & E3) & _).
      fold w2 in E1, E2, E3. rewrite E1, E2, E3. auto.
    - intros k. destruct (clear_key_footprint ctx accountId w1 k Hid)
        as (_ & [E | (E & sh & Hsh & Hk)]); fold w2 in E; rewrite <- ?Hs1; [auto|].
      right. eauto 8. }
  destruct H2 as ((Ea2 & Ek2 & Er2) & Hs2).
  assert (Hkeys : ∀ a, apiKeys w2 !! a = apiKeys w !! a
                       ∨ (Some accountId = Some a ∧ (code = 401 ∨ code = 403)
                          ∧ true = true
                          ∧ ∃ k message0, Some keyId = Some k
                                          ∧ apiKeys w2 !! a
                                            = map (marked k message0) <$> apiKeys w !! a)).
  { intros a. rewrite Ek2. destruct (Hk1 a) as [E | [E1 E2]]; [auto|].
    right. repeat split; auto. eauto. }
  destruct (length _ =? 0)%nat.
  - destruct (Hstop "所有API Key均已异常" w2) as (Hs3 & Hacc3 & Ek3 & Er3).
    rewrite Ek3, Er3, Er2. repeat split; auto.
    + intros k. destruct (Hs3 k) as [E | E]; [|auto]. rewrite E. apply Hs2.
    + intros a. destruct (Hacc3 a) as [E | E]; [|auto]. rewrite E, Ea2. auto.
  - rewrite Ea2, Er2. repeat split; auto.
Qed.

(** *** Endpoint types *)

Lemma lower_upper_char c : lower_char (upper_char c) = lower_char c.
Proof.
  destruct c as [[] [] [] [] [] [] [] []]; vm_compute; reflexivity.
Qed.

Lemma lower_lower_char c : lower_char (lower_char c) = lower_char c.
Proof.
  destruct c as [[] [] [] [] [] [] [] []]; vm_compute; reflexivity.
Qed.

Lemma toLowerCase_toUpperCase s : toLowerCase (toUpperCase s) = toLowerCase s.
Proof.
  unfold toLowerCase, toUpperCase. induction s as [|c s IH]; [reflexivity|].
  cbn. now rewrite lower_upper_char, IH.
Qed.

Lemma toLowerCase_idempotent s : toLowerCase (toLowerCase s) = toLowerCase s.
Proof.
  unfold toLowerCase. induction s as [|c s IH]; [reflexivity|].
  cbn. now rewrite lower_lower_char, IH.
Qed.

Lemma lower_empty s : String.eqb (toLowerCase s) "" = String.eqb s "".
Proof. now destruct s. Qed.

Lemma upper_empty s : String.eqb (toUpperCase s) "" = String.eqb s "".
Proof. now destruct s. Qed.

Lemma normalize_lower e :
  _normalizeEndpointType (Some (toLowerCase e)) = _normalizeEndpointType (Some e).
Proof.
  unfold _normalizeEndpointType, truthy_string. rewrite lower_empty.
  destruct (String.eqb e ""); [reflexivity|]. now rewrite toLowerCase_idempotent.
Qed.

Lemma normalize_upper e :
  _normalizeEndpointType (Some (toUpperCase e)) = _normalizeEndpointType (Some e).
Proof.
  unfold _normalizeEndpointType, truthy_string. rewrite upper_empty.
  destruct (String.eqb e ""); [reflexivity|]. now rewrite toLowerCase_toUpperCase.
Qed.


End ClientErrorFacts.

(** ** Facts about the choice of a key *)

Module KeySelectionFacts.
Import JsString Health HealthFacts KeySelection.
Local Open Scope Q_scope.

Lemma pick_elem random l e : pick random l = Some e → e ∈ l.
Proof.
  unfold pick. destruct (_ <? 0)%Z; [discriminate|]. apply list_elem_of_lookup_2.
Qed.

(** A draw of [Math.random], which lies in [0, 1), picks an entry of a list
    that is not empty. *)
Lemma pick_in_range random l :
  0 <= random → random < 1 → l ≠ [] → is_Some (pick random l).
Proof.
  intros H0 H1 Hl. unfold pick.
  set (n := Z.of_nat (length l)).
  assert (Hn : (0 < n)%Z) by (destruct l; [contradiction | cbn in n; lia]).
  assert (Hlo : (0 <= Qfloor (random * inject_Z n))%Z).
  { change 0%Z with (Qfloor 0). apply Qfloor_resp_le.
    apply Qmult_le_0_compat; [assumption|].
    change 0 with (inject_Z 0). rewrite <- Zle_Qle. lia. }
  assert (Hhi : (Qfloor (random * inject_Z n) < n)%Z).
  { rewrite Zlt_Qlt. apply Qle_lt_trans with (random * inject_Z n); [apply Qfloor_le|].
    rewrite <- (Qmult_1_l (inject_Z n)) at 2. apply Qmult_lt_compat_r; [|assumption].
    change 0 with (inject_Z 0). rewrite <- Zlt_Qlt. lia. }
  destruct (Z.ltb_spec (Qfloor (random * inject_Z n)) 0); [lia|].
  apply lookup_lt_is_Some. lia.
Qed.

Lemma length_zero {A} (l : list A) : (length l =? 0)%nat = true ↔ l = [].
Proof. destruct l; cbn; split; congruence. Qed.

Lemma find_elem {A} (f : A → bool) l x : List.find f l = Some x → x ∈ l ∧ f x = true.
Proof.
  intros H. apply find_some in H as [Hin Hf]. split; [now apply list_elem_of_In | exact Hf].
Qed.

Lemma find_is_Some {A} (f : A → bool) l x : x ∈ l → f x = true → is_Some (List.find f l).
Proof.
  intros Hin Hf. destruct (List.find f l) eqn:E; [eauto|].
  apply list_elem_of_In in Hin. now rewrite (find_none _ _ E _ Hin) in Hf.
Qed.

Lemma truthy_string_inv s t : truthy_string s = Some t → s = Some t.
Proof.
  destruct s as [u|]; [|discriminate]. cbn.
  destruct (String.eqb u ""); [discriminate | now intros [= ->]].
Qed.

(** How a call of [_selectApiKey] ends, and what it leaves behind. *)
Lemma select_outcome random a ep sh s :
  let entries := getDecryptedApiKeyEntries a (base s) in
  let active := active_entries a (base s) in
  let s' := fst (_selectApiKey random a ep sh s) in
  (accounts (base s') = accounts (base s) ∧ apiKeys (base s') = apiKeys (base s)
   ∧ rateLimits (base s') = rateLimits (base s))
  ∧ match snd (_selectApiKey random a ep sh s) with
    | Selected e =>
        e ∈ active
        ∧ touches s' = touches s ++ [(a, entry_id e)]
        ∧ ∀ k, _composeApiKeyStickyKey (Some a) ep sh = Some k →
               sticky (base s') !! k = Some (entry_id e)
    | NoKeysConfigured => entries = [] ∧ s' = s
    | NoActiveKeys => entries ≠ [] ∧ active = [] ∧ s' = s
    | NoKeySelected => active ≠ [] ∧ pick random active = None
    end.
Proof.
  cbv zeta. unfold _selectApiKey, active_entries.
  set (entries := getDecryptedApiKeyEntries a (base s)).
  set (active := List.filter _ entries).
  destruct (length entries =? 0)%nat eqn:E0.
  { apply length_zero in E0. cbn. auto. }
  destruct (length active =? 0)%nat eqn:E1.
  { apply length_zero in E1. cbn. repeat split; auto.
    intros ->. discriminate. }
  assert (Hactive : active ≠ []) by (intros H; rewrite H in E1; discriminate).
  assert (Hpick : ∀ s0 : key_store,
    accounts (base s0) = accounts (base s) → apiKeys (base s0) = apiKeys (base s) →
    rateLimits (base s0) = rateLimits (base s) → touches s0 = touches s →
    let result :=
      match pick random active with
      | Some selectedEntry =>
          (touchApiKeyUsage a (entry_id selectedEntry)
             match _composeApiKeyStickyKey (Some a) ep sh with
             | Some k => setSessionAccountMapping k (entry_id selectedEntry) s0
             | None => s0
             end, Selected selectedEntry)
      | None => (s0, NoKeySelected)
      end in
    (accounts (base (fst result)) = accounts (base s)
     ∧ apiKeys (base (fst result)) = apiKeys (base s)
     ∧ rateLimits (base (fst result)) = rateLimits (base s))
    ∧ match snd result with
      | Selected e =>
          e ∈ active
          ∧ touches (fst result) = touches s ++ [(a, entry_id e)]
          ∧ ∀ k, _composeApiKeyStickyKey (Some a) ep sh = Some k →
                 sticky (base (fst result)) !! k = Some (entry_id e)
      | NoKeysConfigured => entries = [] ∧ fst result = s
      | NoActiveKeys => entries ≠ [] ∧ active = [] ∧ fst result = s
      | NoKeySelected => active ≠ [] ∧ pick random active = None
      end).
  { intros s0 Ha Hk Hr Ht. cbv zeta.
    destruct (pick random active) as [e|] eqn:Ep; cbn [fst snd]; [|auto].
    destruct (_composeApiKeyStickyKey (Some a) ep sh) as [k|];
      cbn [touchApiKeyUsage setSessionAccountMapping with_base base touches
           accounts apiKeys rateLimits sticky].
    - repeat split; auto; [now apply pick_elem in Ep | now rewrite Ht|].
      intros k' [= <-]. apply lookup_insert_eq.
    - repeat split; auto; [now apply pick_elem in Ep | now rewrite Ht|].
      discriminate. }
  destruct (_composeApiKeyStickyKey (Some a) ep sh) as [k|] eqn:Ekey;
    [|now apply Hpick].
  destruct (truthy_string (getSessionAccountMapping k s)) as [mapped|] eqn:Emap;
    [|now apply Hpick].
  destruct (List.find _ active) as [mappedEntry|] eqn:Efind.
  - apply find_elem in Efind as [Hin Hid]. apply String.eqb_eq in Hid.
    cbn [fst snd touchApiKeyUsage extendSessionAccountMappingTTL base touches].
    repeat split; auto. intros k' [= <-].
    apply truthy_string_inv in Emap. unfold getSessionAccountMapping in Emap.
    now rewrite Emap, Hid.
  - now apply Hpick.
Qed.

(** X9: the key that is chosen is a key of the pool of the account whose
    status is not [error], whatever was drawn and whatever the session was
    bound to. The choice fails when the pool is empty or all its keys are
    in error, and for a draw of [Math.random] only then. It changes no
    account and no key. *)
Theorem chosen_key_is_active
    (random : Q) (accountId : string) (endpointType sessionHash : option string)
    (s : key_store) :
  let entries := getDecryptedApiKeyEntries accountId (base s) in
  let result := snd (_selectApiKey random accountId endpointType sessionHash s) in
  let s' := fst (_selectApiKey random accountId endpointType sessionHash s) in
  (∀ entry, result = Selected entry →
            entry ∈ entries ∧ entry_status entry ≠ "error")
  ∧ (result = NoKeysConfigured ↔ entries = [])
  ∧ (result = NoActiveKeys ↔ entries ≠ [] ∧ all_in_error entries = true)
  ∧ (0 <= random → random < 1 → result ≠ NoKeySelected)
  ∧ accounts (base s') = accounts (base s) ∧ apiKeys (base s') = apiKeys (base s).
Proof.
  cbv zeta.
  pose proof (select_outcome random accountId endpointType sessionHash s) as H.
  cbv zeta in H. destruct H as ((Ha & Hk & _) & H).
  pose proof (no_active_entries (getDecryptedApiKeyEntries accountId (base s))) as Hall.
  fold (active_entries accountId (base s)) in Hall.
  destruct (snd (_selectApiKey random accountId endpointType sessionHash s))
    as [e| | |].
  - destruct H as (Hin & _). apply list_elem_of_In, filter_In in Hin as [Hin He].
    apply list_elem_of_In in Hin.
    assert (Hactive : active_entries accountId (base s) ≠ []).
    { intros E. apply list_elem_of_In in Hin.
      assert (Hf : In e (active_entries accountId (base s)))
        by (apply filter_In; auto).
      rewrite E in Hf. contradiction. }
    split; [|split; [|split; [|split; [|auto]]]].
    + intros e' [= <-]. split; [assumption|]. intros Hs. rewrite Hs in He. discriminate.
    + split; [discriminate|]. intros E. rewrite E in Hin. inversion Hin.
    + split; [discriminate|]. intros [_ Hcontra]. rewrite <- Hall in Hcontra.
      apply length_zero in Hcontra. contradiction.
    + intros _ _. discriminate.
  - destruct H as [H _].
    split; [|split; [|split; [|split; [|auto]]]]; try discriminate.
    + split; auto.
    + split; [discriminate|]. intros [Hne _]. contradiction.
  - destruct H as (Hne & Hact & _).
    split; [|split; [|split; [|split; [|auto]]]]; try discriminate.
    + split; [discriminate | contradiction].
    + split; [intros _ | reflexivity]. split; [assumption|].
      rewrite <- Hall. now apply length_zero.
  - destruct H as [Hact Hp].
    split; [|split; [|split; [|split; [|auto]]]]; try discriminate.
    + split; [discriminate|]. intros E. unfold active_entries in Hact.
      rewrite E in Hact. now contradiction Hact.
    + split; [discriminate|]. intros [_ Hcontra]. rewrite <- Hall in Hcontra.
      apply length_zero in Hcontra. contradiction.
    + intros H0 H1 _. destruct (pick_in_range random _ H0 H1 Hact) as [e He].
      rewrite He in Hp. discriminate.
Qed.

(** X10: a session stays with its key. Once a key with an id was chosen
    for a session, the next choice for the same session, account and
    endpoint gives a key of that id again, whatever is drawn. *)
Theorem key_choice_is_sticky
    (random : Q) (accountId sessionHash : string) (endpointType : option string)
    (s : key_store) (entry : api_key_entry) :
  accountId ≠ "" → sessionHash ≠ "" →
  snd (_selectApiKey random accountId endpointType (Some sessionHash) s)
  = Selected entry →
  entry_id entry ≠ "" →
  ∀ random',
    ∃ entry',
      snd (_selectApiKey random' accountId endpointType (Some sessionHash)
             (fst (_selectApiKey random accountId endpointType (Some sessionHash) s)))
      = Selected entry'
      ∧ entry_id entry' = entry_id entry
      ∧ entry' ∈ active_entries accountId (base s).
Proof.
  intros Ha Hsh Hsel Hid random'.
  pose proof (select_outcome random accountId endpointType (Some sessionHash) s) as H.
  cbv zeta in H. rewrite Hsel in H. destruct H as ((_ & Hk & _) & Hin & _ & Hmap).
  set (s1 := fst (_selectApiKey random accountId endpointType (Some sessionHash) s))
    in *.
  set (k := API_KEY_STICKY_PREFIX +:+ ":" +:+ accountId +:+ ":"
            +:+ _normalizeEndpointType endpointType +:+ ":" +:+ sessionHash).
  assert (Hkey : _composeApiKeyStickyKey (Some accountId) endpointType (Some sessionHash)
                 = Some k).
  { unfold _composeApiKeyStickyKey. now rewrite !truthy_string_Some by assumption. }
  specialize (Hmap k Hkey).
  assert (Hentries : getDecryptedApiKeyEntries accountId (base s1)
                     = getDecryptedApiKeyEntries accountId (base s)).
  { unfold getDecryptedApiKeyEntries. now rewrite Hk. }
  unfold _selectApiKey. rewrite Hentries, Hkey.
  fold (active_entries accountId (base s)).
  assert (Hactive : active_entries accountId (base s) ≠ [])
    by (intros E; rewrite E in Hin; inversion Hin).
  assert (Hall : getDecryptedApiKeyEntries accountId (base s) ≠ []).
  { intros E. unfold active_entries in Hactive. now rewrite E in Hactive. }
  destruct (length (getDecryptedApiKeyEntries accountId (base s)) =? 0)%nat eqn:E0;
    [apply length_zero in E0; contradiction|].
  destruct (length (active_entries accountId (base s)) =? 0)%nat eqn:E1;
    [apply length_zero in E1; contradiction|].
  unfold getSessionAccountMapping. rewrite Hmap, (truthy_string_Some _ Hid).
  destruct (find_is_Some (fun e => String.eqb (entry_id e) (entry_id entry))
              (active_entries accountId (base s)) entry Hin (String.eqb_refl _))
    as [entry' Hfind].
  rewrite Hfind. cbn [snd]. exists entry'.
  apply find_elem in Hfind as [Hin' Heq]. apply String.eqb_eq in Heq. auto.
Qed.

(** A session of the pool of two keys of which one is in error. *)
Lemma sticky_choice_witness :
  snd (_selectApiKey (1 # 3) "droid-1" (Some "anthropic") (Some "5d41402abc4b2a76")
         two_key_store)
  = Selected (key_entry "k2" "active")
  ∧ ∀ random',
    ∃ entry',
      snd (_selectApiKey random' "droid-1" (Some "anthropic") (Some "5d41402abc4b2a76")
             (fst (_selectApiKey (1 # 3) "droid-1" (Some "anthropic")
                     (Some "5d41402abc4b2a76") two_key_store)))
      = Selected entry'
      ∧ entry_id entry' = entry_id (key_entry "k2" "active")
      ∧ entry' ∈ active_entries "droid-1" (base two_key_store).
Proof.
  split; [vm_compute; reflexivity|].
  apply (key_choice_is_sticky (1 # 3) "droid-1" "5d41402abc4b2a76" (Some "anthropic")
           two_key_store (key_entry "k2" "active")).
  - discriminate.
  - discriminate.
  - vm_compute. reflexivity.
  - discriminate.
Defined.



End KeySelectionFacts.

(** ** Chunking and the usage parsers *)

Module ChunkingFacts.
Import Js JsString JsFacts Usage UsageFacts StreamFacts.
Local Open Scope Q_scope.

(** *** A parser that works by assignments *)

Section Parser.

(** A parser of lines that does what the assignments of the line say, on
    texts in which a line that was cut short assigns nothing or what the
    whole line assigns. *)
Variable parse_line : object → string → object.
Variable assignments : string → object.
Variable well_formed : string → Prop.

Hypothesis parse_assign :
  ∀ cur line, parse_line cur line = assign (assignments line) cur.
Hypothesis empty_line : assignments "" = [].
Hypothesis cut_short :
  ∀ text line r, well_formed text → (line +:+ r) ∈ split_lines text →
                 assignments line = [] ∨ assignments line = assignments (line +:+ r).

Let parse (chunkStr buffer : string) (cur : object) : object :=
  fold_left parse_line (split_lines (buffer +:+ chunkStr)) cur.

Let handle (st : stream_state) (chunkStr : string) : stream_state :=
  {| buffer := buffer st +:+ chunkStr;
     currentUsageData := parse chunkStr (buffer st) (currentUsageData st) |}.

Lemma parse_lines lines cur :
  fold_left parse_line lines cur = assign (lines ≫= assignments) cur.
Proof.
  revert cur. induction lines as [|l lines IH]; intros cur; [reflexivity|].
  change ((l :: lines) ≫= assignments) with (assignments l ++ (lines ≫= assignments)).
  rewrite assign_app, <- parse_assign. apply IH.
Qed.

Lemma keys_grow a b k :
  well_formed (a +:+ b) →
  last_assign k (split_lines (a +:+ b) ≫= assignments) = None →
  last_assign k (split_lines a ≫= assignments) = None.
Proof.
  intros Hf Hnone.
  destruct (last_assign k (split_lines a ≫= assignments)) as [v|] eqn:E;
    [|reflexivity].
  apply last_assign_Some, list_elem_of_bind in E as (l & Hkv & Hl).
  destruct (split_lines_extend a b l Hl) as [r Hr].
  assert (Hkv' : (k, v) ∈ assignments (l +:+ r)).
  { destruct (cut_short _ _ _ Hf Hr) as [E | E].
    - rewrite E in Hkv. inversion Hkv.
    - now rewrite <- E. }
  assert (His : is_Some (last_assign k (split_lines (a +:+ b) ≫= assignments))).
  { apply (last_assign_elem_of k v), list_elem_of_bind. eauto. }
  rewrite Hnone in His. destruct His; discriminate.
Qed.

Lemma handled_buffer chunks st :
  buffer (fold_left handle chunks st) = buffer st +:+ joined chunks.
Proof.
  revert st. induction chunks as [|c chunks IH]; intros st; cbn [fold_left].
  - unfold joined. cbn. now rewrite append_nil_r.
  - rewrite IH. cbn [handle buffer]. unfold joined. cbn [fold_right].
    apply append_assoc.
Qed.

Lemma handled_keys text chunks st rest k :
  well_formed text →
  text = (buffer st +:+ joined chunks) +:+ rest →
  (∀ k, last_assign k (split_lines text ≫= assignments) = None →
        obj_get k (currentUsageData st) = VUndefined) →
  last_assign k (split_lines text ≫= assignments) = None →
  obj_get k (currentUsageData (fold_left handle chunks st)) = VUndefined.
Proof.
  intros Hf. revert st rest k.
  induction chunks as [|c chunks IH]; intros st rest k Htext Hst Hk;
    cbn [fold_left]; [now apply Hst|].
  apply (IH (handle st c) rest); [| |assumption].
  - cbn [handle buffer]. rewrite Htext. unfold joined. cbn [fold_right].
    now rewrite !append_assoc.
  - intros k' Hk'. cbn [handle currentUsageData]. unfold parse.
    rewrite parse_lines, obj_get_assign.
    assert (Hsplit : text = (buffer st +:+ c) +:+ (joined chunks +:+ rest)).
    { rewrite Htext. unfold joined. cbn [fold_right]. now rewrite !append_assoc. }
    rewrite Hsplit in Hf, Hk'.
    rewrite (keys_grow _ _ _ Hf Hk'). cbn. apply Hst.
    now rewrite Hsplit.
Qed.

(** However the text is cut into chunks, every field of the usage data
    ends up as one pass over the whole text leaves it. *)
Lemma chunks_are_invisible chunks k :
  well_formed (joined chunks) →
  obj_get k (currentUsageData (fold_left handle chunks stream_start))
  = obj_get k (parse (joined chunks) "" []).
Proof.
  intros Hf. unfold parse at 1. rewrite append_nil_l, parse_lines, obj_get_assign.
  cbn [obj_get].
  destruct chunks as [|c chunks _] using rev_ind.
  { cbn. rewrite empty_line. reflexivity. }
  rewrite fold_left_app. cbn [fold_left handle currentUsageData]. unfold parse.
  rewrite parse_lines, obj_get_assign, handled_buffer.
  cbn [stream_start buffer]. rewrite append_nil_l.
  assert (Hj : joined (chunks ++ [c]) = joined chunks +:+ c).
  { rewrite joined_app. unfold joined at 2. cbn. now rewrite append_nil_r. }
  rewrite Hj in *.
  destruct (last_assign k _) as [v|] eqn:E; [reflexivity|]. cbn [default].
  apply (handled_keys (joined chunks +:+ c) chunks stream_start c k);
    [assumption | reflexivity | reflexivity | assumption].
Qed.

End Parser.

(** *** The snapshot of usage data *)

(** The snapshot depends on the usage data through its fields only. *)
Lemma normalize_fields S O (a b : object) :
  (∀ k, obj_get k a = obj_get k b) →
  _normalizeUsageSnapshot S O a = _normalizeUsageSnapshot S O b.
Proof.
  intros H. apply normalize_by_counts;
    unfold raw_input, raw_output, raw_cache_read, raw_cache_create,
      raw_ephemeral_5m, raw_ephemeral_1h; now rewrite ?H.
Qed.

(** *** The Anthropic stream *)

(** X12: the usage of an Anthropic stream does not depend on how the
    network cut the stream into chunks. When no [data:] line, cut short,
    parses to something else than the whole line, every field of the usage
    data at the end of the stream, and so the snapshot that is recorded,
    is what one pass of the parser over the whole text gives. *)
Theorem anthropic_usage_ignores_chunking
    (JSON_parse : string → option jsval) (chunks : list string) :
  framed JSON_parse (joined chunks) →
  (∀ k, obj_get k (Usage.stream_usage JSON_parse chunks)
        = obj_get k (_parseAnthropicUsageFromSSE JSON_parse (joined chunks) "" []))
  ∧ ∀ S O, _normalizeUsageSnapshot S O (Usage.stream_usage JSON_parse chunks)
           = _normalizeUsageSnapshot S O
               (_parseAnthropicUsageFromSSE JSON_parse (joined chunks) "" []).
Proof.
  intros Hf.
  assert (H : ∀ k, obj_get k (Usage.stream_usage JSON_parse chunks)
                   = obj_get k (_parseAnthropicUsageFromSSE JSON_parse
                                  (joined chunks) "" [])).
  { intros k.
    apply (chunks_are_invisible (Usage.parse_line JSON_parse)
             (Usage.line_assignments JSON_parse) (framed JSON_parse)
             (parse_line_assign JSON_parse) eq_refl (framed_prefix JSON_parse)
             chunks k Hf). }
  split; [exact H|]. intros S O. now apply normalize_fields.
Qed.

(** The fixture of 25 input, 10 cache-read and 42 output tokens in three
    chunks. *)
Lemma anthropic_chunking_witness :
  let parse := Fixture.table_parse Fixture.events in
  (∀ k, obj_get k (Usage.stream_usage parse Fixture.stream_chunks)
        = obj_get k (_parseAnthropicUsageFromSSE parse
                       (joined Fixture.stream_chunks) "" []))
  ∧ ∀ S O, _normalizeUsageSnapshot S O (Usage.stream_usage parse Fixture.stream_chunks)
           = _normalizeUsageSnapshot S O
               (_parseAnthropicUsageFromSSE parse (joined Fixture.stream_chunks) "" []).
Proof.
  apply (anthropic_usage_ignores_chunking (Fixture.table_parse Fixture.events)
           Fixture.stream_chunks).
  apply framed_check_sound. vm_compute. reflexivity.
Defined.

(** *** The OpenAI stream *)

Section OpenAI.

Variable JSON_parse : string → option jsval.

(** [JSON.parse] rejects the terminator of the stream. *)
Hypothesis terminator_is_not_json : JSON_parse "[DONE]" = None.

Lemma openai_parse_assign cur line :
  OpenAIUsage.parse_line JSON_parse cur line
  = assign (OpenAIUsage.line_assignments JSON_parse line) cur.
Proof.
  unfold OpenAIUsage.parse_line, OpenAIUsage.line_assignments.
  destruct (startsWith line "data: " && _); [|reflexivity]. cbv zeta.
  destruct (String.eqb (slice 6 line) "[DONE]"); [reflexivity|].
  destruct (JSON_parse (slice 6 line)) as [data|]; [|reflexivity].
  unfold OpenAIUsage.completion_assignments, OpenAIUsage.response_assignments.
  remember (truthy (get data "usage")) as u.
  remember (truthy (get data "response")
            && truthy (get (get data "response") "usage")) as v.
  destruct data; try reflexivity; destruct u, v; reflexivity.
Qed.

Lemma openai_cut_short text line r :
  framed JSON_parse text → (line +:+ r) ∈ split_lines text →
  OpenAIUsage.line_assignments JSON_parse line = []
  ∨ OpenAIUsage.line_assignments JSON_parse line
    = OpenAIUsage.line_assignments JSON_parse (line +:+ r).
Proof.
  intros Hf Hin. unfold Usage.framed in Hf. rewrite Forall_forall in Hf.
  specialize (Hf _ Hin). unfold framed_line in Hf. rewrite Forall_forall in Hf.
  specialize (Hf _ (prefixes_app line r)).
  unfold OpenAIUsage.line_assignments.
  destruct (startsWith line "data: ") eqn:Hs; [|now left].
  destruct (6 <? String.length line)%nat eqn:Hl; [|now left]. cbn [andb].
  destruct (String.eqb (slice 6 line) "[DONE]"); [now left|].
  destruct Hf as [Hf | [Hf | Hf]]; [discriminate | rewrite Hf; now left |].
  rewrite (startsWith_app _ r _ Hs).
  replace (6 <? String.length (line +:+ r))%nat with true.
  2:{ symmetry. apply Nat.ltb_lt. apply Nat.ltb_lt in Hl.
      pose proof (length_app_le line r). lia. }
  cbn [andb]. rewrite Hf.
  destruct (String.eqb_spec (slice 6 (line +:+ r)) "[DONE]") as [E|_]; [|now right].
  left. now rewrite E, terminator_is_not_json.
Qed.

(** X13: the usage of an OpenAI stream does not depend on how the network
    cut the stream into chunks either. *)
Theorem openai_usage_ignores_chunking (chunks : list string) :
  framed JSON_parse (joined chunks) →
  (∀ k, obj_get k (OpenAIUsage.stream_usage JSON_parse chunks)
        = obj_get k (OpenAIUsage._parseOpenAIUsageFromSSE JSON_parse
                       (joined chunks) "" []))
  ∧ ∀ S O, _normalizeUsageSnapshot S O (OpenAIUsage.stream_usage JSON_parse chunks)
           = _normalizeUsageSnapshot S O
               (OpenAIUsage._parseOpenAIUsageFromSSE JSON_parse (joined chunks) "" []).
Proof.
  intros Hf.
  assert (H : ∀ k, obj_get k (OpenAIUsage.stream_usage JSON_parse chunks)
                   = obj_get k (OpenAIUsage._parseOpenAIUsageFromSSE JSON_parse
                                  (joined chunks) "" [])).
  { intros k.
    apply (chunks_are_invisible (OpenAIUsage.parse_line JSON_parse)
             (OpenAIUsage.line_assignments JSON_parse) (framed JSON_parse)
             openai_parse_assign eq_refl openai_cut_short chunks k Hf). }
  split; [exact H|]. intros S O. now apply normalize_fields.
Qed.

End OpenAI.

(** A stream of the Responses API in three chunks. *)
Lemma openai_chunking_witness :
  let parse := Fixture.table_parse OpenAIUsage.openai_events in
  (∀ k, obj_get k (OpenAIUsage.stream_usage parse OpenAIUsage.openai_chunks)
        = obj_get k (OpenAIUsage._parseOpenAIUsageFromSSE parse
                       (joined OpenAIUsage.openai_chunks) "" []))
  ∧ ∀ S O, _normalizeUsageSnapshot S O
             (OpenAIUsage.stream_usage parse OpenAIUsage.openai_chunks)
           = _normalizeUsageSnapshot S O
               (OpenAIUsage._parseOpenAIUsageFromSSE parse
                  (joined OpenAIUsage.openai_chunks) "" []).
Proof.
  apply (openai_usage_ignores_chunking (Fixture.table_parse OpenAIUsage.openai_events)).
  - vm_compute. reflexivity.
  - apply framed_check_sound. vm_compute. reflexivity.
Defined.

Example openai_chunks_outcome :
  joined OpenAIUsage.openai_chunks = OpenAIUsage.openai_text
  ∧ OpenAIUsage.stream_usage (Fixture.table_parse OpenAIUsage.openai_events)
      OpenAIUsage.openai_chunks
    = [ ("input_tokens", num 25); ("output_tokens", num 42); ("total_tokens", num 67) ].
Proof. vm_compute. split; reflexivity. Qed.

End ChunkingFacts.

(** ** More facts about usage normalisation and recording *)

Module SnapshotFacts.
Import Js JsString JsFacts Usage UsageFacts.
Local Open Scope Q_scope.

Section Normalize.

Variable StringToNumber : string -> number.
Variable ObjectToNumber : jsval -> number.

Abbreviation toNumber := (toNumber StringToNumber ObjectToNumber).
Abbreviation _normalizeUsageSnapshot :=
  (_normalizeUsageSnapshot StringToNumber ObjectToNumber).
Abbreviation _getTotalTokens := (_getTotalTokens StringToNumber ObjectToNumber).
Abbreviation _recordUsage := (_recordUsage StringToNumber ObjectToNumber).
Abbreviation folded_cache_create :=
  (folded_cache_create StringToNumber ObjectToNumber).

(** *** Coercion *)

Lemma Qmax_zero_fixed q : Qmax 0 (Qmax 0 q) = Qmax 0 q.
Proof.
  unfold Qmax, GenericMinMax.gmax. destruct (0 ?= q) eqn:E; [reflexivity| |reflexivity].
  now rewrite E.
Qed.

Lemma toNumber_of_num q : toNumber (num q) = Qmax 0 q.
Proof. reflexivity. Qed.

Lemma Qmax_zero_or_positive q :
  Qmax 0 q = 0 ∨ (Qgtb (Qmax 0 q) 0 = true ∧ 0 < Qmax 0 q).
Proof.
  unfold Qmax, GenericMinMax.gmax. destruct (0 ?= q) eqn:E; auto.
  right. rewrite <- Qlt_alt in E. split; [|assumption].
  unfold Qgtb. apply negb_true_iff. destruct (Qle_bool q 0) eqn:El; [|reflexivity].
  apply Qle_bool_iff in El. lra.
Qed.

(** A coerced count is the number 0 or a positive number. *)
Lemma toNumber_zero_or_positive v :
  toNumber v = 0 ∨ (Qgtb (toNumber v) 0 = true ∧ 0 < toNumber v).
Proof.
  unfold Usage.toNumber.
  destruct v; auto; (destruct (is_str _ ""); [auto|]);
    (destruct (finite_part _) as [q|]; [apply Qmax_zero_or_positive | auto]).
Qed.

Lemma toNumber_fixed v : toNumber (num (toNumber v)) = toNumber v.
Proof.
  rewrite toNumber_of_num. unfold Usage.toNumber.
  destruct v; try reflexivity; (destruct (is_str _ ""); [reflexivity|]);
    (destruct (finite_part _); [apply Qmax_zero_fixed | reflexivity]).
Qed.

Lemma Qmax_positive q : 0 < q → Qmax 0 q = q.
Proof. intros H. unfold Qmax, GenericMinMax.gmax. now rewrite (proj1 (Qlt_alt 0 q) H). Qed.

Lemma Qgtb_false_zero v : Qgtb (toNumber v) 0 = false → toNumber v = 0.
Proof.
  intros H. destruct (toNumber_zero_or_positive v) as [E | [E _]]; [assumption|].
  congruence.
Qed.

Lemma tiers_positive a b :
  Qgtb (toNumber a) 0 || Qgtb (toNumber b) 0 = true → 0 < toNumber a + toNumber b.
Proof.
  intros H. apply orb_true_iff in H.
  destruct (toNumber_zero_or_positive a) as [Za | [Ga Pa]];
    destruct (toNumber_zero_or_positive b) as [Zb | [Gb Pb]].
  - rewrite Za, Zb in H. destruct H; discriminate.
  - rewrite Za. lra.
  - rewrite Zb. lra.
  - lra.
Qed.

(** *** The fields of a snapshot *)

Lemma normalize_cache_creation u :
  obj_get "cache_creation" (_normalizeUsageSnapshot u)
  = if Qgtb (toNumber (raw_ephemeral_5m u)) 0 || Qgtb (toNumber (raw_ephemeral_1h u)) 0
    then VObj [ ("ephemeral_5m_input_tokens", num (toNumber (raw_ephemeral_5m u)));
                ("ephemeral_1h_input_tokens", num (toNumber (raw_ephemeral_1h u))) ]
    else VUndefined.
Proof.
  unfold Usage._normalizeUsageSnapshot, raw_ephemeral_5m, raw_ephemeral_1h. cbv zeta.
  destruct (_ || _); [apply obj_get_set_eq | reflexivity].
Qed.

Lemma normalize_no_tier_field u k :
  k = "ephemeral_5m_input_tokens" ∨ k = "ephemeral_1h_input_tokens" →
  obj_get k (_normalizeUsageSnapshot u) = VUndefined.
Proof.
  intros Hk. unfold Usage._normalizeUsageSnapshot. cbv zeta.
  destruct (_ || _); destruct Hk as [-> | ->];
    rewrite ?obj_get_set_ne by discriminate; reflexivity.
Qed.

Lemma normalized_tier u k :
  k = "ephemeral_5m_input_tokens" ∨ k = "ephemeral_1h_input_tokens" →
  toNumber (coalesce (opt_get (obj_get "cache_creation" (_normalizeUsageSnapshot u)) k)
              (obj_get k (_normalizeUsageSnapshot u)))
  = toNumber (coalesce (opt_get (obj_get "cache_creation" u) k) (obj_get k u)).
Proof.
  intros Hk. rewrite normalize_cache_creation, (normalize_no_tier_field u k Hk).
  fold (raw_ephemeral_5m u). fold (raw_ephemeral_1h u).
  destruct (Qgtb (toNumber (raw_ephemeral_5m u)) 0) eqn:E5;
    [|destruct (Qgtb (toNumber (raw_ephemeral_1h u)) 0) eqn:E1]; cbn [orb];
    destruct Hk as [-> | ->]; cbn [opt_get nullish get obj_get String.eqb Ascii.eqb
                                   Bool.eqb coalesce num];
    try apply toNumber_fixed.
  - fold (raw_ephemeral_5m u). now rewrite (Qgtb_false_zero _ E5).
  - fold (raw_ephemeral_1h u). now rewrite (Qgtb_false_zero _ E1).
Qed.

(** The snapshot is a function of the counts that end up in it. *)
Lemma normalize_by_result a b :
  toNumber (raw_input a) = toNumber (raw_input b) →
  toNumber (raw_output a) = toNumber (raw_output b) →
  toNumber (raw_cache_read a) = toNumber (raw_cache_read b) →
  folded_cache_create a = folded_cache_create b →
  toNumber (raw_ephemeral_5m a) = toNumber (raw_ephemeral_5m b) →
  toNumber (raw_ephemeral_1h a) = toNumber (raw_ephemeral_1h b) →
  _normalizeUsageSnapshot a = _normalizeUsageSnapshot b.
Proof.
  unfold Usage.folded_cache_create, raw_input, raw_output, raw_cache_read,
    raw_cache_create, raw_ephemeral_5m, raw_ephemeral_1h,
    Usage._normalizeUsageSnapshot.
  cbv zeta. intros -> -> -> Hc H5 H1. rewrite H5, H1 in Hc. now rewrite H5, H1, Hc.
Qed.

(** X14: a snapshot that is normalised again stays as it is. *)
Theorem normalizing_usage_is_idempotent (usageData : object) :
  _normalizeUsageSnapshot (_normalizeUsageSnapshot usageData)
  = _normalizeUsageSnapshot usageData.
Proof.
  set (n := _normalizeUsageSnapshot usageData).
  assert (H5 : toNumber (raw_ephemeral_5m n) = toNumber (raw_ephemeral_5m usageData))
    by (apply normalized_tier; now left).
  assert (H1 : toNumber (raw_ephemeral_1h n) = toNumber (raw_ephemeral_1h usageData))
    by (apply normalized_tier; now right).
  apply normalize_by_result; try assumption.
  - unfold raw_input at 1. unfold n. rewrite normalize_input. apply toNumber_fixed.
  - unfold raw_output at 1. unfold n. rewrite normalize_output. apply toNumber_fixed.
  - unfold raw_cache_read at 1. unfold n. rewrite normalize_cache_read.
    apply toNumber_fixed.
  - unfold Usage.folded_cache_create at 1. rewrite H5, H1.
    unfold raw_cache_create at 1 2. unfold n. rewrite normalize_cache_create.
    cbn [coalesce nullish num]. rewrite toNumber_of_num.
    unfold Usage.folded_cache_create.
    set (top := toNumber (raw_cache_create usageData)).
    set (e5 := toNumber (raw_ephemeral_5m usageData)).
    set (e1 := toNumber (raw_ephemeral_1h usageData)).
    destruct (Qeq_bool top 0 && (Qgtb e5 0 || Qgtb e1 0)) eqn:Efold.
    + assert (Hpos : 0 < e5 + e1).
      { apply andb_true_iff in Efold as [_ Ht]. now apply tiers_positive. }
      rewrite (Qmax_positive _ Hpos).
      match goal with |- (if ?c then _ else _) = _ => destruct c end; reflexivity.
    + unfold top. rewrite <- toNumber_of_num, toNumber_fixed. fold top.
      now rewrite Efold.
Qed.

(** *** Recording *)


End Normalize.

End SnapshotFacts.

(** ** More facts about request-body processing *)

Module ProcessedBodyFacts.
Import Js JsString JsFacts RequestBody RequestBodyFacts.

(** The steps of [_processRequestBody], by name. *)
Lemma processed_steps body ep opts b :
  _processRequestBody body ep opts = Some b →
  ∃ b4, inject_instructions ep
          (inject_system ep
             (set_stream opts (obj_has "stream" body) (strip_metadata body)))
        = Some b4
        ∧ b = drop_top_p b4.
Proof.
  unfold _processRequestBody. cbv zeta.
  destruct (inject_instructions _ _) as [b4|]; [|discriminate].
  cbn. intros [= <-]. eauto.
Qed.

Lemma set_stream_flag opts h o :
  obj_get "stream" (set_stream opts h o) = VBool true
  ↔ disableStreaming opts = false ∧ streamRequested opts = true.
Proof.
  unfold set_stream.
  destruct (disableStreaming opts), (streamRequested opts); cbn [orb negb];
    try (rewrite obj_get_set_eq; split; [intros _; auto | reflexivity]).
  all: destruct h; [rewrite obj_get_set_eq|
                    destruct (obj_has "stream" o) eqn:E;
                    [rewrite obj_get_delete_eq | rewrite (obj_has_false_get _ _ E)]];
    split; try discriminate; intros [? ?]; discriminate.
Qed.

Lemma set_stream_present opts h o :
  obj_has "stream" (set_stream opts h o) = true →
  h = true ∨ (disableStreaming opts = false ∧ streamRequested opts = true).
Proof.
  unfold set_stream.
  destruct (disableStreaming opts), (streamRequested opts); cbn [orb negb]; auto;
    destruct h; auto; destruct (obj_has "stream" o) eqn:E;
    rewrite ?obj_has_delete, ?E; cbn; discriminate.
Qed.

(** X16: processing leaves alone whatever it has no rule for. Every
    property of the request other than [metadata], [stream], [system],
    [instructions] and [top_p] reaches the upstream as the client sent it,
    [temperature] among them; [metadata] never does; [stream] is [true]
    exactly when streaming was asked for and not disabled, and is not added
    otherwise; and [top_p] is dropped exactly when the request sets both it
    and [temperature]. *)
Theorem processing_passes_the_rest_through
    (requestBody : object) (endpointType : string) (opts : options)
    (processedBody : object) :
  _processRequestBody requestBody endpointType opts = Some processedBody →
  (∀ k, k ≠ "metadata" → k ≠ "stream" → k ≠ "system" → k ≠ "instructions" →
        k ≠ "top_p" →
        obj_get k processedBody = obj_get k requestBody
        ∧ obj_has k processedBody = obj_has k requestBody)
  ∧ obj_has "metadata" processedBody = false
  ∧ (obj_get "stream" processedBody = VBool true
     ↔ disableStreaming opts = false ∧ streamRequested opts = true)
  ∧ (obj_has "stream" processedBody = true →
     obj_has "stream" requestBody = true
     ∨ (disableStreaming opts = false ∧ streamRequested opts = true))
  ∧ obj_get "top_p" processedBody
    = if negb (nullish (obj_get "temperature" requestBody))
         && negb (nullish (obj_get "top_p" requestBody))
      then VUndefined else obj_get "top_p" requestBody.
Proof.
  intros H. destruct (processed_is_settled _ _ _ _ H) as (Hmeta & _).
  destruct (processed_steps _ _ _ _ H) as (b4 & E4 & ->).
  assert (Hget : ∀ k, k ≠ "metadata" → k ≠ "stream" → k ≠ "system" →
                      k ≠ "instructions" → obj_get k b4 = obj_get k requestBody).
  { intros k H1 H2 H3 H4.
    rewrite (inject_instructions_get _ _ _ _ E4) by congruence.
    rewrite inject_system_get, set_stream_get, strip_metadata_get by congruence.
    reflexivity. }
  assert (Hhas : ∀ k, k ≠ "metadata" → k ≠ "stream" → k ≠ "system" →
                      k ≠ "instructions" → obj_has k b4 = obj_has k requestBody).
  { intros k H1 H2 H3 H4.
    rewrite (inject_instructions_has _ _ _ _ E4) by congruence.
    rewrite inject_system_has, set_stream_has, strip_metadata_has by congruence.
    reflexivity. }
  split; [|split; [exact Hmeta|split; [|split]]].
  - intros k H1 H2 H3 H4 H5.
    rewrite drop_top_p_get, drop_top_p_has by congruence. auto.
  - rewrite drop_top_p_get, (inject_instructions_get _ _ _ _ E4),
      inject_system_get by discriminate.
    apply set_stream_flag.
  - rewrite drop_top_p_has, (inject_instructions_has _ _ _ _ E4),
      inject_system_has by discriminate.
    apply set_stream_present.
  - unfold drop_top_p. rewrite !Hget by discriminate.
    destruct (_ && _); [apply obj_get_delete_eq | now apply Hget].
Qed.

(** A request with a sampling temperature and a nucleus, and metadata. *)
Lemma pass_through_witness :
  let requestBody :=
    [ ("model", VStr "claude-sonnet-4-5-20250929"); ("max_tokens", num 1024);
      ("temperature", num 1); ("top_p", num 1);
      ("metadata", VObj [ ("user_id", VStr "u-1") ]);
      ("messages", VArr [ VObj [ ("role", VStr "user"); ("content", VStr "Hi") ] ]) ] in
  let opts := {| disableStreaming := false; streamRequested := false |} in
  let processedBody :=
    [ ("model", VStr "claude-sonnet-4-5-20250929"); ("max_tokens", num 1024);
      ("temperature", num 1);
      ("messages", VArr [ VObj [ ("role", VStr "user"); ("content", VStr "Hi") ] ]);
      ("system", VArr [ promptBlock ]) ] in
  (∀ k, k ≠ "metadata" → k ≠ "stream" → k ≠ "system" → k ≠ "instructions" →
        k ≠ "top_p" →
        obj_get k processedBody = obj_get k requestBody
        ∧ obj_has k processedBody = obj_has k requestBody)
  ∧ obj_has "metadata" processedBody = false
  ∧ (obj_get "stream" processedBody = VBool true
     ↔ disableStreaming opts = false ∧ streamRequested opts = true)
  ∧ (obj_has "stream" processedBody = true →
     obj_has "stream" requestBody = true
     ∨ (disableStreaming opts = false ∧ streamRequested opts = true))
  ∧ obj_get "top_p" processedBody
    = if negb (nullish (obj_get "temperature" requestBody))
         && negb (nullish (obj_get "top_p" requestBody))
      then VUndefined else obj_get "top_p" requestBody.
Proof.
  cbv zeta. apply (processing_passes_the_rest_through _ "anthropic"). reflexivity.
Defined.

(** *** The system prompt *)

Lemma inject_system_result o :
  obj_get "system" (inject_system "anthropic" o)
  = match obj_get "system" o with
    | VArr items =>
        VArr (if existsb is_prompt_block items then items else promptBlock :: items)
    | _ => VArr [promptBlock]
    end.
Proof.
  unfold inject_system. change (String.eqb "anthropic" "anthropic") with true.
  cbv iota.
  destruct (obj_get "system" o) as [| | | | |items|] eqn:E;
    try apply obj_get_set_eq.
  destruct (existsb is_prompt_block items); [exact E | apply obj_get_set_eq].
Qed.

Lemma inject_system_other ep o : ep ≠ "anthropic" → inject_system ep o = o.
Proof.
  intros H. unfold inject_system. now destruct (String.eqb_spec ep "anthropic").
Qed.

Lemma inject_instructions_other ep o : ep ≠ "openai" → inject_instructions ep o = Some o.
Proof.
  intros H. unfold inject_instructions. now destruct (String.eqb_spec ep "openai").
Qed.

Lemma inject_instructions_result o o' :
  inject_instructions "openai" o = Some o' →
  obj_get "instructions" o'
  = match obj_get "instructions" o with
    | VStr s =>
        if String.eqb s "" then VStr SYSTEM_PROMPT
        else if startsWith s SYSTEM_PROMPT then VStr s
             else VStr (SYSTEM_PROMPT +:+ s)
    | _ => VStr SYSTEM_PROMPT
    end.
Proof.
  unfold inject_instructions. change (String.eqb "openai" "openai") with true.
  cbv iota.
  destruct (obj_get "instructions" o) as [| |[|]|[q| |[|]]|s| |] eqn:E;
    cbn [truthy]; try discriminate;
    try (intros [= <-]; apply obj_get_set_eq).
  - destruct (negb (Qeq_bool q 0)); [discriminate|].
    intros [= <-]. apply obj_get_set_eq.
  - destruct (String.eqb s ""); cbn [negb]; [intros [= <-]; apply obj_get_set_eq|].
    destruct (startsWith s SYSTEM_PROMPT); intros [= <-];
      [exact E | apply obj_get_set_eq].
Qed.

(** X17: what the upstream gets as system prompt. On the Anthropic
    endpoint [system] is an array in which the prompt of the relay stands:
    the array of the client as it is when it holds the prompt already, with
    the prompt put in front when it does not, and the prompt alone when the
    client sent no array, whatever else it sent. On the OpenAI endpoint
    [instructions] is the text of the client behind the prompt, or the
    prompt alone. On either endpoint the field of the other is left as it
    is. *)
Theorem system_prompt_reaches_the_upstream
    (requestBody : object) (endpointType : string) (opts : options)
    (processedBody : object) :
  _processRequestBody requestBody endpointType opts = Some processedBody →
  (endpointType = "anthropic" →
   obj_get "system" processedBody
   = match obj_get "system" requestBody with
     | VArr items =>
         VArr (if existsb is_prompt_block items then items else promptBlock :: items)
     | _ => VArr [promptBlock]
     end)
  ∧ (endpointType ≠ "anthropic" →
     obj_get "system" processedBody = obj_get "system" requestBody)
  ∧ (endpointType = "openai" →
     obj_get "instructions" processedBody
     = match obj_get "instructions" requestBody with
       | VStr s =>
           if String.eqb s "" then VStr SYSTEM_PROMPT
           else if startsWith s SYSTEM_PROMPT then VStr s
                else VStr (SYSTEM_PROMPT +:+ s)
       | _ => VStr SYSTEM_PROMPT
       end)
  ∧ (endpointType ≠ "openai" →
     obj_get "instructions" processedBody = obj_get "instructions" requestBody).
Proof.
  intros H. destruct (processed_steps _ _ _ _ H) as (b4 & E4 & ->).
  set (b2 := set_stream opts (obj_has "stream" requestBody)
               (strip_metadata requestBody)) in *.
  assert (Hsys2 : obj_get "system" b2 = obj_get "system" requestBody).
  { unfold b2. now rewrite set_stream_get, strip_metadata_get by discriminate. }
  assert (Hins2 : obj_get "instructions" b2 = obj_get "instructions" requestBody).
  { unfold b2. now rewrite set_stream_get, strip_metadata_get by discriminate. }
  repeat split.
  - intros ->. rewrite drop_top_p_get, (inject_instructions_get _ _ _ _ E4)
      by discriminate.
    now rewrite inject_system_result, Hsys2.
  - intros Hne. rewrite drop_top_p_get, (inject_instructions_get _ _ _ _ E4)
      by discriminate.
    now rewrite (inject_system_other _ _ Hne).
  - intros ->. rewrite drop_top_p_get by discriminate.
    rewrite (inject_instructions_result _ _ E4).
    now rewrite inject_system_get, Hins2 by discriminate.
  - intros Hne. rewrite drop_top_p_get by discriminate.
    rewrite (inject_instructions_other _ _ Hne) in E4. injection E4 as <-.
    now rewrite inject_system_get by discriminate.
Qed.

(** A request whose system prompt is a string. *)
Lemma system_prompt_witness :
  let requestBody :=
    [ ("model", VStr "claude-sonnet-4-5-20250929");
      ("system", VStr "Answer in French.");
      ("messages", VArr [ VObj [ ("role", VStr "user"); ("content", VStr "Hi") ] ]) ] in
  let processedBody :=
    [ ("model", VStr "claude-sonnet-4-5-20250929");
      ("system", VArr [ promptBlock ]);
      ("messages", VArr [ VObj [ ("role", VStr "user"); ("content", VStr "Hi") ] ]) ] in
  ("anthropic" = "anthropic" →
   obj_get "system" processedBody
   = match obj_get "system" requestBody with
     | VArr items =>
         VArr (if existsb is_prompt_block items then items else promptBlock :: items)
     | _ => VArr [promptBlock]
     end)
  ∧ ("anthropic" ≠ "anthropic" →
     obj_get "system" processedBody = obj_get "system" requestBody)
  ∧ ("anthropic" = "openai" →
     obj_get "instructions" processedBody
     = match obj_get "instructions" requestBody with
       | VStr s =>
           if String.eqb s "" then VStr SYSTEM_PROMPT
           else if startsWith s SYSTEM_PROMPT then VStr s
                else VStr (SYSTEM_PROMPT +:+ s)
       | _ => VStr SYSTEM_PROMPT
       end)
  ∧ ("anthropic" ≠ "openai" →
     obj_get "instructions" processedBody = obj_get "instructions" requestBody).
Proof.
  cbv zeta.
  apply (system_prompt_reaches_the_upstream _ "anthropic"
           {| disableStreaming := false; streamRequested := false |}).
  reflexivity.
Defined.

End ProcessedBodyFacts.

(** ** Facts about the end of a stream *)

Module CompletionFacts.
Import JsString JsFacts Usage StreamFacts ModelsFacts Completion.

(** *** The window *)

Lemma length_append a b : String.length (a +:+ b) = (String.length a + String.length b)%nat.
Proof. induction a as [|c a IH]; rewrite ?append_nil_l, ?append_cons; cbn; auto. Qed.

Lemma slice_app_le n a b :
  (n <= String.length a)%nat → slice n (a +:+ b) = slice n a +:+ b.
Proof.
  revert a. induction n as [|n IH]; intros a H; [reflexivity|].
  destruct a as [|c a]; [cbn in H; lia|]. rewrite append_cons. cbn.
  apply IH. cbn in H. lia.
Qed.

Lemma slice_app_ge n a b :
  (String.length a <= n)%nat → slice n (a +:+ b) = slice (n - String.length a) b.
Proof.
  revert a. induction n as [|n IH]; intros a H.
  - destruct a; [now rewrite append_nil_l | cbn in H; lia].
  - destruct a as [|c a]; [now rewrite append_nil_l|].
    rewrite append_cons. cbn. apply IH. cbn in H. lia.
Qed.

Lemma slice_slice n m s : slice n (slice m s) = slice (m + n) s.
Proof.
  revert s. induction m as [|m IH]; intros s; [reflexivity|].
  destruct s as [|c s]; cbn; [now destruct n | apply IH].
Qed.

Lemma length_slice n s : String.length (slice n s) = (String.length s - n)%nat.
Proof.
  revert s. induction n as [|n IH]; intros s; cbn; [lia|].
  destruct s as [|c s]; cbn; [reflexivity | apply IH].
Qed.

(** The window of a window and more text is the window of all the text. *)
Lemma slice_last_app n a b :
  slice_last n (slice_last n a +:+ b) = slice_last n (a +:+ b).
Proof.
  unfold slice_last. rewrite !length_append, length_slice.
  destruct (Nat.le_gt_cases (String.length a) n) as [Hle | Hgt].
  - replace (String.length a - n)%nat with 0%nat by lia. cbn [slice].
    f_equal. lia.
  - set (d := (String.length a - n)%nat).
    replace (String.length a - d + String.length b - n)%nat
      with (String.length b) by (unfold d; lia).
    replace (String.length a + String.length b - n)%nat
      with (d + String.length b)%nat by (unfold d; lia).
    rewrite <- slice_slice, (slice_app_le d a b) by (unfold d; lia). reflexivity.
Qed.

Lemma window_after ep chunks st :
  completionWindow (fold_left (on_chunk ep) chunks st)
  = slice_last 1024 (completionWindow st +:+ joined chunks)
  ∨ (chunks = [] ∧ True).
Proof.
  destruct chunks as [|c chunks]; [now right|]. left. revert st c.
  induction chunks as [|c' chunks IH]; intros st c.
  - cbn [fold_left on_chunk completionWindow]. unfold joined. cbn [fold_right].
    now rewrite append_nil_r.
  - change (fold_left (on_chunk ep) (c :: c' :: chunks) st)
      with (fold_left (on_chunk ep) (c' :: chunks) (on_chunk ep st c)).
    rewrite IH. cbn [on_chunk completionWindow].
    rewrite slice_last_app. unfold joined. cbn [fold_right].
    now rewrite append_assoc.
Qed.

Lemma window_of_stream ep chunks :
  completionWindow (after_chunks ep chunks) = slice_last 1024 (joined chunks).
Proof.
  unfold after_chunks.
  destruct (window_after ep chunks stream_opened) as [-> | [-> _]]; [|reflexivity].
  cbn [stream_opened completionWindow]. now rewrite append_nil_l.
Qed.

Lemma after_snoc ep chunks c :
  after_chunks ep (chunks ++ [c]) = on_chunk ep (after_chunks ep chunks) c.
Proof. unfold after_chunks. now rewrite fold_left_app. Qed.

Lemma joined_snoc chunks c : joined (chunks ++ [c]) = joined chunks +:+ c.
Proof.
  rewrite joined_app. unfold joined at 2. cbn. now rewrite append_nil_r.
Qed.

Lemma completed_after ep chunks :
  responseCompleted (after_chunks ep chunks) = true
  ↔ ∃ n, (0 < n <= length chunks)%nat
         ∧ _detectStreamCompletion (slice_last 1024 (joined (take n chunks))) ep = true.
Proof.
  induction chunks as [|c chunks IH] using rev_ind.
  - cbn. split; [discriminate | intros (n & Hn & _); lia].
  - rewrite after_snoc. cbn [on_chunk responseCompleted].
    rewrite window_of_stream, slice_last_app, <- joined_snoc.
    rewrite orb_true_iff, IH, length_app. cbn [length]. split.
    + intros [(n & Hn & Hd) | Hd].
      * exists n. split; [lia|]. now rewrite take_app_le by lia.
      * exists (S (length chunks)). split; [lia|].
        rewrite take_ge by (rewrite length_app; cbn; lia). exact Hd.
    + intros (n & Hn & Hd).
      destruct (decide (n <= length chunks)%nat) as [Hle | Hgt].
      * left. exists n. split; [lia|]. now rewrite take_app_le in Hd by lia.
      * right. rewrite take_ge in Hd by (rewrite length_app; cbn; lia). exact Hd.
Qed.

(** X18: the handler of a stream looks for the end in the right place.
    After any chunks its window is the last 1024 characters of all that
    arrived, however the text was cut; and the end of the response counts
    as seen exactly when, after one of the chunks, the last 1024 characters
    received until then showed a terminal marker. *)
Theorem completion_is_sought_in_the_last_1024_characters
    (endpointType : string) (chunks : list string) :
  completionWindow (after_chunks endpointType chunks)
  = slice_last 1024 (joined chunks)
  ∧ (responseCompleted (after_chunks endpointType chunks) = true
     ↔ ∃ n, (0 < n <= length chunks)%nat
            ∧ _detectStreamCompletion (slice_last 1024 (joined (take n chunks)))
                endpointType = true).
Proof.
  split; [apply window_of_stream | apply completed_after].
Qed.

(** *** Markers *)

Lemma toLowerCase_app a b : toLowerCase (a +:+ b) = toLowerCase a +:+ toLowerCase b.
Proof.
  unfold toLowerCase. induction a as [|c a IH];
    rewrite ?append_nil_l, ?append_cons; cbn; [reflexivity|].
  now rewrite IH, append_cons.
Qed.

Lemma nonempty_window n before marker after :
  (0 < n)%nat → marker ≠ "" →
  (String.length marker + String.length after <= n)%nat →
  String.eqb (slice_last n (before +:+ (marker +:+ after))) "" = false.
Proof.
  intros Hn Hm H. apply String.eqb_neq. intros E.
  apply (f_equal String.length) in E. unfold slice_last in E.
  rewrite length_slice, !length_append in E. cbn in E.
  destruct marker; [contradiction | cbn in *; lia].
Qed.

(** X19: the end of an Anthropic stream is not missed because of the way
    the stream was cut. When the text received up to some chunk holds the
    event [message_stop], in whatever case, with no more than 1005
    characters behind it (it lies in the last 1024 characters), the end of
    the response counts as seen, wherever the chunks were cut, inside the
    marker included. *)
Theorem message_stop_is_seen_across_chunks
    (chunks : list string) (n : nat) (before marker after : string) :
  (0 < n <= length chunks)%nat →
  joined (take n chunks) = before +:+ (marker +:+ after) →
  toLowerCase marker = "event: message_stop" →
  (String.length after <= 1005)%nat →
  responseCompleted (after_chunks "anthropic" chunks) = true.
Proof.
  intros Hn Htext Hmarker Hafter.
  assert (Hlen : String.length marker = 19%nat).
  { transitivity (String.length (toLowerCase marker)); [|now rewrite Hmarker].
    unfold toLowerCase. clear. induction marker; cbn; auto. }
  assert (Hne : marker ≠ "") by (intros ->; discriminate).
  apply completed_after. exists n. split; [assumption|]. rewrite Htext.
  unfold _detectStreamCompletion.
  rewrite nonempty_window by (try lia; assumption). cbv zeta.
  change (String.eqb "anthropic" "anthropic") with true. cbv iota.
  apply orb_true_iff. left. rewrite <- Hmarker.
  unfold slice_last. rewrite !length_append.
  set (d := (String.length before + (String.length marker + String.length after)
             - 1024)%nat).
  assert (Hd : (d <= String.length before)%nat) by (unfold d; lia).
  rewrite (slice_app_le d before _ Hd), !toLowerCase_app.
  apply includes_spec. eauto.
Qed.

(** The event [message_stop] cut in two by the network. *)
Lemma message_stop_witness :
  responseCompleted (after_chunks "anthropic" stop_chunks) = true.
Proof.
  apply (message_stop_is_seen_across_chunks stop_chunks 2
           ("event: content_block_stop" +:+ String LF "data: {}"
            +:+ String LF (String LF ""))
           "event: message_stop"
           (String LF "data: {}" +:+ String LF (String LF ""))).
  - cbn. lia.
  - vm_compute. reflexivity.
  - reflexivity.
  - vm_compute. lia.
Defined.

End CompletionFacts.

(** ** Facts about the lock service over time *)

Module LockServiceFacts.
Import Lock LockFacts LockService.

(** *** One attempt *)

Lemma attempt_free now st c i :
  call_phase c = Attempt i → 0 < r_ttl (call_options c) →
  live now (redis st) (lockPrefix +:+ call_resource c) = None →
  fst (attempt now st c) = taken now (call_resource c) (call_options c) st
  ∧ call_phase (snd (attempt now st c))
    = Acquired (lock_taken now (call_resource c) (call_options c))
  ∧ slept (snd (attempt now st c)) = slept c.
Proof.
  intros Hp Httl Hfree. unfold attempt, set_px_nx. rewrite Hp.
  destruct (Z.leb_spec (r_ttl (call_options c)) 0); [lia|].
  rewrite Hfree. cbn. auto.
Qed.

Lemma attempt_held now st c i :
  call_phase c = Attempt i → 0 < r_ttl (call_options c) →
  is_Some (live now (redis st) (lockPrefix +:+ call_resource c)) →
  fst (attempt now st c) = st
  ∧ call_resource (snd (attempt now st c)) = call_resource c
  ∧ call_options (snd (attempt now st c)) = call_options c
  ∧ (if (i <? r_retries (call_options c))%nat
     then call_phase (snd (attempt now st c)) = Attempt (S i)
          ∧ slept (snd (attempt now st c))
            = slept c ++ [r_retryDelay (call_options c) * (Z.of_nat i + 1)]
     else call_phase (snd (attempt now st c)) = ReturnedNull
          ∧ slept (snd (attempt now st c)) = slept c).
Proof.
  intros Hp Httl [e He]. unfold attempt, set_px_nx. rewrite Hp.
  destruct (Z.leb_spec (r_ttl (call_options c)) 0); [lia|].
  rewrite He. destruct (i <? r_retries (call_options c))%nat; cbn;
    rewrite state_eta; auto.
Qed.

(** *** The loop of [acquireLock] *)

Section Clock.

Variable clock : nat → Z.
Variable random : nat → string.

Abbreviation attempts := (attempts clock).
Abbreviation acquireLock := (acquireLock clock random).
Abbreviation releaseLock := (releaseLock clock).
Abbreviation releaseMultipleLocks := (releaseMultipleLocks clock).
Abbreviation acquire_each := (acquire_each clock random).
Abbreviation acquireMultipleLocks := (acquireMultipleLocks clock random).
Abbreviation releaseAllLocks := (releaseAllLocks clock).

(** A call that is about to make attempt [i], with nothing else touching
    the store: it gets the lock at the first attempt that finds the key
    free, and returns [null] when none of them does. *)
Lemma attempts_alone fuel t c i :
  call_phase c = Attempt i → 0 < r_ttl (call_options c) →
  (i <= r_retries (call_options c))%nat →
  fuel = S (r_retries (call_options c) - i) →
  slept c = linear_backoff (r_retryDelay (call_options c)) i →
  let t' := fst (attempts fuel t c) in
  let c' := snd (attempts fuel t c) in
  draws t' = draws t
  ∧ ((∃ j, (i + j <= r_retries (call_options c))%nat
           ∧ (∀ m, (m < j)%nat →
                   busy (clock (tick t + m)) (service t) (call_resource c))
           ∧ ¬ busy (clock (tick t + j)) (service t) (call_resource c)
           ∧ tick t' = S (tick t + j)
           ∧ service t'
             = taken (clock (tick t + j)) (call_resource c) (call_options c) (service t)
           ∧ call_phase c'
             = Acquired (lock_taken (clock (tick t + j)) (call_resource c)
                           (call_options c)))
     ∨ ((∀ m, (i + m <= r_retries (call_options c))%nat →
              busy (clock (tick t + m)) (service t) (call_resource c))
        ∧ tick t' = S (tick t + (r_retries (call_options c) - i))
        ∧ service t' = service t
        ∧ call_phase c' = ReturnedNull
        ∧ slept c'
          = linear_backoff (r_retryDelay (call_options c))
              (r_retries (call_options c)))).
Proof.
  revert t c i. induction fuel as [|fuel IH]; intros t c i Hp Httl Hi Hfuel Hslept;
    [lia|].
  cbv zeta. cbn [LockService.attempts]. rewrite Hp. unfold now.
  destruct (live (clock (tick t)) (redis (service t))
              (lockPrefix +:+ call_resource c)) as [e|] eqn:Elive.
  - destruct (attempt_held (clock (tick t)) (service t) c i Hp Httl)
      as (Est & Eres & Eopt & Hnext); [rewrite Elive; eauto|].
    destruct (attempt (clock (tick t)) (service t) c) as [st c1] eqn:Ea.
    cbn [fst snd] in *. subst st.
    destruct (Nat.ltb_spec i (r_retries (call_options c))) as [Hlt | Hge].
    + destruct Hnext as [Hp1 Hs1].
      specialize (IH (tock t (service t)) c1 (S i)).
      rewrite Eopt, Eres in IH. cbv zeta in IH.
      destruct IH as (Hd & IH); [assumption.. | lia | lia | |].
      { rewrite Hs1, Hslept. symmetry. apply linear_backoff_S. }
      cbn [tock tick service draws] in *. split; [exact Hd|].
      destruct IH as [(j & Hj & Hbusy & Hfree & Htick & Hsvc & Hph)
                     | (Hbusy & Htick & Hsvc & Hph & Hsl)].
      * left. exists (S j). replace (tick t + S j)%nat with (S (tick t) + j)%nat by lia.
        repeat split; auto; [lia|]. intros m Hm. destruct m as [|m].
        -- rewrite Nat.add_0_r. unfold busy. rewrite Elive. eauto.
        -- replace (tick t + S m)%nat with (S (tick t) + m)%nat by lia.
           apply Hbusy. lia.
      * right. repeat split; auto; [|lia]. intros m Hm. destruct m as [|m].
        -- rewrite Nat.add_0_r. unfold busy. rewrite Elive. eauto.
        -- replace (tick t + S m)%nat with (S (tick t) + m)%nat by lia.
           apply Hbusy. lia.
    + destruct Hnext as [Hp1 Hs1].
      assert (i = r_retries (call_options c)) as Ei by lia.
      destruct fuel as [|fuel]; cbn [LockService.attempts]; rewrite ?Hp1;
        cbn [fst snd tock tick service draws]; (split; [reflexivity|]);
        right; (repeat split; auto; [| lia | now rewrite Hs1, Hslept, Ei]);
        intros m Hm; replace m with 0%nat by lia; rewrite Nat.add_0_r;
        unfold busy; rewrite Elive; eauto.
  - destruct (attempt_free (clock (tick t)) (service t) c i Hp Httl Elive)
      as (Est & Hp1 & _).
    destruct (attempt (clock (tick t)) (service t) c) as [st c1] eqn:Ea.
    cbn [fst snd] in *. subst st.
    assert (Hdone : LockService.attempts clock fuel
                      (tock t (taken (clock (tick t)) (call_resource c)
                                 (call_options c) (service t))) c1
                    = (tock t (taken (clock (tick t)) (call_resource c)
                                 (call_options c) (service t)), c1)).
    { destruct fuel; cbn [LockService.attempts]; [reflexivity | now rewrite Hp1]. }
    rewrite Hdone. cbn [fst snd tock tick service draws]. split; [reflexivity|].
    left. exists 0%nat. rewrite !Nat.add_0_r. repeat split; auto.
    + intros m Hm. lia.
    + unfold busy. rewrite Elive. intros [? ?]. discriminate.
Qed.

Lemma acquire_alone t resource o :
  0 < r_ttl (resolve o (random (draws t))) →
  let opts := resolve o (random (draws t)) in
  let t' := fst (acquireLock t resource o) in
  let c' := snd (acquireLock t resource o) in
  draws t' = S (draws t)
  ∧ ((∃ j, (j <= r_retries opts)%nat
           ∧ (∀ m, (m < j)%nat → busy (clock (tick t + m)) (service t) resource)
           ∧ ¬ busy (clock (tick t + j)) (service t) resource
           ∧ tick t' = S (tick t + j)
           ∧ service t' = taken (clock (tick t + j)) resource opts (service t)
           ∧ call_phase c' = Acquired (lock_taken (clock (tick t + j)) resource opts))
     ∨ ((∀ m, (m <= r_retries opts)%nat →
              busy (clock (tick t + m)) (service t) resource)
        ∧ tick t' = S (tick t + r_retries opts)
        ∧ service t' = service t
        ∧ call_phase c' = ReturnedNull
        ∧ slept c' = linear_backoff (r_retryDelay opts) (r_retries opts))).
Proof.
  intros Httl. cbv zeta. unfold LockService.acquireLock.
  pose proof (attempts_alone
                (S (r_retries (call_options (start_call resource o (random (draws t))))))
                {| service := service t; tick := tick t; draws := S (draws t) |}
                (start_call resource o (random (draws t))) 0%nat eq_refl Httl)
    as H.
  cbv zeta in H.
  cbn [start_call call_options call_resource tick service draws Nat.add] in H.
  rewrite Nat.sub_0_r in H. apply H; [lia | reflexivity | reflexivity].
Qed.

(** A time to live that is not positive: every [SET] is refused, and the
    call throws at its last attempt without having slept. *)
Lemma attempts_invalid fuel t c i :
  call_phase c = Attempt i → r_ttl (call_options c) <= 0 →
  (i <= r_retries (call_options c))%nat →
  fuel = S (r_retries (call_options c) - i) →
  let t' := fst (attempts fuel t c) in
  let c' := snd (attempts fuel t c) in
  service t' = service t
  ∧ tick t' = S (tick t + (r_retries (call_options c) - i))
  ∧ call_phase c' = Threw
  ∧ slept c' = slept c.
Proof.
  revert t c i. induction fuel as [|fuel IH]; intros t c i Hp Httl Hi Hfuel; [lia|].
  cbv zeta. cbn [LockService.attempts]. rewrite Hp. unfold now.
  unfold attempt, set_px_nx. rewrite Hp.
  destruct (Z.leb_spec (r_ttl (call_options c)) 0); [|lia].
  destruct (Nat.eqb_spec i (r_retries (call_options c))) as [Ei | Hne].
  - rewrite state_eta.
    destruct fuel; cbn [LockService.attempts call_phase fst snd tock tick service slept];
      repeat split; auto; lia.
  - rewrite state_eta.
    match goal with
    | |- context [LockService.attempts clock fuel ?t1 ?c1] =>
        specialize (IH t1 c1 (S i)); cbv zeta in IH;
        cbn [call_phase call_options slept tock tick service] in IH;
        destruct IH as (Hs & Ht & Hp' & Hsl); [reflexivity | lia | lia | lia |]
    end.
    repeat split; auto. lia.
Qed.

(** *** Release *)

Lemma release_at t l :
  key l ≠ "" → value l ≠ "" →
  let t' := fst (releaseLock t l) in
  tick t' = S (tick t) ∧ draws t' = draws t
  ∧ (holds_token (clock (tick t)) (redis (service t)) l →
     snd (releaseLock t l) = true
     ∧ redis (service t') = delete (key l) (redis (service t))
     ∧ activeLocks (service t') = delete (resource l) (activeLocks (service t)))
  ∧ (¬ holds_token (clock (tick t)) (redis (service t)) l →
     snd (releaseLock t l) = false ∧ service t' = service t).
Proof.
  intros Hk Hv. cbv zeta. unfold LockService.releaseLock, now.
  destruct (String.eqb_spec (key l) ""); [contradiction|].
  destruct (String.eqb_spec (value l) ""); [contradiction|]. cbn [orb].
  unfold Lock.releaseLock, release_script, holds_token.
  destruct (String.eqb_spec (key l) ""); [contradiction|].
  destruct (String.eqb_spec (value l) ""); [contradiction|]. cbn [orb].
  destruct (live (clock (tick t)) (redis (service t)) (key l)) as [e|] eqn:E.
  - destruct (String.eqb_spec (stored e) (value l)) as [Heq | Hne]; cbn.
    + split; [reflexivity|]. split; [reflexivity|]. split; [auto|].
      intros Hnot; exfalso; eauto.
    + rewrite state_eta. split; [reflexivity|]. split; [reflexivity|].
      split; [|auto]. intros (e' & [= <-] & He'). contradiction.
  - cbn. rewrite state_eta. split; [reflexivity|]. split; [reflexivity|].
    split; [|auto]. intros (e' & [=] & _).
Qed.

(** A release takes no key that it does not delete, and deletes none
    that holds another token. *)
Lemma release_only_deletes t l :
  let t' := fst (releaseLock t l) in
  (tick t <= tick t')%nat
  ∧ (∀ k e, redis (service t') !! k = Some e → redis (service t) !! k = Some e)
  ∧ (∀ k e, redis (service t) !! k = Some e →
            (key l = k → value l ≠ stored e) →
            redis (service t') !! k = Some e).
Proof.
  cbv zeta.
  destruct (String.eqb_spec (key l) "") as [Ek | Hk];
    [unfold LockService.releaseLock; rewrite Ek; cbn; auto|].
  destruct (String.eqb_spec (value l) "") as [Ev | Hv];
    [unfold LockService.releaseLock; rewrite Ev, orb_true_r; cbn; auto|].
  destruct (release_at t l Hk Hv) as (Ht & _ & Hheld & Hnot).
  split; [lia|].
  destruct (live (clock (tick t)) (redis (service t)) (key l)) as [e0|] eqn:E.
  - destruct (String.eqb_spec (stored e0) (value l)) as [Heq | Hne].
    + destruct Hheld as (_ & Hdb & _); [exists e0; auto|]. rewrite Hdb. split.
      * intros k e Hl. apply lookup_delete_Some in Hl. tauto.
      * intros k e Hl Hother. apply lookup_delete_Some. split; [|assumption].
        intros Ek. apply (Hother Ek). apply live_lookup in E.
        rewrite <- Ek, E in Hl. injection Hl as <-. now symmetry.
    + destruct Hnot as [_ ->]; [|auto].
      intros (e' & He' & Hst). rewrite E in He'. injection He' as <-. contradiction.
  - destruct Hnot as [_ ->]; [|auto].
    intros (e' & He' & _). rewrite E in He'. discriminate.
Qed.

(** What a series of releases leaves: it only deletes, it deletes no key
    that holds a token of none of the locks, it counts at most one release
    per lock, and an entry that it leaves under the key and with the token
    of one of the locks had expired when that lock was released. *)
Lemma release_each t locks :
  let t' := fst (releaseMultipleLocks t locks) in
  (tick t <= tick t')%nat
  ∧ draws t' = draws t
  ∧ (snd (releaseMultipleLocks t locks) <= length locks)%nat
  ∧ (∀ k e, redis (service t') !! k = Some e → redis (service t) !! k = Some e)
  ∧ (∀ k e, redis (service t) !! k = Some e →
            (∀ l, l ∈ locks → key l = k → value l ≠ stored e) →
            redis (service t') !! k = Some e)
  ∧ (∀ l e, l ∈ locks → key l ≠ "" → value l ≠ "" →
            redis (service t') !! key l = Some e → stored e = value l →
            ∃ n, (tick t <= n < tick t')%nat ∧ expires e <= clock n).
Proof.
  revert t. induction locks as [|l locks IH]; intros t; cbv zeta.
  - cbn. repeat split; auto. intros l e Hin. inversion Hin.
  - cbn [LockService.releaseMultipleLocks].
    pose proof (release_only_deletes t l) as (Ht1 & Hdel1 & Hkeep1). cbv zeta in *.
    destruct (LockService.releaseLock clock t l) as [t1 released] eqn:Er.
    cbn [fst snd] in *.
    specialize (IH t1). cbv zeta in IH.
    destruct (LockService.releaseMultipleLocks clock t1 locks) as [t2 n] eqn:Em.
    cbn [fst snd] in *.
    destruct IH as (Ht2 & Hd2 & Hn & Hdel2 & Hkeep2 & Hexp2).
    split; [lia|]. split.
    { rewrite Hd2. unfold LockService.releaseLock in Er.
      destruct (String.eqb (key l) "" || String.eqb (value l) "");
        [now injection Er as <- _|].
      destruct (Lock.releaseLock (now clock t) (service t) (Some l)).
      now injection Er as <- _. }
    split; [destruct released; cbn [length]; lia|].
    split; [auto|]. split.
    { intros k e Hl Hother. apply Hkeep2.
      - apply Hkeep1; [assumption|]. intros Ek. apply (Hother l); [left | assumption].
      - intros l' Hin. apply Hother. now right. }
    intros l' e Hin Hk Hv Hl Hst. apply elem_of_cons in Hin as [-> | Hin].
    + pose proof (release_at t l Hk Hv) as (Htick & _ & Hheld & _).
      rewrite Er in Htick, Hheld. cbn [fst snd] in *.
      exists (tick t). split; [lia|].
      apply Hdel2 in Hl.
      destruct (Z.ltb_spec (clock (tick t)) (expires e)) as [Hlive | ?]; [|assumption].
      exfalso. destruct Hheld as (_ & Hdb & _).
      * exists e. split; [|assumption]. apply lookup_live; [|assumption]. now apply Hdel1.
      * rewrite Hdb, lookup_delete_eq in Hl. discriminate.
    + destruct (Hexp2 l' e Hin Hk Hv Hl Hst) as (m & Hm & He).
      exists m. split; [lia | assumption].
Qed.

Lemma total_backoff delay n :
  2 * total_delay (linear_backoff delay n) = delay * Z.of_nat n * (Z.of_nat n + 1).
Proof.
  induction n as [|n IH]; [cbn; lia|].
  rewrite linear_backoff_S. unfold total_delay in *.
  rewrite fold_right_app. cbn [fold_right].
  assert (Hshift : ∀ l a, fold_right Z.add a l = fold_right Z.add 0 l + a).
  { induction l as [|x l IHl]; intros a; cbn; [lia | rewrite IHl; lia]. }
  rewrite Hshift. nia.
Qed.

Lemma key_nonempty resource : lockPrefix +:+ resource ≠ "".
Proof. discriminate. Qed.

Lemma live_taken now n resource opts st :
  live n (redis (taken now resource opts st)) (lockPrefix +:+ resource)
  = if n <? now + r_ttl opts then Some (lease now opts) else None.
Proof. unfold live, taken. cbn [redis]. now rewrite lookup_insert_eq. Qed.

Lemma live_deleted n k db : live n (delete k db) k = None.
Proof. unfold live. now rewrite lookup_delete_eq. Qed.

Lemma acquire_free t resource o :
  0 < r_ttl (resolve o (random (draws t))) →
  ¬ busy (clock (tick t)) (service t) resource →
  let opts := resolve o (random (draws t)) in
  let t1 := fst (acquireLock t resource o) in
  outcome (snd (acquireLock t resource o))
  = Got (lock_taken (clock (tick t)) resource opts)
  ∧ tick t1 = S (tick t)
  ∧ service t1 = taken (clock (tick t)) resource opts (service t).
Proof.
  intros Httl Hfree. cbv zeta.
  destruct (acquire_alone t resource o Httl) as (_ & [H | H]).
  - destruct H as (j & _ & Hbusy & _ & Htick & Hsvc & Hph).
    destruct j as [|j].
    + rewrite Nat.add_0_r in *. unfold outcome. now rewrite Hph.
    + exfalso. apply Hfree. specialize (Hbusy 0%nat). rewrite Nat.add_0_r in Hbusy.
      apply Hbusy. lia.
  - destruct H as (Hbusy & _). exfalso. apply Hfree.
    specialize (Hbusy 0%nat). rewrite Nat.add_0_r in Hbusy. apply Hbusy. lia.
Qed.

(** *** The life of a lock *)

(** X20: a lock on a resource that is free is got at the first command.
    Until its lease ends the resource is reported locked, with the rest of
    the lease as its time to live, and a release of the lock answers
    [true], deletes the key and drops the record of the service; after the
    release the resource is free. *)
Theorem lock_is_held_until_released t resource o :
  let opts := resolve o (random (draws t)) in
  let l := lock_taken (clock (tick t)) resource opts in
  let t1 := fst (acquireLock t resource o) in
  0 < r_ttl opts → r_value opts ≠ "" →
  ¬ busy (clock (tick t)) (service t) resource →
  outcome (snd (acquireLock t resource o)) = Got l
  ∧ tick t1 = S (tick t)
  ∧ activeLocks (service t1) !! resource = Some l
  ∧ ∀ n, clock n < expiresAt l →
      let t2 := at_command n t1 in
      let t3 := fst (releaseLock t2 l) in
      snd (isLocked clock t2 resource) = true
      ∧ snd (getLockTTL clock t2 resource) = expiresAt l - clock n
      ∧ snd (releaseLock t2 l) = true
      ∧ redis (service t3) = delete (key l) (redis (service t))
      ∧ activeLocks (service t3) = delete resource (activeLocks (service t))
      ∧ ∀ m, snd (isLocked clock (at_command m t3) resource) = false.
Proof.
  cbv zeta. intros Httl Hv Hfree.
  destruct (acquire_free t resource o Httl Hfree) as (Hout & Htick & Hsvc).
  split; [assumption|]. split; [assumption|]. split.
  { rewrite Hsvc. cbn [taken activeLocks]. now rewrite lookup_insert_eq. }
  intros n Hn. cbn [lock_taken expiresAt] in Hn.
  set (l := lock_taken (clock (tick t)) resource (resolve o (random (draws t)))).
  set (t2 := at_command n (fst (acquireLock t resource o))).
  assert (Hlive : live (clock n) (redis (service t2)) (lockPrefix +:+ resource)
                  = Some (lease (clock (tick t)) (resolve o (random (draws t))))).
  { unfold t2, at_command. cbn [service]. rewrite Hsvc, live_taken.
    destruct (Z.ltb_spec (clock n)
                (clock (tick t) + r_ttl (resolve o (random (draws t))))); [reflexivity|lia]. }
  destruct (release_at t2 l (key_nonempty resource) Hv) as (_ & _ & Hheld & _).
  destruct Hheld as (Hr & Hdb & Hal).
  { exists (lease (clock (tick t)) (resolve o (random (draws t)))). split; [|reflexivity].
    exact Hlive. }
  split; [|split; [|split; [exact Hr|split; [|split]]]].
  - unfold LockService.isLocked, now. cbn [snd]. change (tick t2) with n.
    rewrite Hlive. apply bool_decide_eq_true. eauto.
  - unfold LockService.getLockTTL, now. cbn [snd]. change (tick t2) with n.
    rewrite Hlive. reflexivity.
  - rewrite Hdb. unfold t2, at_command. cbn [service]. rewrite Hsvc.
    cbn [taken redis l lock_taken key]. apply delete_insert_eq.
  - rewrite Hal. unfold t2, at_command. cbn [service]. rewrite Hsvc.
    cbn [taken activeLocks l lock_taken Lock.resource]. apply delete_insert_eq.
  - intros m. unfold LockService.isLocked, now, at_command. cbn [snd service tick].
    rewrite Hdb. cbn [l lock_taken key]. rewrite live_deleted.
    apply bool_decide_eq_false. intros [? ?]. discriminate.
Qed.

(** X21: once the lease of a lock has ended the resource is reported free,
    and a release of the lock answers [false] and changes nothing. The
    record of the lock stays with the service until the cleanup runs at a
    time after the end of the lease; the cleanup never touches the store. *)
Theorem expired_lock_is_not_released t resource o :
  let opts := resolve o (random (draws t)) in
  let l := lock_taken (clock (tick t)) resource opts in
  let t1 := fst (acquireLock t resource o) in
  0 < r_ttl opts →
  ¬ busy (clock (tick t)) (service t) resource →
  ∀ n, expiresAt l <= clock n →
    let t2 := at_command n t1 in
    snd (isLocked clock t2 resource) = false
    ∧ snd (getLockTTL clock t2 resource) = -2
    ∧ snd (releaseLock t2 l) = false
    ∧ service (fst (releaseLock t2 l)) = service t1
    ∧ activeLocks (service t1) !! resource = Some l
    ∧ ∀ now',
        redis (cleanupExpiredLocks now' (service t1)) = redis (service t1)
        ∧ activeLocks (cleanupExpiredLocks now' (service t1)) !! resource
          = if bool_decide (expiresAt l < now') then None else Some l.
Proof.
  cbv zeta. intros Httl Hfree n Hn.
  destruct (acquire_free t resource o Httl Hfree) as (_ & _ & Hsvc).
  cbn [lock_taken expiresAt] in Hn.
  set (l := lock_taken (clock (tick t)) resource (resolve o (random (draws t)))).
  set (t2 := at_command n (fst (acquireLock t resource o))).
  assert (Hlive : live (clock n) (redis (service t2)) (lockPrefix +:+ resource) = None).
  { unfold t2, at_command. cbn [service]. rewrite Hsvc, live_taken.
    destruct (Z.ltb_spec (clock n)
                (clock (tick t) + r_ttl (resolve o (random (draws t))))); [lia|reflexivity]. }
  assert (Hrec : activeLocks (service (fst (acquireLock t resource o))) !! resource
                 = Some l).
  { rewrite Hsvc. cbn [taken activeLocks]. now rewrite lookup_insert_eq. }
  split; [|split; [|split; [|split; [|split; [exact Hrec|]]]]].
  - unfold LockService.isLocked, now. cbn [snd]. change (tick t2) with n.
    rewrite Hlive. apply bool_decide_eq_false. intros [? ?]. discriminate.
  - unfold LockService.getLockTTL, now. cbn [snd]. change (tick t2) with n.
    now rewrite Hlive.
  - unfold LockService.releaseLock.
    destruct (String.eqb (key l) "" || String.eqb (value l) ""); [reflexivity|].
    destruct (release_fenced (now clock t2) (service t2) l) as [_ Hno].
    rewrite Hno; [reflexivity|]. intros (e & He & _).
    unfold now in He. change (tick t2) with n in He. cbn [l lock_taken key] in He.
    rewrite Hlive in He. discriminate.
  - unfold LockService.releaseLock.
    destruct (String.eqb (key l) "" || String.eqb (value l) ""); [reflexivity|].
    destruct (release_fenced (now clock t2) (service t2) l) as [_ Hno].
    rewrite Hno; [reflexivity|]. intros (e & He & _).
    unfold now in He. change (tick t2) with n in He. cbn [l lock_taken key] in He.
    rewrite Hlive in He. discriminate.
  - intros now'. split; [reflexivity|]. unfold cleanupExpiredLocks. cbn [activeLocks].
    rewrite map_lookup_filter, Hrec. cbn.
    destruct (decide (expiresAt l < now')) as [Hd | Hd].
    + rewrite bool_decide_eq_true_2 by assumption. rewrite option_guard_False; [reflexivity|].
      intros Hneg. now apply Hneg.
    + rewrite bool_decide_eq_false_2 by assumption. now rewrite option_guard_True.
Qed.

(** X22: with nothing else touching the store, [acquireLock] gets the lock
    at the first of its [retries + 1] attempts that finds the resource
    free; it returns [null] only when every attempt found it held, having
    left the service as it was and slept [retryDelay * retries *
    (retries + 1) / 2] in all; and it throws only for a time to live that
    is not positive, after all its attempts and without any delay. *)
Theorem lock_goes_to_the_first_free_attempt t resource o :
  let opts := resolve o (random (draws t)) in
  let t' := fst (acquireLock t resource o) in
  let c' := snd (acquireLock t resource o) in
  match outcome c' with
  | Got l =>
      0 < r_ttl opts
      ∧ ∃ j, (j <= r_retries opts)%nat
             ∧ (∀ m, (m < j)%nat → busy (clock (tick t + m)) (service t) resource)
             ∧ ¬ busy (clock (tick t + j)) (service t) resource
             ∧ l = lock_taken (clock (tick t + j)) resource opts
             ∧ service t' = taken (clock (tick t + j)) resource opts (service t)
             ∧ tick t' = S (tick t + j)
  | Null =>
      0 < r_ttl opts
      ∧ (∀ m, (m <= r_retries opts)%nat →
              busy (clock (tick t + m)) (service t) resource)
      ∧ service t' = service t
      ∧ tick t' = S (tick t + r_retries opts)
      ∧ slept c' = linear_backoff (r_retryDelay opts) (r_retries opts)
      ∧ 2 * total_delay (slept c')
        = r_retryDelay opts * Z.of_nat (r_retries opts) * (Z.of_nat (r_retries opts) + 1)
  | Raised =>
      r_ttl opts <= 0
      ∧ service t' = service t
      ∧ tick t' = S (tick t + r_retries opts)
      ∧ slept c' = []
  end.
Proof.
  cbv zeta.
  destruct (Z.lt_ge_cases 0 (r_ttl (resolve o (random (draws t))))) as [Httl | Httl].
  - destruct (acquire_alone t resource o Httl) as (_ & [H | H]).
    + destruct H as (j & Hj & Hbusy & Hfree & Htick & Hsvc & Hph).
      unfold outcome. rewrite Hph. split; [assumption|]. exists j. auto 10.
    + destruct H as (Hbusy & Htick & Hsvc & Hph & Hsl).
      unfold outcome. rewrite Hph, Hsl, total_backoff. auto 10.
  - unfold LockService.acquireLock.
    pose proof (attempts_invalid
                  (S (r_retries (call_options (start_call resource o (random (draws t))))))
                  {| service := service t; tick := tick t; draws := S (draws t) |}
                  (start_call resource o (random (draws t))) 0%nat eq_refl Httl)
      as H.
    cbv zeta in H.
    cbn [start_call call_options call_resource tick service draws slept] in H.
    rewrite Nat.sub_0_r in H.
    destruct H as (Hsvc & Htick & Hph & Hsl); [lia | reflexivity |].
    cbv zeta. cbn [start_call call_options].
    unfold outcome. rewrite Hph. auto.
Qed.

(** X23: an extension of a lock within its lease answers [true] and moves
    the end of the lease, in the lock and in the record of the service, to
    the time of the extension plus the new time to live; from then on the
    resource is reported locked exactly until that time. A new time to live
    that is negative is answered [true] as well, and frees the resource at
    once. *)
Theorem extension_moves_the_end_of_the_lease t resource o ttl' :
  let opts := resolve o (random (draws t)) in
  let l := lock_taken (clock (tick t)) resource opts in
  let t1 := fst (acquireLock t resource o) in
  0 < r_ttl opts → r_value opts ≠ "" →
  ¬ busy (clock (tick t)) (service t) resource →
  ∀ n, clock n < expiresAt l →
    let extension := extendLock clock (at_command n t1) l ttl' in
    let l' := {| resource := resource; key := key l; value := value l; ttl := ttl l;
                 acquiredAt := acquiredAt l;
                 expiresAt := clock n + new_ttl ttl' l |} in
    snd extension = true
    ∧ snd (fst extension) = Some l'
    ∧ activeLocks (service (fst (fst extension))) !! resource = Some l'
    ∧ ∀ m, snd (isLocked clock (at_command m (fst (fst extension))) resource)
           = bool_decide (0 < new_ttl ttl' l ∧ clock m < clock n + new_ttl ttl' l).
Proof.
  cbv zeta. intros Httl Hv Hfree n Hn.
  destruct (acquire_free t resource o Httl Hfree) as (_ & _ & Hsvc).
  cbn [lock_taken expiresAt] in Hn.
  set (opts := resolve o (random (draws t))) in *.
  set (l := lock_taken (clock (tick t)) resource opts).
  unfold LockService.extendLock, now, at_command. cbn [service tick].
  rewrite Hsvc.
  destruct (String.eqb_spec (key l) ""); [discriminate|].
  destruct (String.eqb_spec (value l) ""); [contradiction|]. cbn [orb].
  unfold Lock.extendLock, extend_script.
  destruct (String.eqb_spec (key l) ""); [discriminate|].
  destruct (String.eqb_spec (value l) ""); [contradiction|]. cbn [orb].
  change (key l) with (lockPrefix +:+ resource). rewrite live_taken.
  destruct (Z.ltb_spec (clock n) (clock (tick t) + r_ttl opts)); [|lia].
  change (stored (lease (clock (tick t)) opts)) with (value l).
  rewrite String.eqb_refl. cbn [Z.eqb Pos.eqb fst snd redis activeLocks taken].
  rewrite lookup_insert_eq.
  destruct (decide (Some (lock_taken (clock (tick t)) resource opts) = Some l))
    as [_ | Hne]; [|now contradiction Hne].
  cbn [fst snd tock service activeLocks redis Lock.resource l lock_taken].
  split; [reflexivity|]. split; [reflexivity|].
  split; [now rewrite lookup_insert_eq|].
  intros m. unfold LockService.isLocked, now. cbn [snd service tick redis].
  unfold pexpire, live.
  destruct (Z.leb_spec (new_ttl ttl' l) 0) as [Hle | Hgt].
  - rewrite lookup_delete_eq. rewrite (bool_decide_eq_false_2 (0 < _ ∧ _)) by lia.
    apply bool_decide_eq_false. intros [? ?]. discriminate.
  - rewrite lookup_alter_eq, lookup_insert_eq. cbn [fmap option_fmap option_map expires].
    destruct (Z.ltb_spec (clock m) (clock n + new_ttl ttl' l)).
    + rewrite (bool_decide_eq_true_2 (0 < _ ∧ _)) by lia. apply bool_decide_eq_true. eauto.
    + rewrite (bool_decide_eq_false_2 (0 < _ ∧ _)) by lia.
      apply bool_decide_eq_false. intros [? ?]. discriminate.
Qed.

(** *** Several locks *)

Lemma record_elem st l :
  l ∈ records st ↔ ∃ r, activeLocks st !! r = Some l.
Proof.
  unfold records. rewrite list_elem_of_fmap. split.
  - intros ([r l'] & -> & Hin). exists r. now apply elem_of_map_to_list.
  - intros (r & Hl). exists (r, l). split; [reflexivity|]. now apply elem_of_map_to_list.
Qed.


Lemma token_nonempty o n :
  opt_value o ≠ Some "" → (∀ n, random n ≠ "") → r_value (resolve o (random n)) ≠ "".
Proof.
  intros Ho Hr. unfold resolve. cbn [r_value].
  destruct (opt_value o) as [v|]; cbn; [|apply Hr]. intros ->. now apply Ho.
Qed.

Lemma acquire_each_spec o db0 resources :
  monotone clock → 0 < default defaultTTL (opt_ttl o) →
  opt_value o ≠ Some "" → (∀ n, random n ≠ "") →
  ∀ t locks,
    left_by db0 (redis (service t)) locks →
    let t' := fst (acquire_each t resources o locks) in
    (tick t <= tick t')%nat
    ∧ match snd (acquire_each t resources o locks) with
      | RaisedAll => False
      | Locks ls =>
          (∃ new, ls = locks ++ new ∧ length new = length resources
                  ∧ ∀ i l, new !! i = Some l →
                           ∃ r n, resources !! i = Some r
                                  ∧ (tick t <= n < tick t')%nat
                                  ∧ l = lock_taken (clock n) r
                                          (resolve o (random (draws t + i))))
          ∨ (ls = [] ∧ resources ≠ []
             ∧ ∀ n k e, (tick t' <= n)%nat →
                        live (clock n) (redis (service t')) k = Some e →
                        db0 !! k = Some e)
      end.
Proof.
  intros Hmono Httl Hval Hrnd.
  induction resources as [|r rs IH]; intros t locks Hleft; cbv zeta.
  - cbn. split; [lia|]. left. exists []. rewrite app_nil_r.
    repeat split; auto. intros i l Hl. rewrite lookup_nil in Hl. discriminate.
  - cbn [LockService.acquire_each].
    pose proof (acquire_alone t r o Httl) as (Hdraws & Hacq). cbv zeta in *.
    destruct (LockService.acquireLock clock random t r o) as [t1 c] eqn:Ea.
    cbn [fst snd] in *.
    destruct Hacq as [(j & Hj & Hbusy & Hfree & Htick & Hsvc & Hph)
                     | (Hbusy & Htick & Hsvc & Hph & Hsl)].
    + unfold outcome. rewrite Hph.
      set (l := lock_taken (clock (tick t + j)) r (resolve o (random (draws t)))) in *.
      specialize (IH t1 (locks ++ [l])). cbv zeta in IH.
      destruct IH as (Hle & IH).
      { intros k e Hl. rewrite Hsvc in Hl. cbn [taken redis] in Hl.
        apply lookup_insert_Some in Hl as [[<- <-] | [Hne Hl]].
        - right. exists l. split; [apply elem_of_app; right; now left|].
          split; [reflexivity|]. split; [reflexivity|].
          split; [apply key_nonempty | now apply token_nonempty].
        - destruct (Hleft k e Hl) as [? | (l' & Hin & ?)]; [now left|].
          right. exists l'. split; [apply elem_of_app; now left | assumption]. }
      split; [lia|].
      destruct (LockService.acquire_each clock random t1 rs o (locks ++ [l]))
        as [t2 result].
      cbn [fst snd] in *. destruct result as [ls|]; [|contradiction].
      destruct IH as [(new & -> & Hlen & Hnew) | (-> & Hrs & Hnone)].
      * left. exists (l :: new). rewrite <- app_assoc. split; [reflexivity|].
        split; [cbn; now rewrite Hlen|]. intros i l' Hl'. destruct i as [|i].
        -- injection Hl' as <-. exists r, (tick t + j)%nat.
           rewrite Nat.add_0_r. repeat split; auto; lia.
        -- destruct (Hnew i l' Hl') as (r' & n & Hr' & Hn & ->).
           exists r', n. rewrite Hdraws, Nat.add_succ_r. repeat split; auto; lia.
      * right. split; [reflexivity|]. split; [discriminate|]. exact Hnone.
    + unfold outcome. rewrite Hph.
      pose proof (release_each t1 locks) as Hrel. cbv zeta in Hrel.
      destruct (LockService.releaseMultipleLocks clock t1 locks) as [t2 released].
      cbn [fst snd] in *.
      destruct Hrel as (Hle & _ & _ & Hdel & _ & Hexp).
      split; [lia|]. right. split; [reflexivity|]. split; [discriminate|].
      intros n k e Hn He. pose proof (live_lookup _ _ _ _ He) as Hl.
      pose proof (Hdel k e Hl) as Hl1. rewrite Hsvc in Hl1.
      destruct (Hleft k e Hl1) as [? | (l' & Hin & <- & Hst & Hk & Hv)]; [assumption|].
      exfalso. destruct (Hexp l' e Hin Hk Hv Hl (eq_sym Hst)) as (m & Hm & Hle').
      assert (clock m <= clock n) by (apply Hmono; lia).
      unfold live in He. rewrite Hl in He.
      destruct (Z.ltb_spec (clock n) (expires e)); [lia | discriminate].
Qed.

(** X25: [acquireMultipleLocks] returns a lock for every resource, in the
    order of the resources and each with a token of its own draw, or it
    returns no lock at all; in that case none of the keys it had taken is
    held any more: every key that is live afterwards was in the store
    before the call, with the same entry. It does not throw. *)
Theorem several_locks_are_got_together_or_not_at_all t resources o :
  monotone clock → 0 < default defaultTTL (opt_ttl o) →
  opt_value o ≠ Some "" → (∀ n, random n ≠ "") →
  let t' := fst (acquireMultipleLocks t resources o) in
  match snd (acquireMultipleLocks t resources o) with
  | RaisedAll => False
  | Locks locks =>
      (length locks = length resources
       ∧ ∀ i l, locks !! i = Some l →
                ∃ r n, resources !! i = Some r
                       ∧ (tick t <= n < tick t')%nat
                       ∧ l = lock_taken (clock n) r (resolve o (random (draws t + i))))
      ∨ (locks = [] ∧ resources ≠ []
         ∧ ∀ n k e, (tick t' <= n)%nat →
                    live (clock n) (redis (service t')) k = Some e →
                    redis (service t) !! k = Some e)
  end.
Proof.
  intros Hmono Httl Hval Hrnd. cbv zeta. unfold LockService.acquireMultipleLocks.
  pose proof (acquire_each_spec o (redis (service t)) resources Hmono Httl Hval Hrnd
                t []) as H.
  cbv zeta in H. destruct H as (_ & H); [intros k e Hl; now left|].
  destruct (snd (LockService.acquire_each clock random t resources o [])) as [ls|];
    [|contradiction].
  destruct H as [(new & -> & Hlen & Hnew) | H]; [left | right; exact H].
  cbn [app]. split; assumption.
Qed.

End Clock.

(** *** A process with a steady clock *)

Lemma steady_monotone : monotone steady.
Proof. intros m n H. unfold steady. lia. Qed.

Lemma numbered_nonempty n : numbered n ≠ "".
Proof. discriminate. Qed.

Lemma fresh_free now resource : ¬ busy now (service fresh) resource.
Proof.
  unfold busy, live. cbn [fresh service redis]. rewrite lookup_empty.
  intros [? ?]. discriminate.
Qed.

Lemma held_lock_witness :
  outcome (snd (acquireLock steady numbered fresh "account-1" no_options))
  = Got (lock_taken (steady 0) "account-1" (resolve no_options (numbered 0)))
  ∧ tick (fst (acquireLock steady numbered fresh "account-1" no_options)) = 1%nat
  ∧ activeLocks (service (fst (acquireLock steady numbered fresh "account-1" no_options)))
      !! "account-1"
    = Some (lock_taken (steady 0) "account-1" (resolve no_options (numbered 0)))
  ∧ ∀ n, steady n < steady 0 + 30000 →
      snd (isLocked steady
             (at_command n (fst (acquireLock steady numbered fresh "account-1" no_options)))
             "account-1") = true
      ∧ snd (getLockTTL steady
               (at_command n (fst (acquireLock steady numbered fresh "account-1" no_options)))
               "account-1") = steady 0 + 30000 - steady n
      ∧ snd (releaseLock steady
               (at_command n (fst (acquireLock steady numbered fresh "account-1" no_options)))
               (lock_taken (steady 0) "account-1" (resolve no_options (numbered 0))))
        = true
      ∧ redis (service (fst (releaseLock steady
                 (at_command n (fst (acquireLock steady numbered fresh "account-1" no_options)))
                 (lock_taken (steady 0) "account-1" (resolve no_options (numbered 0))))))
        = delete "lock:account-1" (redis (service fresh))
      ∧ activeLocks (service (fst (releaseLock steady
                 (at_command n (fst (acquireLock steady numbered fresh "account-1" no_options)))
                 (lock_taken (steady 0) "account-1" (resolve no_options (numbered 0))))))
        = delete "account-1" (activeLocks (service fresh))
      ∧ ∀ m, snd (isLocked steady
                    (at_command m (fst (releaseLock steady
                       (at_command n
                          (fst (acquireLock steady numbered fresh "account-1" no_options)))
                       (lock_taken (steady 0) "account-1"
                          (resolve no_options (numbered 0))))))
                    "account-1") = false.
Proof.
  apply (lock_is_held_until_released steady numbered fresh "account-1" no_options).
  - reflexivity.
  - apply numbered_nonempty.
  - apply fresh_free.
Defined.

Lemma expired_lock_witness :
  ¬ busy (steady 0) (service fresh) "account-1"
  ∧ ∀ n, steady 0 + 30000 <= steady n →
    snd (isLocked steady
           (at_command n (fst (acquireLock steady numbered fresh "account-1" no_options)))
           "account-1") = false
    ∧ snd (getLockTTL steady
             (at_command n (fst (acquireLock steady numbered fresh "account-1" no_options)))
             "account-1") = -2
    ∧ snd (releaseLock steady
             (at_command n (fst (acquireLock steady numbered fresh "account-1" no_options)))
             (lock_taken (steady 0) "account-1" (resolve no_options (numbered 0))))
      = false
    ∧ service (fst (releaseLock steady
                 (at_command n (fst (acquireLock steady numbered fresh "account-1" no_options)))
                 (lock_taken (steady 0) "account-1" (resolve no_options (numbered 0)))))
      = service (fst (acquireLock steady numbered fresh "account-1" no_options))
    ∧ activeLocks (service (fst (acquireLock steady numbered fresh "account-1" no_options)))
        !! "account-1"
      = Some (lock_taken (steady 0) "account-1" (resolve no_options (numbered 0)))
    ∧ ∀ now',
        redis (cleanupExpiredLocks now'
                 (service (fst (acquireLock steady numbered fresh "account-1" no_options))))
        = redis (service (fst (acquireLock steady numbered fresh "account-1" no_options)))
        ∧ activeLocks (cleanupExpiredLocks now'
                 (service (fst (acquireLock steady numbered fresh "account-1" no_options))))
            !! "account-1"
          = if bool_decide (steady 0 + 30000 < now') then None
            else Some (lock_taken (steady 0) "account-1" (resolve no_options (numbered 0))).
Proof.
  split; [apply fresh_free|].
  apply (expired_lock_is_not_released steady numbered fresh "account-1" no_options).
  - reflexivity.
  - apply fresh_free.
Defined.

Lemma extension_witness :
  ¬ busy (steady 0) (service fresh) "account-1"
  ∧ ∀ n, steady n < steady 0 + 30000 →
    snd (extendLock steady
           (at_command n (fst (acquireLock steady numbered fresh "account-1" no_options)))
           (lock_taken (steady 0) "account-1" (resolve no_options (numbered 0)))
           (Some 100)) = true
    ∧ snd (fst (extendLock steady
           (at_command n (fst (acquireLock steady numbered fresh "account-1" no_options)))
           (lock_taken (steady 0) "account-1" (resolve no_options (numbered 0)))
           (Some 100)))
      = Some {| resource := "account-1"; key := "lock:account-1";
                value := numbered 0; ttl := 30000; acquiredAt := steady 0;
                expiresAt := steady n + 100 |}
    ∧ activeLocks (service (fst (fst (extendLock steady
           (at_command n (fst (acquireLock steady numbered fresh "account-1" no_options)))
           (lock_taken (steady 0) "account-1" (resolve no_options (numbered 0)))
           (Some 100))))) !! "account-1"
      = Some {| resource := "account-1"; key := "lock:account-1";
                value := numbered 0; ttl := 30000; acquiredAt := steady 0;
                expiresAt := steady n + 100 |}
    ∧ ∀ m, snd (isLocked steady
                  (at_command m (fst (fst (extendLock steady
                     (at_command n
                        (fst (acquireLock steady numbered fresh "account-1" no_options)))
                     (lock_taken (steady 0) "account-1" (resolve no_options (numbered 0)))
                     (Some 100)))))
                  "account-1")
           = bool_decide (0 < 100 ∧ steady m < steady n + 100).
Proof.
  split; [apply fresh_free|].
  apply (extension_moves_the_end_of_the_lease steady numbered fresh "account-1"
           no_options (Some 100)).
  - reflexivity.
  - apply numbered_nonempty.
  - apply fresh_free.
Defined.


Lemma several_locks_witness :
  match snd (acquireMultipleLocks steady numbered fresh ["account-1"; "account-2"]
               no_options) with
  | RaisedAll => False
  | Locks locks =>
      (length locks = 2%nat
       ∧ ∀ i l, locks !! i = Some l →
                ∃ r n, ["account-1"; "account-2"] !! i = Some r
                       ∧ (0 <= n < tick (fst (acquireMultipleLocks steady numbered fresh
                                                ["account-1"; "account-2"] no_options)))%nat
                       ∧ l = lock_taken (steady n) r (resolve no_options (numbered (0 + i))))
      ∨ (locks = [] ∧ ["account-1"; "account-2"] ≠ []
         ∧ ∀ n k e,
             (tick (fst (acquireMultipleLocks steady numbered fresh
                           ["account-1"; "account-2"] no_options)) <= n)%nat →
             live (steady n)
               (redis (service (fst (acquireMultipleLocks steady numbered fresh
                                       ["account-1"; "account-2"] no_options)))) k
             = Some e →
             redis (service fresh) !! k = Some e)
  end.
Proof.
  apply (several_locks_are_got_together_or_not_at_all steady numbered fresh
           ["account-1"; "account-2"] no_options).
  - apply steady_monotone.
  - reflexivity.
  - discriminate.
  - apply numbered_nonempty.
Defined.

End LockServiceFacts.

(** ** Facts about the identifiers *)

Module UuidFacts.
Import Uuid.

Lemma int_of_draw (q : Q) : (0 <= q < 1)%Q → 0 <= to_int32 (q * 16)%Q < 16.
Proof.
  intros [H0 H1]. unfold to_int32, Qle, Qlt in *. destruct q as [a b]. cbn in *.
  rewrite Pos.mul_1_r. rewrite Z.mul_1_r in *.
  assert (Ha : 0 <= a) by lia.
  rewrite Z.quot_div_nonneg by lia.
  assert (Hq : 0 <= a * 16 / Z.pos b < 16).
  { split; [apply Z.div_pos; lia | apply Z.div_lt_upper_bound; lia]. }
  rewrite Z.mod_small by lia. lia.
Qed.

Lemma small_cases r : 0 <= r < 16 →
  r = 0 ∨ r = 1 ∨ r = 2 ∨ r = 3 ∨ r = 4 ∨ r = 5 ∨ r = 6 ∨ r = 7
  ∨ r = 8 ∨ r = 9 ∨ r = 10 ∨ r = 11 ∨ r = 12 ∨ r = 13 ∨ r = 14 ∨ r = 15.
Proof. lia. Qed.

Lemma digit_x q :
  (0 <= q < 1)%Q → ∃ c, digit_for "x" q = String c "" ∧ is_hex c = true.
Proof.
  intros H. unfold digit_for. cbv zeta.
  change (Ascii.eqb "x" "x") with true. cbv iota.
  destruct (small_cases _ (int_of_draw q H)) as
    [-> | [-> | [-> | [-> | [-> | [-> | [-> | [-> | [-> | [-> | [-> | [-> | [-> | [->
    | [-> | ->]]]]]]]]]]]]]]]; eexists; split; reflexivity.
Qed.

Lemma digit_y q :
  (0 <= q < 1)%Q →
  ∃ c, digit_for "y" q = String c ""
       ∧ (c = "8" ∨ c = "9" ∨ c = "a" ∨ c = "b")%char.
Proof.
  intros H. unfold digit_for. cbv zeta.
  change (Ascii.eqb "y" "x") with false. cbv iota.
  destruct (small_cases _ (int_of_draw q H)) as
    [-> | [-> | [-> | [-> | [-> | [-> | [-> | [-> | [-> | [-> | [-> | [-> | [-> | [->
    | [-> | ->]]]]]]]]]]]]]]]; eexists; (split; [reflexivity|]); cbn; auto.
Qed.

(** X26: when every draw is a number from 0, included, to 1, excluded,
    the identifier has 36 characters: hyphens at the positions 8, 13, 18
    and 23, the digit 4 at position 14, one of 8, 9, a and b at position
    19, and digits of base 16 in lower case everywhere else. *)
Theorem generated_identifier_is_a_version_4_uuid (random : nat → Q) :
  (∀ n, (0 <= random n < 1)%Q) →
  let id := _generateUUID random in
  String.length id = 36%nat
  ∧ ∀ i c, String.get i id = Some c →
      (i = 8 ∨ i = 13 ∨ i = 18 ∨ i = 23 → c = "-"%char)%nat
      ∧ (i = 14%nat → c = "4"%char)
      ∧ (i = 19%nat → (c = "8" ∨ c = "9" ∨ c = "a" ∨ c = "b")%char)
      ∧ (i ≠ 8 → i ≠ 13 → i ≠ 18 → i ≠ 23 → is_hex c = true)%nat.
Proof.
  intros Hdraw. cbv zeta. unfold _generateUUID.
  cbn -[digit_for].
  repeat match goal with
         | |- context [digit_for "x" (random ?n)] =>
             let c := fresh "c" in
             let Hc := fresh "Hc" in
             let E := fresh "E" in
             destruct (digit_x (random n) (Hdraw n)) as (c & E & Hc); rewrite E; clear E
         | |- context [digit_for "y" (random ?n)] =>
             let c := fresh "c" in
             let Hc := fresh "Hc" in
             let E := fresh "E" in
             destruct (digit_y (random n) (Hdraw n)) as (c & E & Hc); rewrite E; clear E
         end.
  cbn [String.append]. split; [reflexivity|].
  intros i ch.
  do 36 (destruct i as [|i];
         [ cbn [String.get]; intros [= <-];
           (split; [intros; try lia; reflexivity|]);
           (split; [intros; try lia; reflexivity|]);
           (split; [intros; try lia; try assumption|]);
           intros; try lia; try assumption;
           repeat match goal with H : _ ∨ _ |- _ => destruct H end;
           subst; reflexivity
         |]).
  cbn [String.get]. discriminate.
Qed.

Lemma uuid_witness :
  String.length (_generateUUID halves) = 36%nat
  ∧ ∀ i c, String.get i (_generateUUID halves) = Some c →
      (i = 8 ∨ i = 13 ∨ i = 18 ∨ i = 23 → c = "-"%char)%nat
      ∧ (i = 14%nat → c = "4"%char)
      ∧ (i = 19%nat → (c = "8" ∨ c = "9" ∨ c = "a" ∨ c = "b")%char)
      ∧ (i ≠ 8 → i ≠ 13 → i ≠ 18 → i ≠ 23 → is_hex c = true)%nat.
Proof.
  apply (generated_identifier_is_a_version_4_uuid halves).
  intros n. split; [discriminate | reflexivity].
Defined.

End UuidFacts.
